(** * TokenFlow tokenizer engine: lattice construction and decoding

    A shallow embedding of [utils/tokenizerEngine.ts] (with the parts of
    [constants.ts] and [types.ts] it uses) and the verification of the
    properties the specification states about it.

    Modelling conventions.
    - A JavaScript string is the list of its UTF-16 code units ([jsstring]).
      [length], [substring], indexing and [===] act on code units, as in the
      source.
    - A JavaScript [number] is modelled by [number]: a rational, or one of
      the three special values [Infinity], [-Infinity] and [NaN].  The
      special values follow IEEE 754 (comparisons with [NaN] are false,
      [Infinity - Infinity] is [NaN], [0] and [NaN] are falsy).  Where the
      source computes with fractions, every result is rounded to binary64
      (to nearest, ties to even, with the subnormal numbers): the sum and
      the quotients behind the Unigram probabilities ([Num.fadd],
      [Num.fdiv], which overflow to an infinity) and the costs the Viterbi
      decoder adds up ([Num.cost_add]; here the overflow of a finite sum is
      left out, which no text that a JavaScript string can hold reaches).
      Counts, indices, the differences that serve as comparators and the
      ratios of counts are computed exactly.  The sign of zero is not
      modelled.
    - [Math.exp], [Math.log], [String.prototype.toLowerCase] and
      [String.prototype.normalize] belong to the host: they are parameters of
      the development ([HostMath], [HostString]).
    - A [Record<string, number>] that starts as [{}] is the finite map of
      its own properties ([gmap]), written and read through [Object_set]
      and [Object_get], which model what it inherits from
      [Object.prototype]: an assignment to the key [__proto__] stores
      nothing, and the read of a key that is no own property yields what
      the prototype holds under it, an object and not a number.
    - A [while] loop of the source takes a fuel argument and reports
      [OutOfFuel] when it is used up; a property read of [undefined] reports
      [TypeError].
    - A [Map] is the list of its entries in insertion order, one per key; a
      [Set] of strings is a finite set ([gset]).
    - What [fetch] resolves to is an input of the vocabulary loader.

    Beside the engine the development embeds its caller
    [utils/validationRunner.ts] (the metrics and their statuses; the
    formatted strings of the rows are left out), the vocabulary generators
    of [utils/vocabGenerator.ts] and the conversion of a vocabulary file by
    [loadHFPreset], and verifies properties of theirs that the code
    shows. *)

From Stdlib Require Import Ascii String QArith Qminmax Qround Qpower
  DecimalNat Lqa.
From stdpp Require Import base list gmap sorting.

Local Open Scope nat_scope.

(* ===================================================================== *)
(** * JavaScript strings *)
(* ===================================================================== *)

(** A UTF-16 code unit. *)
Definition char : Type := N.
Definition jsstring : Type := list char.

(** A string literal of the source whose characters are all ASCII. *)
Definition js (s : string) : jsstring :=
  (fun a => N_of_ascii a) <$> list_ascii_of_string s.

(** [s.substring(i, j)]: both indices are clamped to the length and swapped
    when out of order. *)
Definition substring (s : jsstring) (i j : nat) : jsstring :=
  let a := i `min` length s in
  let b := j `min` length s in
  take ((a `max` b) - (a `min` b)) (drop (a `min` b) s).

(** [s[i]] for an index inside the string: the one-unit string at [i]. *)
Definition charAt (s : jsstring) (i : nat) : jsstring := take 1 (drop i s).

(** The decimal digits of a natural number, as a template literal prints it. *)
Definition digit_char (d : nat) : char := (48 + N.of_nat d)%N.

Fixpoint digits_of_uint (d : Decimal.uint) : jsstring :=
  match d with
  | Decimal.Nil => []
  | Decimal.D0 d => digit_char 0 :: digits_of_uint d
  | Decimal.D1 d => digit_char 1 :: digits_of_uint d
  | Decimal.D2 d => digit_char 2 :: digits_of_uint d
  | Decimal.D3 d => digit_char 3 :: digits_of_uint d
  | Decimal.D4 d => digit_char 4 :: digits_of_uint d
  | Decimal.D5 d => digit_char 5 :: digits_of_uint d
  | Decimal.D6 d => digit_char 6 :: digits_of_uint d
  | Decimal.D7 d => digit_char 7 :: digits_of_uint d
  | Decimal.D8 d => digit_char 8 :: digits_of_uint d
  | Decimal.D9 d => digit_char 9 :: digits_of_uint d
  end.

Definition String_of_nat (n : nat) : jsstring := digits_of_uint (Nat.to_uint n).

Definition String_of_Z (z : Z) : jsstring :=
  match z with
  | Zneg p => 45%N :: String_of_nat (Pos.to_nat p)
  | _ => String_of_nat (Z.to_nat z)
  end.

(* ===================================================================== *)
(** * JavaScript numbers *)
(* ===================================================================== *)

Inductive number : Type :=
| Fin (q : Q)
| PInf
| NInf
| NaN.

Module Num.

Definition of_nat (n : nat) : number := Fin (inject_Z (Z.of_nat n)).
Definition of_Z (z : Z) : number := Fin (inject_Z z).

Definition Qltb (a b : Q) : bool :=
  match (a ?= b)%Q with Lt => true | _ => false end.

(** [a + b] *)
Definition add (a b : number) : number :=
  match a, b with
  | NaN, _ | _, NaN => NaN
  | PInf, NInf | NInf, PInf => NaN
  | PInf, _ | _, PInf => PInf
  | NInf, _ | _, NInf => NInf
  | Fin x, Fin y => Fin (x + y)
  end.

(** [-a] *)
Definition neg (a : number) : number :=
  match a with
  | Fin x => Fin (- x)
  | PInf => NInf
  | NInf => PInf
  | NaN => NaN
  end.

(** [a - b] *)
Definition sub (a b : number) : number := add a (neg b).

(** [a / b]; a zero divisor counts as [+0]. *)
Definition div (a b : number) : number :=
  match a, b with
  | NaN, _ | _, NaN => NaN
  | (PInf | NInf), (PInf | NInf) => NaN
  | Fin _, (PInf | NInf) => Fin 0
  | PInf, Fin y => if Qltb y 0 then NInf else PInf
  | NInf, Fin y => if Qltb y 0 then PInf else NInf
  | Fin x, Fin y =>
      if Qeq_bool y 0
      then (if Qeq_bool x 0 then NaN else if Qltb x 0 then NInf else PInf)
      else Fin (x / y)
  end.

(** [2^e] *)
Definition pow2 (e : Z) : Q := Qpower 2 e.

(** The exponent of a positive rational: the [e] with [2^e <= x < 2^(e+1)]. *)
Definition Qlog2 (x : Q) : Z :=
  let k := (Z.log2 (Qnum x) - Z.log2 (Zpos (Qden x)))%Z in
  if Qle_bool (pow2 k) x then k else (k - 1)%Z.

(** The integer nearest to [x], the even one of two that are as near. *)
Definition round_half_even (x : Q) : Z :=
  let f := Qfloor x in
  match (x - inject_Z f ?= 1 # 2)%Q with
  | Lt => f
  | Gt => (f + 1)%Z
  | Eq => if Z.even f then f else (f + 1)%Z
  end.

(** The spacing of the binary64 numbers around a positive [x]: 53 bits of
    precision, and at least the spacing [2^-1074] of the subnormal
    numbers. *)
Definition quantum (x : Q) : Z := Z.max (Qlog2 x - 52) (-1074).

(** A positive rational rounded in the spacing of its own exponent. *)
Definition nearest_pos (x : Q) : Q :=
  inject_Z (round_half_even (x / pow2 (quantum x))) * pow2 (quantum x).

(** The rational of 53 bits of precision nearest to [x], ties to even, as
    binary64 rounds; the exponent is not bounded above here. *)
Definition nearest (x : Q) : Q :=
  match (x ?= 0)%Q with
  | Eq => 0
  | Gt => nearest_pos x
  | Lt => - nearest_pos (- x)
  end.

(** An exact result as binary64 holds it: rounded to nearest, and infinite
    from [2^1024] on. *)
Definition rounded (a : number) : number :=
  match a with
  | Fin x =>
      let r := nearest x in
      if Qle_bool (pow2 1024) r then PInf
      else if Qle_bool r (- pow2 1024) then NInf
      else Fin r
  | _ => a
  end.

(** [a + b] and [a / b] on numbers that are not integers: rounded. *)
Definition fadd (a b : number) : number := rounded (add a b).
Definition fdiv (a b : number) : number := rounded (div a b).

(** [a + b] for the cost of a path and the score of an edge: rounded.  On a
    host a score is 10 or the negated logarithm of a binary64 number, so at
    most 745 in size where it is finite, and a text has fewer than [2^53]
    characters: a finite sum of scores stays far below [2^1024], and its
    overflow is not modelled.  Below that size this is [fadd]
    ([cost_add_fadd]). *)
Definition cost_add (a b : number) : number :=
  match add a b with
  | Fin x => Fin (nearest x)
  | c => c
  end.

(** The literal [0.0001]. *)
Definition floor_probability : number := Fin (nearest (1 # 10000)).

(** [a < b] *)
Definition ltb (a b : number) : bool :=
  match a, b with
  | NaN, _ | _, NaN => false
  | _, NInf => false
  | NInf, _ => true
  | PInf, _ => false
  | Fin _, PInf => true
  | Fin x, Fin y => Qltb x y
  end.

(** [a === b] *)
Definition eqb (a b : number) : bool :=
  match a, b with
  | Fin x, Fin y => Qeq_bool x y
  | PInf, PInf | NInf, NInf => true
  | _, _ => false
  end.

(** Truthiness of a number: [0] and [NaN] are falsy. *)
Definition truthy (a : number) : bool :=
  match a with
  | Fin x => negb (Qeq_bool x 0)
  | PInf | NInf => true
  | NaN => false
  end.

(** [a || d] on numbers. *)
Definition or_else (a d : number) : number := if truthy a then a else d.

(** [a <= b] as a proposition, for stating bounds: never true of [NaN]. *)
Definition le (a b : number) : Prop :=
  match a, b with
  | NaN, _ | _, NaN => False
  | NInf, _ => True
  | _, PInf => True
  | _, NInf => False
  | PInf, _ => False
  | Fin x, Fin y => (x <= y)%Q
  end.

End Num.

Arguments Num.pow2 : simpl never.
Arguments Num.nearest : simpl never.

(* ===================================================================== *)
(** * JavaScript objects used as lookup tables *)
(* ===================================================================== *)

(** What a property read of a lookup table yields, when it yields
    anything: a number the program stored, or an object the table inherits
    from [Object.prototype], known here by the key it is found under
    ([Object.prototype] itself under [__proto__], a method under its
    name). *)
Inductive value : Type :=
| VNumber (x : number)
| VObject (key : jsstring).

(** [Number(v)] for such a value: an object of the prototype chain has no
    numeric value. *)
Definition ToNumber (v : value) : number :=
  match v with
  | VNumber x => x
  | VObject _ => NaN
  end.

(** The own properties of a [Record<string, number>] that starts as [{}]. *)
Abbreviation table := (gmap jsstring number).

(** The methods [Object.prototype] holds. *)
Definition Object_prototype_methods : list jsstring :=
  [ js "constructor"; js "__defineGetter__"; js "__defineSetter__";
    js "hasOwnProperty"; js "__lookupGetter__"; js "__lookupSetter__";
    js "isPrototypeOf"; js "propertyIsEnumerable"; js "toString";
    js "valueOf"; js "toLocaleString" ].

(** [tbl[k] = x] for a number [x].  The key [__proto__] names the accessor
    of [Object.prototype], whose setter ignores a value that is not an
    object: nothing is stored. *)
Definition Object_set (tbl : table) (k : jsstring) (x : number) : table :=
  if bool_decide (k = js "__proto__") then tbl else <[k := x]> tbl.

(** [tbl[k]]: the own property, else what [Object.prototype] holds under
    [k], else [undefined] ([None]).  Under [__proto__] the accessor answers
    with [Object.prototype]. *)
Definition Object_get (tbl : table) (k : jsstring) : option value :=
  if bool_decide (k = js "__proto__") then Some (VObject k)
  else
    match tbl !! k with
    | Some x => Some (VNumber x)
    | None =>
        if bool_decide (k ∈ Object_prototype_methods) then Some (VObject k)
        else None
    end.

(* ===================================================================== *)
(** * Host functions *)
(* ===================================================================== *)

(** [Math.exp] and [Math.log]. *)
Class HostMath : Type := {
  Math_exp : number -> number;
  Math_log : number -> number;
}.

(** [String.prototype.toLowerCase] and [String.prototype.normalize("NFD")]. *)
Class HostString : Type := {
  String_toLowerCase : jsstring -> jsstring;
  String_normalize_NFD : jsstring -> jsstring;
}.

(** [Array.prototype.sort(cmp)]: the stable sort the language prescribes,
    here by insertion; [cmp x y > 0] puts [y] before [x]. *)
Fixpoint sort_insert {A} (cmp : A -> A -> number) (x : A) (l : list A) : list A :=
  match l with
  | [] => [x]
  | y :: l' =>
      if Num.ltb (Fin 0) (cmp x y) then y :: sort_insert cmp x l' else x :: y :: l'
  end.

Definition Array_sort {A} (cmp : A -> A -> number) (l : list A) : list A :=
  foldr (sort_insert cmp) [] l.

(** Outcome of a computation of the source: a value, a [TypeError] raised by
    reading a property of [undefined], or a loop that used up its fuel. *)
Inductive outcome (A : Type) : Type :=
| Done (a : A)
| TypeError
| OutOfFuel.
Arguments Done {A} a.
Arguments TypeError {A}.
Arguments OutOfFuel {A}.

Global Instance outcome_bind : MBind outcome := fun A B k m =>
  match m with
  | Done a => k a
  | TypeError => TypeError
  | OutOfFuel => OutOfFuel
  end.

Global Instance outcome_fmap : FMap outcome := fun A B f m =>
  match m with
  | Done a => Done (f a)
  | TypeError => TypeError
  | OutOfFuel => OutOfFuel
  end.

(* ===================================================================== *)
(** * types.ts *)
(* ===================================================================== *)

Inductive AlgorithmType : Type := BPE | WORDPIECE | UNIGRAM.

Global Instance AlgorithmType_eq_dec : EqDecision AlgorithmType.
Proof. solve_decision. Defined.

(** The optional fields [isStart] and [isEnd] are never set by the engine.
    The field [score] is declared a number; it holds what the engine
    computed or read from a lookup table, which need not be one. *)
Record TokenEdge : Type := {
  edge_id : jsstring;
  edge_from : nat;
  edge_to : nat;
  edge_label : jsstring;
  edge_score : value;
}.

Record FSTGraphData : Type := {
  nodes : list nat;
  edges : list TokenEdge;
  text : jsstring;
}.

Record TokenizerResult : Type := {
  graph : FSTGraphData;
  selectedPath : list jsstring;
  tokens : list jsstring;
}.

Record SnapshotEntry : Type := {
  snap_node : nat;
  snap_cost : number;
  snap_edgeId : option jsstring;
  snap_prev : Z;
}.

Record StepFrame : Type := {
  frame_id : jsstring;
  description : jsstring;
  candidates : list jsstring;
  chosen : option jsstring;
  partialPath : list jsstring;
  viterbiSnapshot : option (list SnapshotEntry);
}.

Record VocabItem : Type := {
  token : jsstring;
  score : number;
}.

(* ===================================================================== *)
(** * constants.ts *)
(* ===================================================================== *)

Definition vi (t : string) (s : Q) : VocabItem := {| token := js t; score := Fin s |}.

Definition FALLBACK_VOCAB : list VocabItem :=
  [ vi "t" 1; vi "th" 2; vi "the" 5; vi "a" 1; vi "an" 2; vi "un" 3; vi "in" 2;
    vi "inter" 4; vi "run" 3; vi "running" 6;
    vi "at" 1; vi "tre" 2; vi "re" 1; vi "r" (1#2); vi "ing" 4; vi "n" (1#2);
    vi "i" (1#2); vi "tion" 5; vi "national" 6; vi "ali" 3; vi "zation" 5;
    vi "is" 2; vi "on" 1; vi "count" 4; vi "er" 2; vi "intui" 4; vi "tive" 4;
    vi "happ" 3; vi "y" 1; vi "ness" 3; vi "est" 2; vi "low" 3; vi "new" 3;
    vi "neural" 5; vi "net" 3; vi "work" 3; vi "works" 4;
    vi "token" 5; vi "tokeni" 4; vi "tokeniz" 5; vi "tokenize" 6;
    vi "tokenizer" 7; vi "ize" 3; vi "izer" 4;
    vi "##ing" 4; vi "##tion" 5; vi "##er" 2; vi "##ness" 3; vi "##y" 1;
    vi "##s" 1 ].

(** [vocab.forEach((v, idx) => { tbl[v.token] = f(v, idx) })] *)
Definition fill_table (f : nat -> VocabItem -> number) (vocab : list VocabItem)
    (tbl : table) : table :=
  foldl (fun tbl '(idx, v) => Object_set tbl (token v) (f idx v)) tbl
    (imap pair vocab).

(** [xs.reduce((s, x) => s + x, 0) || 1] *)
Definition exp_sum (expScores : list number) : number :=
  Num.or_else (foldl Num.fadd (Fin 0) expScores) (Fin 1).

(** [tbl[v.token] = expScores[idx] / expSum] for every entry of the
    vocabulary. *)
Definition softmax_table (vocab : list VocabItem) (expScores : list number) : table :=
  let expSum := exp_sum expScores in
  fill_table (fun idx _ => Num.fdiv (default NaN (expScores !! idx)) expSum) vocab ∅.

(** [tbl[v.token] = idx] for every entry of the vocabulary. *)
Definition rank_table (vocab : list VocabItem) : table :=
  fill_table (fun idx _ => Num.of_nat idx) vocab ∅.

Section Constants.
Context `{HostMath}.

(** The fetch of [vocab.json] has not completed when the module body
    runs, so [VOCAB_DATA] is still empty there and [MOCK_VOCAB] is the
    array [FALLBACK_VOCAB]. *)
Definition UNIGRAM_PROBS : table :=
  softmax_table FALLBACK_VOCAB ((fun v => Math_exp (score v)) <$> FALLBACK_VOCAB).

(** [MOCK_VOCAB.sort((a, b) => b.score - a.score)] sorts the array in place:
    this is the order the engine sees. *)
Definition MOCK_VOCAB : list VocabItem :=
  Array_sort (fun a b => Num.sub (score b) (score a)) FALLBACK_VOCAB.

Definition BPE_RANKS : table := rank_table MOCK_VOCAB.
End Constants.

(* ===================================================================== *)
(** * tokenizerEngine.ts *)
(* ===================================================================== *)

(** ** Step 3.1: normalization *)

(** The character class of [/[\u0300-\u036f]/]. *)
Definition is_combining_mark (c : char) : bool :=
  ((0x0300 <=? c) && (c <=? 0x036f))%N.

(** The WhiteSpace and LineTerminator code units that [trim] removes. *)
Definition is_white_space (c : char) : bool :=
  ((c =? 0x09) || (c =? 0x0A) || (c =? 0x0B) || (c =? 0x0C) || (c =? 0x0D)
   || (c =? 0x20) || (c =? 0xA0) || (c =? 0x1680)
   || ((0x2000 <=? c) && (c <=? 0x200A))
   || (c =? 0x2028) || (c =? 0x2029) || (c =? 0x202F) || (c =? 0x205F)
   || (c =? 0x3000) || (c =? 0xFEFF))%N.

Fixpoint trimStart (s : jsstring) : jsstring :=
  match s with
  | c :: s' => if is_white_space c then trimStart s' else s
  | [] => []
  end.

Definition trim (s : jsstring) : jsstring := reverse (trimStart (reverse (trimStart s))).

(** [s.replace(/[\u0300-\u036f]/g, ...)] with the empty replacement. *)
Definition remove_accents (s : jsstring) : jsstring :=
  List.filter (fun c => negb (is_combining_mark c)) s.

Definition normalizeText `{HostString} (text : jsstring) : jsstring :=
  trim (remove_accents (String_normalize_NFD (String_toLowerCase text))).

(** ** Step 3.2: token matching (building the lattice) *)

Record Lattice : Type := {
  lattice_edges : list TokenEdge;
  lattice_nodes : list nat;
}.

Definition MAX_TOKEN_LENGTH : nat := 20.

(** [vocab.find(v => v.token === s)] *)
Definition find_token (vocab : list VocabItem) (s : jsstring) : option VocabItem :=
  List.find (fun v => bool_decide (token v = s)) vocab.

(** The vocabulary entry the inner loop matches against [substr] at start
    position [i], if any. *)
Definition match_token (vocab : list VocabItem) (algo : AlgorithmType) (i : nat)
    (substr : jsstring) : option VocabItem :=
  match find_token vocab substr with
  | Some m => Some m
  | None =>
      if bool_decide (algo = WORDPIECE) && bool_decide (0 < i)
      then find_token vocab (js "##" ++ substr)
      else None
  end.

Section Engine.
Context `{HostMath}.

(** The scoring tables: derived from the custom vocabulary when there is
    one; otherwise [Object.assign] copies the own properties of the module
    constants, which gives tables equal to them. *)
Definition scoring_tables (customVocab : option (list VocabItem)) : table * table :=
  match customVocab with
  | Some customVocab =>
      let expScores := (fun v => Math_exp (score v)) <$> customVocab in
      (softmax_table customVocab expScores, rank_table customVocab)
  | None => (UNIGRAM_PROBS, BPE_RANKS)
  end.

(** [v || 0.0001] for what a table yields: [undefined], [0] and [NaN] are
    falsy, an object is truthy. *)
Definition or_floor (v : option value) : value :=
  match v with
  | Some (VNumber p) => VNumber (Num.or_else p Num.floor_probability)
  | Some (VObject k) => VObject k
  | None => VNumber Num.floor_probability
  end.

(** The score of a matched edge: [-Math.log(unigramProbs[token] || 0.0001)],
    [bpeRanks[token] ?? 999], or [substr.length]. *)
Definition edge_score_of (algo : AlgorithmType) (unigramProbs bpeRanks : table)
    (m : VocabItem) (substr : jsstring) : value :=
  match algo with
  | UNIGRAM =>
      let prob := or_floor (Object_get unigramProbs (token m)) in
      VNumber (Num.neg (Math_log (ToNumber prob)))
  | BPE => default (VNumber (Fin 999)) (Object_get bpeRanks (token m))
  | WORDPIECE => VNumber (Num.of_nat (length substr))
  end.

Definition matched_edge (algo : AlgorithmType) (unigramProbs bpeRanks : table)
    (i j : nat) (m : VocabItem) (substr : jsstring) : TokenEdge :=
  {| edge_id := js "edge-" ++ String_of_nat i ++ js "-" ++ String_of_nat j
                  ++ js "-" ++ token m;
     edge_from := i;
     edge_to := j;
     edge_label := token m;
     edge_score := edge_score_of algo unigramProbs bpeRanks m substr |}.

Definition fallback_edge (text : jsstring) (i : nat) : TokenEdge :=
  let unknownChar := charAt text i in
  {| edge_id := js "edge-" ++ String_of_nat i ++ js "-" ++ String_of_nat (i + 1)
                  ++ js "-fallback-" ++ unknownChar;
     edge_from := i;
     edge_to := i + 1;
     edge_label := unknownChar;
     edge_score := VNumber (Fin 10) |}.

(** One iteration of the inner loop, on the state [(edges,
    hasMatchAtPosition)]. *)
Definition inner_step (text : jsstring) (algo : AlgorithmType)
    (vocab : list VocabItem) (unigramProbs bpeRanks : table) (i : nat)
    (st : list TokenEdge * bool) (j : nat) : list TokenEdge * bool :=
  let substr := substring text i j in
  match match_token vocab algo i substr with
  | None => st
  | Some m =>
      (st.1 ++ [matched_edge algo unigramProbs bpeRanks i j m substr], true)
  end.

(** One iteration of the outer loop. *)
Definition outer_step (text : jsstring) (algo : AlgorithmType)
    (vocab : list VocabItem) (unigramProbs bpeRanks : table)
    (edges : list TokenEdge) (i : nat) : list TokenEdge :=
  let n := length text in
  let maxJ := n `min` (i + MAX_TOKEN_LENGTH) in
  let st := foldl (inner_step text algo vocab unigramProbs bpeRanks i)
              (edges, false) (seq (i + 1) (maxJ - i)) in
  if st.2 then st.1 else st.1 ++ [fallback_edge text i].

Definition buildLattice (text : jsstring) (algo : AlgorithmType)
    (customVocab : option (list VocabItem)) : Lattice :=
  let n := length text in
  let vocab := default MOCK_VOCAB customVocab in
  let tables := scoring_tables customVocab in
  {| lattice_edges :=
       foldl (outer_step text algo vocab tables.1 tables.2) [] (seq 0 n);
     lattice_nodes := seq 0 (n + 1) |}.

(** ** Step 5: decoding *)

(** The comparator of the greedy decoders: [(b.to - b.from) - (a.to - a.from)]. *)
Definition span (e : TokenEdge) : Z := Z.of_nat (edge_to e) - Z.of_nat (edge_from e).
Definition by_span_desc (a b : TokenEdge) : number := Num.of_Z (span b - span a).

(** [greedyDecode]: the [while (current < length)] loop. *)
Fixpoint greedy_loop (fuel : nat) (edges : list TokenEdge) (length : nat)
    (current : nat) (path : list jsstring) : outcome (list jsstring) :=
  if bool_decide (current < length) then
    match fuel with
    | O => OutOfFuel
    | S fuel =>
        let candidates := filter (fun e => edge_from e = current) edges in
        match candidates with
        | [] => Done path
        | _ :: _ =>
            match Array_sort by_span_desc candidates with
            | best :: _ =>
                greedy_loop fuel edges length (edge_to best) (path ++ [edge_id best])
            | [] => TypeError
            end
        end
    end
  else Done path.

Definition greedyDecode (fuel : nat) (edges : list TokenEdge) (length : nat)
    : outcome (list jsstring) :=
  greedy_loop fuel edges length 0 [].

(** An entry of the [minCost] array of the Viterbi decoder. *)
Record CostEntry : Type := {
  cost : number;
  edgeId : option jsstring;
  prevNode : Z;
}.

Definition unreached : CostEntry :=
  {| cost := PInf; edgeId := None; prevNode := (-1)%Z |}.
Definition origin : CostEntry :=
  {| cost := Fin 0; edgeId := None; prevNode := (-1)%Z |}.

(** [Array(length + 1).fill(unreached)] with [minCost[0] = origin]. *)
Definition initial_costs (length : nat) : list CostEntry :=
  <[0 := origin]> (replicate (length + 1) unreached).

(** [cost + edge.score], as the comparison [newCost < ...] reads it, which
    alone decides whether it is stored: the rounded sum for a score that is
    a number; for a score that is an object the sum is a string that is no
    numeral, which compares as [NaN]. *)
Definition cost_plus (cost : number) (score : value) : number :=
  match score with
  | VNumber s => Num.cost_add cost s
  | VObject _ => NaN
  end.

(** The body of [for (const edge of outgoing)]. *)
Definition relax (i : nat) (minCost : list CostEntry) (edge : TokenEdge)
    : outcome (list CostEntry) :=
  match minCost !! i, minCost !! edge_to edge with
  | Some here, Some there =>
      let newCost := cost_plus (cost here) (edge_score edge) in
      if Num.ltb newCost (cost there)
      then Done (<[edge_to edge :=
                    {| cost := newCost; edgeId := Some (edge_id edge);
                       prevNode := Z.of_nat i |}]> minCost)
      else Done minCost
  | _, _ => TypeError
  end.

Definition relax_all (i : nat) (outgoing : list TokenEdge)
    (minCost : list CostEntry) : outcome (list CostEntry) :=
  foldl (fun acc edge => minCost ← acc; relax i minCost edge) (Done minCost) outgoing.

(** The body of [for (let i = 0; i < length; i++)]. *)
Definition visit (edges : list TokenEdge) (minCost : list CostEntry) (i : nat)
    : outcome (list CostEntry) :=
  match minCost !! i with
  | None => TypeError
  | Some here =>
      if Num.eqb (cost here) PInf then Done minCost
      else relax_all i (filter (fun e => edge_from e = i) edges) minCost
  end.

Definition forward_pass (edges : list TokenEdge) (length : nat)
    : outcome (list CostEntry) :=
  foldl (fun acc i => minCost ← acc; visit edges minCost i)
    (Done (initial_costs length)) (seq 0 length).

(** [!node.edgeId]: [null] and the empty string are falsy. *)
Definition no_edge (e : CostEntry) : bool :=
  match edgeId e with
  | None | Some [] => true
  | Some (_ :: _) => false
  end.

(** The backtracking loop [while (curr > 0)] of [viterbiDecode]. *)
Fixpoint backtrack (fuel : nat) (minCost : list CostEntry) (curr : Z)
    (path : list jsstring) : outcome (list jsstring) :=
  if bool_decide (0 < curr)%Z then
    match fuel with
    | O => OutOfFuel
    | S fuel =>
        match minCost !! Z.to_nat curr with
        | None => TypeError
        | Some node =>
            if no_edge node then Done path
            else backtrack fuel minCost (prevNode node)
                   (default [] (edgeId node) :: path)
        end
    end
  else Done path.

Definition viterbiDecode (fuel : nat) (edges : list TokenEdge) (length : nat)
    : outcome (list jsstring) :=
  minCost ← forward_pass edges length;
  backtrack fuel minCost (Z.of_nat length) [].

(** ** Main function *)

(** [edges.find(e => e.id === id)?.label || ''] *)
Definition label_of (edges : list TokenEdge) (id : jsstring) : jsstring :=
  match List.find (fun e => bool_decide (edge_id e = id)) edges with
  | Some e => edge_label e
  | None => []
  end.

(** [tokenize].  The loops of the decoders get as much fuel as the text is
    long: [tokenize_total] shows that it is never used up, and
    [greedy_loop_fuel] and [backtrack_fuel] that more fuel would change
    nothing. *)
Definition tokenize `{HostString} (inputText : jsstring) (algo : AlgorithmType)
    (normalize : bool) (customVocab : option (list VocabItem))
    : outcome TokenizerResult :=
  let processedText := if normalize then normalizeText inputText else inputText in
  let lattice := buildLattice processedText algo customVocab in
  let edges := lattice_edges lattice in
  let fuel := length processedText in
  selectedPath ←
    (if bool_decide (algo = UNIGRAM)
     then viterbiDecode fuel edges (length processedText)
     else greedyDecode fuel edges (length processedText));
  let tokens := label_of edges <$> selectedPath in
  Done {| graph := {| nodes := lattice_nodes lattice; edges := edges;
                      text := processedText |};
          selectedPath := selectedPath;
          tokens := tokens |}.

(** ** Tracing *)

(** [minCost.map((m, idx) => ({ node: idx, cost: m.cost, edgeId: m.edgeId,
    prev: m.prevNode }))] *)
Definition snapshot (minCost : list CostEntry) : list SnapshotEntry :=
  imap (fun idx m => {| snap_node := idx; snap_cost := cost m;
                        snap_edgeId := edgeId m; snap_prev := prevNode m |})
    minCost.

(** The traced body of [for (const edge of outgoing)], on the state
    [(minCost, frames)]. *)
Definition relax_traced (i : nat) (st : list CostEntry * list StepFrame)
    (edge : TokenEdge) : outcome (list CostEntry * list StepFrame) :=
  let '(minCost, frames) := st in
  match minCost !! i, minCost !! edge_to edge with
  | Some here, Some there =>
      let newCost := cost_plus (cost here) (edge_score edge) in
      if Num.ltb newCost (cost there)
      then
        let minCost' :=
          <[edge_to edge :=
              {| cost := newCost; edgeId := Some (edge_id edge);
                 prevNode := Z.of_nat i |}]> minCost in
        Done (minCost',
              frames ++
              [{| frame_id := js "frame-update-" ++ String_of_nat i ++ js "-"
                                ++ String_of_nat (edge_to edge);
                  description := js "Update cost for node "
                                ++ String_of_nat (edge_to edge) ++ js " via "
                                ++ edge_id edge;
                  candidates := [edge_id edge];
                  chosen := Some (edge_id edge);
                  partialPath := [];
                  viterbiSnapshot := Some (snapshot minCost') |}])
      else Done st
  | _, _ => TypeError
  end.

Definition visit_traced (edges : list TokenEdge)
    (st : list CostEntry * list StepFrame) (i : nat)
    : outcome (list CostEntry * list StepFrame) :=
  let '(minCost, frames) := st in
  match minCost !! i with
  | None => TypeError
  | Some here =>
      if Num.eqb (cost here) PInf then Done st
      else
        let outgoing := filter (fun e => edge_from e = i) edges in
        let frames' :=
          frames ++
          [{| frame_id := js "frame-consider-" ++ String_of_nat i;
              description := js "Considering outgoing edges from node "
                              ++ String_of_nat i;
              candidates := edge_id <$> outgoing;
              chosen := None;
              partialPath := [];
              viterbiSnapshot := Some (snapshot minCost) |}] in
        foldl (fun acc edge => st ← acc; relax_traced i st edge)
          (Done (minCost, frames')) outgoing
  end.

Definition forward_pass_traced (edges : list TokenEdge) (length : nat)
    : outcome (list CostEntry * list StepFrame) :=
  foldl (fun acc i => st ← acc; visit_traced edges st i)
    (Done (initial_costs length, [])) (seq 0 length).

(** The traced backtracking loop: [if (!node || !node.edgeId) break]. *)
Fixpoint backtrack_traced (fuel : nat) (minCost : list CostEntry) (curr : Z)
    (path : list jsstring) (frames : list StepFrame)
    : outcome (list jsstring * list StepFrame) :=
  if bool_decide (0 < curr)%Z then
    match fuel with
    | O => OutOfFuel
    | S fuel =>
        match minCost !! Z.to_nat curr with
        | None => Done (path, frames)
        | Some node =>
            if no_edge node then Done (path, frames)
            else
              let chosenId := default [] (edgeId node) in
              let path' := chosenId :: path in
              let curr' := prevNode node in
              backtrack_traced fuel minCost curr' path'
                (frames ++
                 [{| frame_id := js "frame-backtrack-" ++ String_of_Z curr';
                     description := js "Backtracking chose " ++ chosenId;
                     candidates := [];
                     chosen := Some chosenId;
                     partialPath := path';
                     viterbiSnapshot := Some (snapshot minCost) |}])
        end
    end
  else Done (path, frames).

(** The traced greedy loop. *)
Fixpoint greedy_loop_traced (fuel : nat) (edges : list TokenEdge) (length : nat)
    (current : nat) (path : list jsstring) (frames : list StepFrame)
    : outcome (list jsstring * list StepFrame) :=
  if bool_decide (current < length) then
    match fuel with
    | O => OutOfFuel
    | S fuel =>
        let candidates := filter (fun e => edge_from e = current) edges in
        let frames1 :=
          frames ++
          [{| frame_id := js "frame-consider-" ++ String_of_nat current;
              description := js "Considering tokens at index "
                              ++ String_of_nat current;
              candidates := edge_id <$> candidates;
              chosen := None;
              partialPath := path;
              viterbiSnapshot := None |}] in
        match candidates with
        | [] => Done (path, frames1)
        | _ :: _ =>
            let sorted := Array_sort by_span_desc candidates in
            match sorted with
            | best :: _ =>
                let path' := path ++ [edge_id best] in
                greedy_loop_traced fuel edges length (edge_to best) path'
                  (frames1 ++
                   [{| frame_id := js "frame-choose-" ++ edge_id best;
                       description := js "Chose " ++ edge_label best ++ js " ("
                                       ++ edge_id best ++ js ")";
                       candidates := edge_id <$> sorted;
                       chosen := Some (edge_id best);
                       partialPath := path';
                       viterbiSnapshot := None |}])
            | [] => TypeError
            end
        end
    end
  else Done (path, frames).

Definition tokenizeWithTrace `{HostString} (inputText : jsstring)
    (algo : AlgorithmType) (normalize : bool)
    (customVocab : option (list VocabItem))
    : outcome (TokenizerResult * list StepFrame) :=
  let processedText := if normalize then normalizeText inputText else inputText in
  let lattice := buildLattice processedText algo customVocab in
  let edges := lattice_edges lattice in
  let fuel := length processedText in
  let graph := {| nodes := lattice_nodes lattice; edges := edges;
                  text := processedText |} in
  if bool_decide (algo = UNIGRAM) then
    st ← forward_pass_traced edges (length processedText);
    pf ← backtrack_traced fuel st.1 (Z.of_nat (length processedText)) [] st.2;
    Done ({| graph := graph; selectedPath := pf.1;
             tokens := label_of edges <$> pf.1 |}, pf.2)
  else
    pf ← greedy_loop_traced fuel edges (length processedText) 0 [] [];
    Done ({| graph := graph; selectedPath := pf.1;
             tokens := label_of edges <$> pf.1 |}, pf.2).
End Engine.

(* ===================================================================== *)
(** * Host models *)
(* ===================================================================== *)

(** ** A fragment of Unicode

    The host's [toLowerCase] and [normalize("NFD")] on the code points of
    Basic Latin and Latin-1 Supplement (U+0000..U+00FF), the combining marks
    their canonical decompositions use (U+0300, U+0301, U+0302, U+0303,
    U+0308, U+030A, U+0327), the combining grapheme joiner U+034F, and the
    Hebrew letter U+05DC with the points U+05B4 and U+05B7.  The tables
    follow the Unicode Character Database (case mappings, canonical
    decomposition mappings, canonical combining classes).  Code units
    outside the fragment are left alone: the model says nothing about
    them. *)

(** Simple lowercase mapping. *)
Definition lower_unit (c : char) : char :=
  if ((0x41 <=? c) && (c <=? 0x5A))%N then (c + 0x20)%N
  else if ((0xC0 <=? c) && (c <=? 0xDE) && negb (c =? 0xD7))%N then (c + 0x20)%N
  else c.

(** Canonical decomposition of the accented letters of Latin-1: the base
    letter and its combining mark. *)
Definition decompose_unit (c : char) : list char :=
  let grave := 0x300%N in let acute := 0x301%N in let circumflex := 0x302%N in
  let tilde := 0x303%N in let diaeresis := 0x308%N in let ring := 0x30A%N in
  let cedilla := 0x327%N in
  let accented (base : N) (first : N) (marks : list N) : option (list char) :=
    (fun m => [base; m]) <$> marks !! N.to_nat (c - first) in
  let upper :=
    if ((0xC0 <=? c) && (c <=? 0xC5))%N
    then accented 0x41%N 0xC0%N [grave; acute; circumflex; tilde; diaeresis; ring]
    else if (c =? 0xC7)%N then Some [0x43%N; cedilla]
    else if ((0xC8 <=? c) && (c <=? 0xCB))%N
    then accented 0x45%N 0xC8%N [grave; acute; circumflex; diaeresis]
    else if ((0xCC <=? c) && (c <=? 0xCF))%N
    then accented 0x49%N 0xCC%N [grave; acute; circumflex; diaeresis]
    else if (c =? 0xD1)%N then Some [0x4E%N; tilde]
    else if ((0xD2 <=? c) && (c <=? 0xD6))%N
    then accented 0x4F%N 0xD2%N [grave; acute; circumflex; tilde; diaeresis]
    else if ((0xD9 <=? c) && (c <=? 0xDC))%N
    then accented 0x55%N 0xD9%N [grave; acute; circumflex; diaeresis]
    else if (c =? 0xDD)%N then Some [0x59%N; acute]
    else None in
  let lower :=
    if ((0xE0 <=? c) && (c <=? 0xE5))%N
    then accented 0x61%N 0xE0%N [grave; acute; circumflex; tilde; diaeresis; ring]
    else if (c =? 0xE7)%N then Some [0x63%N; cedilla]
    else if ((0xE8 <=? c) && (c <=? 0xEB))%N
    then accented 0x65%N 0xE8%N [grave; acute; circumflex; diaeresis]
    else if ((0xEC <=? c) && (c <=? 0xEF))%N
    then accented 0x69%N 0xEC%N [grave; acute; circumflex; diaeresis]
    else if (c =? 0xF1)%N then Some [0x6E%N; tilde]
    else if ((0xF2 <=? c) && (c <=? 0xF6))%N
    then accented 0x6F%N 0xF2%N [grave; acute; circumflex; tilde; diaeresis]
    else if ((0xF9 <=? c) && (c <=? 0xFC))%N
    then accented 0x75%N 0xF9%N [grave; acute; circumflex; diaeresis]
    else if (c =? 0xFD)%N then Some [0x79%N; acute]
    else if (c =? 0xFF)%N then Some [0x79%N; diaeresis]
    else None in
  match upper, lower with
  | Some d, _ | None, Some d => d
  | None, None => [c]
  end.

(** Canonical combining class. *)
Definition combining_class (c : char) : N :=
  if ((c =? 0x300) || (c =? 0x301) || (c =? 0x302) || (c =? 0x303)
      || (c =? 0x308) || (c =? 0x30A))%N then 230%N
  else if (c =? 0x327)%N then 202%N
  else if (c =? 0x5B4)%N then 14%N
  else if (c =? 0x5B7)%N then 17%N
  else 0%N.

(** The canonical ordering algorithm: a combining mark moves in front of
    the marks of higher class that precede it, and never across a starter
    (a character of class 0).  [acc] is the text so far, in reverse. *)
Fixpoint place_mark (c : char) (acc : list char) : list char :=
  match acc with
  | p :: rest =>
      if (negb (combining_class c =? 0) && (combining_class c <? combining_class p))%N
      then p :: place_mark c rest
      else c :: acc
  | [] => [c]
  end.

Definition canonical_order (s : jsstring) : jsstring :=
  reverse (foldl (fun acc c => place_mark c acc) [] s).

Definition unicode_fragment : HostString := {|
  String_toLowerCase := fun s => lower_unit <$> s;
  String_normalize_NFD := fun s => canonical_order (s ≫= decompose_unit);
|}.

(** ** [Math] at the arguments of the worked examples

    [Math.exp] and [Math.log] as the language prescribes them at [NaN], at
    the infinities, at 0 and 1 and at the negative arguments of [log]; and
    at the few other arguments the worked examples use, where the value is
    the binary64 number nearest to the exact exponential or logarithm.
    Every other argument is outside this model, which answers [NaN] there:
    no worked example reaches one. *)

(** [exp(2.5)] and [exp(-0.1425939301613903)]. *)
Definition exp_entries : list (Q * Q) :=
  [ (5 # 2, 6858134407733435 # 562949953421312);
    (-5137487765921055 # 36028797018963968, 7810197445180069 # 9007199254740992) ].

(** [ln(0.07117640327569495)], [ln(0.8671061030507486)] and
    [ln(0.06171749367355639)]. *)
Definition log_entries : list (Q * Q) :=
  [ (5128800372319871 # 72057594037927936, -2975296259791593 # 1125899906842624);
    (7810197445180069 # 9007199254740992, -5137487765921055 # 36028797018963968);
    (555901763020939 # 9007199254740992, -1567921376238313 # 562949953421312) ].

Definition tabulated (entries : list (Q * Q)) (x : Q) : number :=
  match List.find (fun kv => Qeq_bool kv.1 x) entries with
  | Some kv => Fin kv.2
  | None => NaN
  end.

Definition tabled_math : HostMath := {|
  Math_exp := fun a =>
    match a with
    | NaN => NaN
    | PInf => PInf
    | NInf => Fin 0
    | Fin x => if Qeq_bool x 0 then Fin 1 else tabulated exp_entries x
    end;
  Math_log := fun a =>
    match a with
    | NaN | NInf => NaN
    | PInf => PInf
    | Fin x =>
        if Num.Qltb x 0 then NaN
        else if Qeq_bool x 0 then NInf
        else if Qeq_bool x 1 then Fin 0
        else tabulated log_entries x
    end;
|}.

(** ** A stand-in for [Math]

    Used where a statement has to be instantiated at some host: [exp] is
    constantly 1 and [log] constantly 0, which respects the signs the
    theorems ask of a host. *)
Definition flat_math : HostMath := {|
  Math_exp := fun _ => Fin 1;
  Math_log := fun _ => Fin 0;
|}.

(* ===================================================================== *)
(** * Vocabulary of the specification *)
(* ===================================================================== *)

(** The edges [buildLattice] emits while its outer loop is at position [i]:
    one per end position with a match, and the fallback edge when there is
    none. *)
Section LatticeShape.
Context `{HostMath}.
Variables (text : jsstring) (algo : AlgorithmType) (vocab : list VocabItem)
          (unigramProbs bpeRanks : table).

Definition match_at (i j : nat) : option TokenEdge :=
  let substr := substring text i j in
  (fun m => matched_edge algo unigramProbs bpeRanks i j m substr)
    <$> match_token vocab algo i substr.

Definition end_positions (i : nat) : list nat :=
  seq (i + 1) ((length text `min` (i + MAX_TOKEN_LENGTH)) - i).

Definition matches_from (i : nat) : list TokenEdge :=
  omap (match_at i) (end_positions i).

Definition position_edges (i : nat) : list TokenEdge :=
  match matches_from i with
  | [] => [fallback_edge text i]
  | ms => ms
  end.
End LatticeShape.

(** A walk in the lattice: consecutive edges chain. *)
Inductive walk (E : list TokenEdge) : nat -> nat -> list TokenEdge -> Prop :=
| walk_nil a : walk E a a []
| walk_cons e es b :
    e ∈ E -> walk E (edge_to e) b es -> walk E (edge_from e) b (e :: es).

(** The edges a result selects: its path identifiers, looked up in its graph
    the way [tokenize] looks up the labels. *)
Definition selected_edges (r : TokenizerResult) : list TokenEdge :=
  omap (fun id => List.find (fun e => bool_decide (edge_id e = id)) (edges (graph r)))
    (selectedPath r).

(** The text positions an edge spans, [from, to). *)
Definition span_positions (e : TokenEdge) : list nat :=
  seq (edge_from e) (edge_to e - edge_from e).

(** The cost of a path as the decoder sums it: from the first edge on,
    every sum rounded. *)
Definition path_cost (es : list TokenEdge) : number :=
  foldl (fun c e => cost_plus c (edge_score e)) (Fin 0) es.

(** The summed edge score of a path in the words of the specification:
    the exact sum of the scores. *)
Definition summed_score (es : list TokenEdge) : number :=
  foldl (fun c e => Num.add c (ToNumber (edge_score e))) (Fin 0) es.

(** The first edge of largest span among [l], if any. *)
Fixpoint first_longest (l : list TokenEdge) : option TokenEdge :=
  match l with
  | [] => None
  | e :: l' =>
      match first_longest l' with
      | Some e' => if bool_decide (span e < span e')%Z then Some e' else Some e
      | None => Some e
      end
  end.

(** The last entry of a vocabulary that carries the token [t], with its
    index: the one whose table entries survive. *)
Definition last_entry (vocab : list VocabItem) (t : jsstring)
    : option (nat * VocabItem) :=
  last (filter (fun iv => token iv.2 = t) (imap pair vocab)).

(** The rank table in the words of the specification: the vocabulary sorted
    by descending raw score, and the rank of a token its zero-based
    position in that order; the rank-greedy score is that rank, or 999. *)
Definition descending_rank (vocab : list VocabItem) (t : jsstring) : option nat :=
  fst <$> list_find (fun v => token v = t)
            (Array_sort (fun a b => Num.sub (score b) (score a)) vocab).

Definition claimed_bpe_score (vocab : list VocabItem) (t : jsstring) : number :=
  match descending_rank vocab t with
  | Some r => Num.of_nat r
  | None => Fin 999
  end.

(** A vocabulary in descending order of score, the order in which the
    vocabulary loaders of the repository return theirs: [b.score - a.score]
    is not positive for an entry [a] directly followed by [b]. *)
Definition descending (vocab : list VocabItem) : Prop :=
  forall i a b, vocab !! i = Some a -> vocab !! S i = Some b ->
    Num.ltb (Fin 0) (Num.sub (score b) (score a)) = false.

(** Replaying a frame list: the path accumulated by its last frame. *)
Definition replay (frames : list StepFrame) : list jsstring :=
  match last frames with
  | Some f => partialPath f
  | None => []
  end.

(** A vocabulary entry matches the substring [s] that starts at position
    [i]: it equals [s], or, in WordPiece mode away from the start of the
    text, the continuation form of [s]. *)
Definition token_matches (vocab : list VocabItem) (algo : AlgorithmType)
    (i : nat) (s : jsstring) : Prop :=
  exists v, v ∈ vocab /\
    (token v = s \/ (algo = WORDPIECE /\ 0 < i /\ token v = js "##" ++ s)).

(** What the decoders rely on: edges move forward inside the text, every
    position has an outgoing edge, and identifiers name one edge each. *)
Record lattice_ok (E : list TokenEdge) (n : nat) : Prop := {
  ok_forward : forall e, e ∈ E -> edge_from e < edge_to e <= n;
  ok_outgoing : forall i, i < n -> exists e, e ∈ E /\ edge_from e = i;
  ok_ids : forall e e', e ∈ E -> e' ∈ E -> edge_id e = edge_id e' -> e = e';
  ok_id_nonempty : forall e, e ∈ E -> edge_id e <> [];
}.

(** A cost a path can have: a rational or [-Infinity]. *)
Definition is_cost (c : number) : Prop :=
  match c with Fin _ | NInf => True | PInf | NaN => False end.

(** The invariant of the [minCost] array of the Viterbi decoder while the
    outer loop is at node [i]: an entry is still unreached, or it records an
    edge into its node from a node not after [i], and the cost of that node
    plus the score of the edge. *)
Record costs_inv (E : list TokenEdge) (n i : nat) (mc : list CostEntry) : Prop := {
  inv_length : length mc = n + 1;
  inv_origin : mc !! 0 = Some origin;
  inv_entry : forall k ent, mc !! k = Some ent -> 0 < k ->
    ent = unreached \/
    exists e src, e ∈ E /\ edge_from e <= i /\ edge_to e = k /\
      mc !! edge_from e = Some src /\
      ent = {| cost := cost_plus (cost src) (edge_score e);
               edgeId := Some (edge_id e);
               prevNode := Z.of_nat (edge_from e) |};
}.

(** The edges relaxed so far, while the inner loop at node [i] has gone
    through the edges [done]. *)
Definition relaxed (i : nat) (done : list TokenEdge) (e : TokenEdge) : Prop :=
  edge_from e < i \/ (edge_from e = i /\ e ∈ done).

(** Every entry is unreached or holds a cost. *)
Definition costs_nice (mc : list CostEntry) : Prop :=
  forall k ent, mc !! k = Some ent -> ent = unreached \/ is_cost (cost ent).

(** No path of relaxed edges from node 0 has a cost below the entry of its
    end node, unless its cost is no number. *)
Definition costs_opt (E : list TokenEdge) (R : TokenEdge -> Prop)
    (mc : list CostEntry) : Prop :=
  forall k p, walk E 0 k p -> Forall R p ->
    exists ent, mc !! k = Some ent /\
      (path_cost p = NaN \/ Num.le (cost ent) (path_cost p)).

(** What the host guarantees about [Math.exp] and [Math.log]: an exponential
    is never negative, and the logarithm of a positive number is a number
    other than [-Infinity]. *)
Definition exp_not_negative `{HostMath} : Prop :=
  forall x, Math_exp x = NaN \/ Num.le (Fin 0) (Math_exp x).
Definition log_of_positive `{HostMath} : Prop :=
  forall x, Num.ltb (Fin 0) x = true -> Math_log x <> NaN /\ Math_log x <> NInf.


(** A vocabulary without the token [__proto__], the one key a lookup
    table cannot hold; with no vocabulary passed, the default vocabulary
    is one. *)
Definition proto_free (customVocab : option (list VocabItem)) : Prop :=
  js "__proto__" ∉ token <$> default FALLBACK_VOCAB customVocab.

(** The shape all edge identifiers have: [edge-{from}-{to}-...]. *)
Definition edge_id_prefix (i j : nat) (rest : jsstring) : jsstring :=
  js "edge-" ++ String_of_nat i ++ js "-" ++ String_of_nat j ++ js "-" ++ rest.

(** The edge the greedy decoder takes at the start node of [e] is [e]. *)
Definition greedy_choice (E : list TokenEdge) (e : TokenEdge) : Prop :=
  first_longest (filter (fun e' => edge_from e' = edge_from e) E) = Some e.

(** The frames of the forward pass carry no partial path. *)
Definition no_partial_path (st : list CostEntry * list StepFrame) : Prop :=
  Forall (fun f => partialPath f = []) st.2.

(** A probability as the score deriver computes it: not negative, or [NaN]. *)
Definition nonneg_or_nan (p : number) : Prop := p = NaN \/ Num.le (Fin 0) p.

(** A string that does not start with white space. *)
Definition starts_tight (s : jsstring) : Prop :=
  match s with
  | c :: _ => is_white_space c = false
  | [] => True
  end.

(* ===================================================================== *)
(** * Further vocabulary of the properties of the engine *)
(* ===================================================================== *)

(** The order in which [buildLattice] emits its edges: by start node, and
    for one start node by end node. *)
Definition edge_before (e e' : TokenEdge) : Prop :=
  edge_from e < edge_from e' \/
  (edge_from e = edge_from e' /\ edge_to e < edge_to e').

(** [s.startsWith(p)] *)
Definition startsWith (s p : jsstring) : bool :=
  bool_decide (take (length p) s = p).

(** The text an edge spans. *)
Definition spanned (text : jsstring) (e : TokenEdge) : jsstring :=
  substring text (edge_from e) (edge_to e).

(** An edge without its score. *)
Definition unscored (e : TokenEdge) : jsstring * nat * nat * jsstring :=
  (edge_id e, edge_from e, edge_to e, edge_label e).

(** Playback of a greedy trace over the edges [E] of the lattice: the
    frames come in pairs, one pair per selected edge and in the order of
    the path.  The first frame of the pair of an edge considers the edges
    that leave the start node of the edge: its candidates are their
    identifiers, all of them, in lattice order, and its path is the path so
    far.  The second chooses the edge: its candidates are the same
    identifiers in the order of the sort by descending span, the chosen
    edge first, and its path is the path extended by the edge.  No frame
    carries a cost snapshot. *)
Definition greedy_playback (E es : list TokenEdge) (frames : list StepFrame) : Prop :=
  length frames = 2 * length es /\
  forall k e, es !! k = Some e ->
    let outgoing := filter (fun e' => edge_from e' = edge_from e) E in
    exists f g, frames !! (2 * k) = Some f /\ frames !! (2 * k + 1) = Some g /\
      candidates f = edge_id <$> outgoing /\ chosen f = None /\
      partialPath f = edge_id <$> take k es /\ viterbiSnapshot f = None /\
      candidates g = edge_id <$> Array_sort by_span_desc outgoing /\
      head (candidates g) = Some (edge_id e) /\ chosen g = Some (edge_id e) /\
      partialPath g = edge_id <$> take (S k) es /\ viterbiSnapshot g = None.

(* ===================================================================== *)
(** * validationRunner.ts *)
(* ===================================================================== *)

(** The validation types of [types.ts]. *)
Record ValidationCase : Type := {
  case_id : jsstring;
  input : jsstring;
  goldTokens : list jsstring;
  goldBoundaries : list (nat * nat);
  goldNormalized : option jsstring;
  goldDetokenized : option jsstring;
}.

Record ValidationMetrics : Type := {
  tokenAccuracy : number;
  boundaryAccuracy : number;
  normalizationAccuracy : number;
  unknownTokenRate : number;
  roundTripConsistency : number;
  avgFSTBacktracks : number;
}.

Inductive ValidationStatus : Type := Pass | Fail | NeedsWork.

(** [keyof ValidationMetrics] *)
Inductive MetricKey : Type :=
| key_tokenAccuracy
| key_boundaryAccuracy
| key_normalizationAccuracy
| key_unknownTokenRate
| key_roundTripConsistency
| key_avgFSTBacktracks.

(** [a <= b] on numbers (and [b >= a]): false when either is [NaN]. *)
Definition number_leb (a b : number) : bool := Num.ltb a b || Num.eqb a b.

(** [s.indexOf(pat, pos)], with [None] for [-1]: the first index not before
    [pos] (clamped to the length) at which [pat] occurs. *)
Fixpoint indexOf_from (s pat : jsstring) (k : nat) : option nat :=
  if startsWith s pat then Some k
  else match s with
       | [] => None
       | _ :: s' => indexOf_from s' pat (S k)
       end.

Definition String_indexOf (s pat : jsstring) (pos : nat) : option nat :=
  let p := pos `min` length s in
  indexOf_from (drop p s) pat p.

(** [/[^\x00-\x7F]/.test(t)] *)
Definition has_non_ascii (t : jsstring) : bool :=
  existsb (fun c => (0x7F <? c)%N) t.

(** [s.replace(/\s+/g, ' ')]: every maximal run of white space becomes one
    space; [in_run] tells that the character before was white space. *)
Fixpoint collapse_white_space (in_run : bool) (s : jsstring) : jsstring :=
  match s with
  | [] => []
  | c :: s' =>
      if is_white_space c
      then (if in_run then [] else [0x20%N]) ++ collapse_white_space true s'
      else c :: collapse_white_space false s'
  end.

Definition getVocab (customVocab : option (list VocabItem)) : list VocabItem :=
  match customVocab with
  | Some (v :: vocab) => v :: vocab
  | Some [] | None => MOCK_VOCAB
  end.

Definition isUnknownToken (label : jsstring) (_vocab : list VocabItem) : bool :=
  bool_decide (label = js "[UNK]") || startsWith label (js "[UNK:").

(** The body of [tokens.forEach((tok, idx) => ...)] in [detokenize], on the
    string [out] built so far; [0x120] is the RoBERTa space marker. *)
Definition detokenize_step (out : jsstring) (idx : nat) (tok : jsstring) : jsstring :=
  if startsWith tok (js "##") then out ++ drop 2 tok
  else if startsWith tok [0x120%N] then
    (if bool_decide (0 < length out) then out ++ js " " else out) ++ drop 1 tok
  else (if bool_decide (0 < idx) then out ++ js " " else out) ++ tok.

Definition detokenize (tokens : list jsstring) : jsstring :=
  trim (foldl (fun out '(idx, tok) => detokenize_step out idx tok) []
          (imap pair tokens)).

Definition is_update_frame (f : StepFrame) : bool :=
  startsWith (frame_id f) (js "frame-update-").

Definition computeBacktracks (algo : AlgorithmType) (frames : list StepFrame) : nat :=
  if bool_decide (algo = UNIGRAM)
  then length (List.filter is_update_frame frames)
  else 0.

Definition statusForMetric (metric : MetricKey) (value : number) : ValidationStatus :=
  match metric with
  | key_tokenAccuracy | key_boundaryAccuracy | key_normalizationAccuracy
  | key_roundTripConsistency =>
      if number_leb (Fin (9 # 10)) value then Pass
      else if number_leb (Fin (8 # 10)) value then NeedsWork
      else Fail
  | key_unknownTokenRate =>
      if number_leb value (Fin (2 # 100)) then Pass
      else if number_leb value (Fin (5 # 100)) then NeedsWork
      else Fail
  | key_avgFSTBacktracks =>
      if number_leb value (Fin 5) then Pass
      else if number_leb value (Fin 10) then NeedsWork
      else Fail
  end.

(** The counters [runValidation] accumulates over the cases. *)
Record Tally : Type := {
  totalGoldTokens : nat;
  matchingTokens : nat;
  totalGoldBoundaries : nat;
  matchingBoundaries : nat;
  normalizationCorrect : nat;
  totalTokens : nat;
  unknownTokens : nat;
  roundTripCorrect : nat;
  totalBacktracks : nat;
}.

Definition no_tally : Tally :=
  {| totalGoldTokens := 0; matchingTokens := 0; totalGoldBoundaries := 0;
     matchingBoundaries := 0; normalizationCorrect := 0; totalTokens := 0;
     unknownTokens := 0; roundTripCorrect := 0; totalBacktracks := 0 |}.

(** [for (let i = 0; i < bound; i++) { if (test(i)) counter++ }] *)
Definition count_up (test : nat -> bool) (bound : nat) (counter : nat) : nat :=
  foldl (fun counter i => if test i then S counter else counter) counter (seq 0 bound).

(** [gold[i] && hyp[i] && gold[i] === hyp[i]]: an index past the end reads
    [undefined], and the empty string is falsy. *)
Definition tokens_match (gold hyp : list jsstring) (i : nat) : bool :=
  match gold !! i, hyp !! i with
  | Some g, Some h => negb (bool_decide (g = [])) && negb (bool_decide (h = []))
                      && bool_decide (g = h)
  | _, _ => false
  end.

(** The body of [for (const tok of c.goldTokens)], on the state
    [(goldBounds, cursor)]. *)
Definition gold_bounds_step (processedText : jsstring)
    (st : list (nat * nat) * nat) (tok : jsstring) : list (nat * nat) * nat :=
  match String_indexOf processedText tok st.2 with
  | None => st
  | Some start =>
      let end_ := start + length tok in
      (st.1 ++ [(start, end_)], end_)
  end.

Definition gold_bounds (processedText : jsstring) (goldTokens : list jsstring)
    : list (nat * nat) :=
  (foldl (gold_bounds_step processedText) ([], 0) goldTokens).1.

(** [e && e.from === g.start && e.to === g.end] for [g = goldBounds[i]] and
    [e = selectedEdges[i]]. *)
Definition bounds_match (goldBounds : list (nat * nat))
    (selectedEdges : list TokenEdge) (i : nat) : bool :=
  match goldBounds !! i, selectedEdges !! i with
  | Some g, Some e => bool_decide (edge_from e = g.1) && bool_decide (edge_to e = g.2)
  | _, _ => false
  end.

(** The body of [for (const t of hypTokens)], on the state [(totalTokens,
    unknownTokens)]. *)
Definition unknown_step (vocab : list VocabItem) (st : nat * nat) (t : jsstring)
    : nat * nat :=
  if has_non_ascii t then st
  else (S st.1, if isUnknownToken t vocab then S st.2 else st.2).

(** [s.replace(/\s+/g, ' ').trim()] *)
Definition squeeze (s : jsstring) : jsstring := trim (collapse_white_space false s).

Section Validation.
Context `{HostMath} `{HostString}.

(** The body of [for (const c of cases)]. *)
Definition score_case (vocab : list VocabItem) (algo : AlgorithmType)
    (normalize : bool) (customVocab : option (list VocabItem))
    (t : Tally) (c : ValidationCase) : outcome Tally :=
  traced ← tokenizeWithTrace (input c) algo normalize customVocab;
  let result := traced.1 in
  let frames := traced.2 in
  let processedText := text (graph result) in
  let hypTokens := tokens result in
  let maxLen := length (goldTokens c) `max` length hypTokens in
  let goldBounds := gold_bounds processedText (goldTokens c) in
  let selectedEdges := selected_edges result in
  let expectedNorm := default processedText (goldNormalized c) in
  let unknown := foldl (unknown_step vocab) (totalTokens t, unknownTokens t) hypTokens in
  let goldDetok := default (detokenize (goldTokens c)) (goldDetokenized c) in
  let hypDetok := detokenize hypTokens in
  Done {|
    totalGoldTokens := totalGoldTokens t + length (goldTokens c);
    matchingTokens :=
      count_up (tokens_match (goldTokens c) hypTokens) maxLen (matchingTokens t);
    totalGoldBoundaries := totalGoldBoundaries t + length goldBounds;
    matchingBoundaries :=
      count_up (bounds_match goldBounds selectedEdges) (length goldBounds)
        (matchingBoundaries t);
    normalizationCorrect :=
      if bool_decide (processedText = expectedNorm)
      then S (normalizationCorrect t) else normalizationCorrect t;
    totalTokens := unknown.1;
    unknownTokens := unknown.2;
    roundTripCorrect :=
      if bool_decide (squeeze goldDetok = squeeze hypDetok)
      then S (roundTripCorrect t) else roundTripCorrect t;
    totalBacktracks := totalBacktracks t + computeBacktracks algo frames;
  |}.

(** [total ? part / total : 0] *)
Definition ratio (part total : nat) : number :=
  if bool_decide (total = 0) then Fin 0
  else Num.div (Num.of_nat part) (Num.of_nat total).

Definition metrics_of (totalCases : nat) (t : Tally) : ValidationMetrics :=
  {| tokenAccuracy := ratio (matchingTokens t) (totalGoldTokens t);
     boundaryAccuracy := ratio (matchingBoundaries t) (totalGoldBoundaries t);
     normalizationAccuracy := ratio (normalizationCorrect t) totalCases;
     unknownTokenRate := ratio (unknownTokens t) (totalTokens t);
     roundTripConsistency := ratio (roundTripCorrect t) totalCases;
     avgFSTBacktracks := ratio (totalBacktracks t) totalCases |}.

(** [runValidation]: the metrics it returns.  The rows it returns beside
    them repeat each metric as a formatted string ([value], which depends on
    the rounding of floating-point products and is not modelled) with the
    status [statusForMetric] gives it, in the order of [row_statuses]. *)
Definition runValidation (cases : list ValidationCase) (algo : AlgorithmType)
    (normalize : bool) (customVocab : option (list VocabItem))
    : outcome ValidationMetrics :=
  let vocab := getVocab customVocab in
  t ← foldl (fun acc c => t ← acc; score_case vocab algo normalize customVocab t c)
        (Done no_tally) cases;
  Done (metrics_of (length cases) t).

End Validation.

Definition row_statuses (m : ValidationMetrics) : list ValidationStatus :=
  [ statusForMetric key_tokenAccuracy (tokenAccuracy m);
    statusForMetric key_boundaryAccuracy (boundaryAccuracy m);
    statusForMetric key_normalizationAccuracy (normalizationAccuracy m);
    statusForMetric key_unknownTokenRate (unknownTokenRate m);
    statusForMetric key_roundTripConsistency (roundTripConsistency m);
    statusForMetric key_avgFSTBacktracks (avgFSTBacktracks m) ].

(** A metric that is a fraction: a rational between 0 and 1. *)
Definition is_fraction (x : number) : Prop :=
  exists q, x = Fin q /\ (0 <= q <= 1)%Q.

(** The counters that count a part never exceed the counters that count
    the whole; [k] is the number of cases gone through. *)
Definition tally_ok (k : nat) (t : Tally) : Prop :=
  matchingTokens t <= totalGoldTokens t /\
  matchingBoundaries t <= totalGoldBoundaries t /\
  normalizationCorrect t <= k /\
  unknownTokens t <= totalTokens t /\
  roundTripCorrect t <= k.

(** How good a status is. *)
Definition status_rank (s : ValidationStatus) : nat :=
  match s with Fail => 0 | NeedsWork => 1 | Pass => 2 end.

(** The metrics for which a higher value is better. *)
Definition higher_is_better (metric : MetricKey) : bool :=
  match metric with
  | key_unknownTokenRate | key_avgFSTBacktracks => false
  | _ => true
  end.

(** [words.join(sep)] *)
Fixpoint Array_join (sep : jsstring) (words : list jsstring) : jsstring :=
  match words with
  | [] => []
  | [w] => w
  | w :: words' => w ++ sep ++ Array_join sep words'
  end.

(** A token that starts neither with the WordPiece marker nor with the
    RoBERTa marker. *)
Definition unmarked (tok : jsstring) : Prop :=
  startsWith tok (js "##") = false /\ startsWith tok [0x120%N] = false.

(** The WordPiece tokens of a word given as its first piece and its
    continuation pieces, and the word itself. *)
Definition word_pieces (w : jsstring * list jsstring) : list jsstring :=
  w.1 :: ((fun p => js "##" ++ p) <$> w.2).
Definition word_of (w : jsstring * list jsstring) : jsstring := w.1 ++ mjoin w.2.

(** ** Vocabulary of the properties of the Unigram trace *)

(** A snapshot of the costs of a text of [n] characters: one entry per
    node, in order. *)
Definition snapshot_of (n : nat) (f : StepFrame) : Prop :=
  exists s, viterbiSnapshot f = Some s /\ snap_node <$> s = seq 0 (n + 1).

(** A frame of the forward pass of a Unigram trace. *)
Definition forward_frame (n : nat) (f : StepFrame) : Prop :=
  partialPath f = [] /\ snapshot_of n f.

(** Playback of the backtracking of a Unigram trace: one frame per
    identifier of the path, last identifier first, each with the part of
    the path from its identifier on. *)
Definition backtrack_playback (n : nat) (path : list jsstring)
    (frames : list StepFrame) : Prop :=
  length frames = length path /\
  forall k id, path !! k = Some id ->
    exists f, frames !! (length path - 1 - k) = Some f /\
      chosen f = Some id /\ partialPath f = drop k path /\
      candidates f = [] /\ is_update_frame f = false /\ snapshot_of n f.

(** Every edge recorded in the cost array was announced by an update
    frame. *)
Definition ids_framed (st : list CostEntry * list StepFrame) : Prop :=
  forall k ent id, st.1 !! k = Some ent -> edgeId ent = Some id ->
    exists f, f ∈ st.2 /\ is_update_frame f = true /\ chosen f = Some id.

(** The frame [relax_traced] adds when the edge [edge] out of node [i]
    lowers the cost of its end node, leaving the costs [minCost]. *)
Definition update_frame (i : nat) (edge : TokenEdge) (minCost : list CostEntry)
    : StepFrame :=
  {| frame_id := js "frame-update-" ++ String_of_nat i ++ js "-"
                   ++ String_of_nat (edge_to edge);
     description := js "Update cost for node " ++ String_of_nat (edge_to edge)
                      ++ js " via " ++ edge_id edge;
     candidates := [edge_id edge];
     chosen := Some (edge_id edge);
     partialPath := [];
     viterbiSnapshot := Some (snapshot minCost) |}.

(** What the traced backtracking loop returns when it starts at node [k]
    with the path [acc] and the frames [frames]: the identifiers of edges
    recorded in the cost array, on nodes that increase up to [k], in front
    of [acc], and one frame for each of them after [frames]. *)
Definition backtracked (E : list TokenEdge) (n : nat) (mc : list CostEntry)
    (k : nat) (acc : list jsstring) (frames : list StepFrame)
    (res : list jsstring * list StepFrame) : Prop :=
  exists es new,
    res = ((edge_id <$> es) ++ acc, frames ++ new) /\
    Forall (fun e => e ∈ E /\ edge_to e <= k /\
              exists ent, mc !! edge_to e = Some ent /\
                edgeId ent = Some (edge_id e)) es /\
    StronglySorted (fun e e' => edge_to e < edge_to e') es /\
    Forall (fun f => is_update_frame f = false) new /\
    length new = length es /\
    forall j id, (edge_id <$> es) !! j = Some id ->
      exists f, new !! (length es - 1 - j) = Some f /\
        chosen f = Some id /\ partialPath f = drop j ((edge_id <$> es) ++ acc) /\
        candidates f = [] /\ is_update_frame f = false /\ snapshot_of n f.

(* ===================================================================== *)
(** * vocabGenerator.ts *)
(* ===================================================================== *)

(** A [Map<string, V>]: its entries in insertion order, one per key. *)
Definition Map_get {V} (m : list (jsstring * V)) (k : jsstring) : option V :=
  snd <$> List.find (fun kv => bool_decide (kv.1 = k)) m.

(** [m.set(k, v)]: a key already present keeps its place. *)
Fixpoint Map_set {V} (m : list (jsstring * V)) (k : jsstring) (v : V)
    : list (jsstring * V) :=
  match m with
  | [] => [(k, v)]
  | kv :: m' => if bool_decide (kv.1 = k) then (k, v) :: m' else kv :: Map_set m' k v
  end.

(** [vocab.set(k, (vocab.get(k) ?? 0) + 1)] *)
Definition Map_count (vocab : list (jsstring * nat)) (k : jsstring)
    : list (jsstring * nat) :=
  Map_set vocab k (default 0 (Map_get vocab k) + 1).

(** The positions of [for (let i = 0; i <= normalized.length - n; i++)]. *)
Definition ngram_positions (normalized : jsstring) (n : nat) : list nat :=
  if bool_decide (n <= length normalized)
  then seq 0 (length normalized - n + 1)
  else [].

(** The body of the inner loop of [generateVocabFromNgrams]. *)
Definition ngram_step (normalized : jsstring) (n : nat)
    (vocab : list (jsstring * nat)) (i : nat) : list (jsstring * nat) :=
  let ngram := substring normalized i (i + n) in
  if existsb is_white_space ngram then vocab else Map_count vocab ngram.

(** [{ token, score: freq }] *)
Definition item_of (entry : jsstring * nat) : VocabItem :=
  {| token := entry.1; score := Num.of_nat entry.2 |}.

(** [generateVocabFromNgrams(text, minN = 1, maxN = 4, minFreq = 1)], for
    parameters that are natural numbers; an argument left out is [None]. *)
Definition generateVocabFromNgrams `{HostString} (text : jsstring)
    (minN maxN minFreq : option nat) : list VocabItem :=
  let minN := default 1 minN in
  let maxN := default 4 maxN in
  let minFreq := default 1 minFreq in
  let normalized := trim (String_toLowerCase text) in
  if bool_decide (normalized = []) then []
  else
    let vocab :=
      foldl (fun vocab n =>
               foldl (ngram_step normalized n) vocab (ngram_positions normalized n))
        [] (seq minN (maxN + 1 - minN)) in
    take 500
      (Array_sort (fun a b => Num.sub (score b) (score a))
         (item_of <$> filter (fun entry => minFreq <= entry.2) vocab)).

Definition commonAffixes : list VocabItem :=
  [ vi "##ing" 50; vi "##er" 45; vi "##ed" 40; vi "##ly" 35; vi "##tion" 50;
    vi "##ness" 40; vi "un" 35; vi "re" 30; vi "in" 25; vi "dis" 25 ].

Definition augmentVocabWithAffixes (vocab : list VocabItem) : list VocabItem :=
  let vocabSet : gset jsstring := list_to_set (token <$> vocab) in
  let augmented :=
    foldl (fun augmented affix =>
             if bool_decide (token affix ∈ vocabSet) then augmented
             else augmented ++ [affix])
      vocab commonAffixes in
  Array_sort (fun a b => Num.sub (score b) (score a)) augmented.

(** The occurrences of [t] in [normalized]: the positions at which it
    starts. *)
Definition occurrences (normalized t : jsstring) : list nat :=
  filter (fun i => substring normalized i (i + length t) = t)
    (ngram_positions normalized (length t)).

(** The keys the inner loop of [generateVocabFromNgrams] counts for the
    length [n], in order: the n-grams without white space. *)
Definition ngram_keys (normalized : jsstring) (n : nat) : list jsstring :=
  filter (fun g => existsb is_white_space g = false)
    ((fun i => substring normalized i (i + n)) <$> ngram_positions normalized n).

(** How often [k] is among [keys]. *)
Definition times (k : jsstring) (keys : list jsstring) : nat :=
  length (filter (fun x => x = k) keys).

(* ===================================================================== *)
(** * services/vocabService.ts *)
(* ===================================================================== *)

(** A value [JSON.parse] returns.  The fields of an object are in the
    order in which [Object.entries] lists them. *)
#[warnings="-register-all"] Inductive JSON : Type :=
| JNull
| JBool (b : bool)
| JNumber (x : number)
| JString (s : jsstring)
| JArray (items : list JSON)
| JObject (fields : list (jsstring * JSON)).

(** What [fetch] resolves to, as far as the loader reads it: the [ok] flag
    and the body [json()] parses, [None] when that promise rejects. *)
Record Response : Type := {
  ok : bool;
  json : option JSON;
}.

(** How a promise settles. *)
Inductive settled (A : Type) : Type :=
| Fulfilled (a : A)
| Rejected.
Arguments Fulfilled {A} a.
Arguments Rejected {A}.

(** [Object.entries(v)]; [None] when it throws (on [null]). *)
Definition Object_entries (v : JSON) : option (list (jsstring * JSON)) :=
  match v with
  | JNull => None
  | JBool _ | JNumber _ => Some []
  | JString s => Some (imap (fun i c => (String_of_nat i, JString [c])) s)
  | JArray items => Some (imap (fun i x => (String_of_nat i, x)) items)
  | JObject fields => Some fields
  end.

(** [Math.max(a, b)] *)
Definition Math_max (a b : number) : number :=
  match a, b with
  | NaN, _ | _, NaN => NaN
  | _, _ => if Num.ltb a b then b else a
  end.

(** [([token, id]) => ({ token, score: Math.max(0, 10000 - numId) })] with
    [numId = typeof id === 'number' ? id : 0]. *)
Definition hf_item (entry : jsstring * JSON) : VocabItem :=
  let numId := match entry.2 with JNumber id => id | _ => Fin 0 end in
  {| token := entry.1; score := Math_max (Fin 0) (Num.sub (Fin 10000) numId) |}.

(** [loadLocalHFVocab], given what the fetch of the preset's file resolved
    to (the logging aside): the promise it returns rejects when the
    response is not [ok], when its body does not parse, or when the body
    is [null]. *)
Definition loadLocalHFVocab (response : Response) : settled (list VocabItem) :=
  if negb (ok response) then Rejected
  else
    match json response with
    | None => Rejected
    | Some vocabJson =>
        match Object_entries vocabJson with
        | None => Rejected
        | Some entries =>
            Fulfilled
              (Array_sort (fun a b => Num.sub (score b) (score a))
                 (filter (fun item => token item <> []) (hf_item <$> entries)))
        end
    end.

(** [loadHFPreset(preset)] returns the promise of [loadLocalHFVocab]. *)
Definition loadHFPreset (response : Response) : settled (list VocabItem) :=
  loadLocalHFVocab response.

(** A vocabulary file as the Hugging Face hub serves it: an object whose
    keys are pairwise distinct, as the keys of an object are, and whose
    values are numbers. *)
Definition vocabulary_file (fields : list (jsstring * JSON)) : Prop :=
  NoDup fields.*1 /\
  Forall (fun entry => exists id, entry.2 = JNumber id /\ id <> NaN) fields.

(** ** [generateVocabFromText] *)

Definition is_lead_surrogate (c : char) : bool := ((0xD800 <=? c) && (c <=? 0xDBFF))%N.
Definition is_trail_surrogate (c : char) : bool := ((0xDC00 <=? c) && (c <=? 0xDFFF))%N.

(** [for (const char of s)]: the code points of [s], each as the string of
    its code units; a lead surrogate directly followed by a trail surrogate
    is one of them, any other code unit is one by itself. *)
Fixpoint code_points (s : jsstring) : list jsstring :=
  match s with
  | [] => []
  | c :: s' =>
      match s' with
      | d :: s'' =>
          if is_lead_surrogate c && is_trail_surrogate d
          then [c; d] :: code_points s''
          else [c] :: code_points s'
      | [] => [[c]]
      end
  end.

(** [s.split(/\s+/)], on the piece collected so far; [in_space] tells that
    the code unit before was white space. *)
Fixpoint split_spaces (piece : jsstring) (in_space : bool) (s : jsstring)
    : list jsstring :=
  match s with
  | [] => [piece]
  | c :: s' =>
      if is_white_space c
      then (if in_space then split_spaces [] true s'
            else piece :: split_spaces [] true s')
      else split_spaces (piece ++ [c]) false s'
  end.

Definition String_split_spaces (s : jsstring) : list jsstring :=
  split_spaces [] false s.

(** [s.split(sep)] for a separator of one code unit. *)
Fixpoint String_split (sep : char) (s : jsstring) : list jsstring :=
  match s with
  | [] => [[]]
  | c :: s' =>
      if bool_decide (c = sep) then [] :: String_split sep s'
      else match String_split sep s' with
           | piece :: pieces => (c :: piece) :: pieces
           | [] => [[c]]
           end
  end.

(** [m.has(k)] *)
Definition Map_has {V} (m : list (jsstring * V)) (k : jsstring) : bool :=
  bool_decide (is_Some (Map_get m k)).

(** [m.set(k, (m.get(k) ?? 0) + 1)] on integer counts. *)
Definition Map_increment (m : list (jsstring * Z)) (k : jsstring)
    : list (jsstring * Z) :=
  Map_set m k (default 0 (Map_get m k) + 1)%Z.

(** The two inner [for] loops: the first [len] from
    [Math.min(10, word.length - i)] down to 1 whose substring at [i] is a
    key of [vocab]. *)
Definition known_length (vocab : list (jsstring * Z)) (word : jsstring) (i : nat)
    : option nat :=
  List.find (fun len => Map_has vocab (substring word i (i + len)))
    (reverse (seq 1 (10 `min` (length word - i)))).

(** [while (i < word.length) { ... }] *)
Fixpoint count_pairs (fuel : nat) (vocab : list (jsstring * Z)) (word : jsstring)
    (i : nat) (pairCounts : list (jsstring * Z)) : outcome (list (jsstring * Z)) :=
  if bool_decide (i < length word) then
    match fuel with
    | O => OutOfFuel
    | S fuel =>
        match known_length vocab word i with
        | Some len =>
            let substr := substring word i (i + len) in
            let pairCounts :=
              if bool_decide (i + len < length word) then
                match known_length vocab word (i + len) with
                | Some nextLen =>
                    let nextSubstr := substring word (i + len) (i + len + nextLen) in
                    let pair := substr ++ js "|" ++ nextSubstr in
                    Map_increment pairCounts pair
                | None => pairCounts
                end
              else pairCounts in
            count_pairs fuel vocab word (i + len) pairCounts
        | None => count_pairs fuel vocab word (i + 1) pairCounts
        end
    end
  else Done pairCounts.

(** [for (const word of words) { if (!word) continue; ... }] *)
Definition pair_counts (vocab : list (jsstring * Z)) (normalized : jsstring)
    : outcome (list (jsstring * Z)) :=
  foldl (fun acc word =>
           pairCounts ← acc;
           if bool_decide (word = []) then Done pairCounts
           else count_pairs (length word) vocab word 0 pairCounts)
    (Done []) (String_split_spaces normalized).

(** The most frequent pair, as [(bestPair, bestCount)]. *)
Definition best_pair (minFreq : Z) (pairCounts : list (jsstring * Z))
    : jsstring * Z :=
  foldl (fun best entry => if (best.2 <? entry.2)%Z then entry else best)
    ([], (minFreq - 1)%Z) pairCounts.

(** [const [left, right] = bestPair.split('|'); left + right]: a piece
    that is not there is [undefined], which [+] prints. *)
Definition merged_pair (bestPair : jsstring) : jsstring :=
  let parts := String_split 124%N bestPair in
  default (js "undefined") (parts !! 0) ++ default (js "undefined") (parts !! 1).

(** The merge loop, by the number of iterations [maxIterations - iterations]
    it has left. *)
Fixpoint merge_loop (remaining : nat) (normalized : jsstring) (minFreq : Z)
    (maxVocabSize : nat) (vocab : list (jsstring * Z))
    : outcome (list (jsstring * Z)) :=
  match remaining with
  | O => Done vocab
  | S remaining =>
      if bool_decide (length vocab < maxVocabSize) then
        pairCounts ← pair_counts vocab normalized;
        let best := best_pair minFreq pairCounts in
        if bool_decide (best.1 = []) then Done vocab
        else merge_loop remaining normalized minFreq maxVocabSize
               (Map_set vocab (merged_pair best.1) best.2)
      else Done vocab
  end.

(** [{ token, score: freq }] *)
Definition text_item (entry : jsstring * Z) : VocabItem :=
  {| token := entry.1; score := Num.of_Z entry.2 |}.

(** [generateVocabFromText(text, minFreq = 2, maxVocabSize = 500)], for
    parameters that are natural numbers; an argument left out is [None]. *)
Definition generateVocabFromText `{HostString} (text : jsstring)
    (minFreq maxVocabSize : option nat) : outcome (list VocabItem) :=
  let minFreq := default 2 minFreq in
  let maxVocabSize := default 500 maxVocabSize in
  let normalized := trim (String_toLowerCase text) in
  if bool_decide (normalized = []) then Done []
  else
    vocab ← merge_loop 50 normalized (Z.of_nat minFreq) maxVocabSize
               (foldl Map_increment [] (code_points normalized));
    Done (Array_sort (fun a b => Num.sub (score b) (score a)) (text_item <$> vocab)).

(** [t] is a piece of [s]: some of its code units in a row. *)
Definition part_of (t s : jsstring) : Prop := exists a b, s = a ++ t ++ b.

(** What the pair counts hold: a positive count for a key [a|b], where [ab]
    is a piece of the text and neither half is empty. *)
Definition pair_entry (normalized : jsstring) (kv : jsstring * Z) : Prop :=
  (1 <= kv.2)%Z /\
  exists a b, kv.1 = a ++ 124%N :: b /\ a <> [] /\ b <> [] /\
    part_of (a ++ b) normalized.

(** What the merge loop keeps. *)
Record text_vocab (normalized : jsstring) (minFreq : Z) (size : nat)
    (vocab : list (jsstring * Z)) : Prop := {
  text_vocab_keys : NoDup vocab.*1;
  text_vocab_code_points : forall cp, cp ∈ code_points normalized -> cp ∈ vocab.*1;
  text_vocab_size : length vocab <= size;
  text_vocab_counts :
    Forall (fun kv => (1 <= kv.2)%Z /\
              (kv.1 ∈ code_points normalized \/ (minFreq <= kv.2)%Z)) vocab;
  text_vocab_parts :
    124%N ∉ normalized ->
    Forall (fun kv => kv.1 <> [] /\ part_of kv.1 normalized) vocab;
}.

(** ** Inputs of the instances *)

(** A validation case: the text ["Ab"] with the one gold token ["ab"]. *)
Definition sample_case : ValidationCase :=
  {| case_id := js "case-1"; input := js "Ab"; goldTokens := [js "ab"];
     goldBoundaries := [(0, 2)]; goldNormalized := None;
     goldDetokenized := None |}.

(** A vocabulary file with three tokens. *)
Definition sample_fields : list (jsstring * JSON) :=
  [(js "b", JNumber (Fin 1)); (js "a", JNumber (Fin 0)); (js "ab", JNumber (Fin 2))].

(* ===================================================================== *)
(** * The lattice *)
(* ===================================================================== *)

Section LatticeFacts.
Context `{HostMath}.
Variables (text : jsstring) (algo : AlgorithmType) (vocab : list VocabItem)
          (unigramProbs bpeRanks : table).

Local Abbreviation inner := (inner_step text algo vocab unigramProbs bpeRanks).
Local Abbreviation m_at := (match_at text algo vocab unigramProbs bpeRanks).
Local Abbreviation pos_edges := (position_edges text algo vocab unigramProbs bpeRanks).

Lemma inner_fold i js st :
  foldl (inner i) st js
  = (st.1 ++ omap (m_at i) js,
     st.2 || bool_decide (omap (m_at i) js <> [])).
Proof.
  revert st. induction js as [|j js IH]; intros [es b]; simpl.
  - by rewrite app_nil_r, orb_false_r.
  - rewrite IH. unfold inner_step, match_at. simpl.
    destruct (match_token vocab algo i (substring text i j)) as [m|]; simpl.
    + rewrite <- app_assoc. simpl. by rewrite orb_true_r.
    + done.
Qed.

Lemma outer_step_eq es i :
  outer_step text algo vocab unigramProbs bpeRanks es i = es ++ pos_edges i.
Proof.
  unfold outer_step. rewrite inner_fold. simpl.
  unfold position_edges, matches_from, end_positions.
  destruct (omap _ _) as [|e l] eqn:E; simpl.
  - by rewrite app_nil_r.
  - done.
Qed.

Lemma outer_fold es l :
  foldl (outer_step text algo vocab unigramProbs bpeRanks) es l
  = es ++ (l ≫= pos_edges).
Proof.
  revert es. induction l as [|i l IH]; intros es; simpl.
  - by rewrite app_nil_r.
  - rewrite IH, outer_step_eq. by rewrite <- app_assoc.
Qed.
End LatticeFacts.

Lemma lattice_edges_eq `{HostMath} text algo customVocab :
  lattice_edges (buildLattice text algo customVocab)
  = seq 0 (length text) ≫=
      position_edges text algo (default MOCK_VOCAB customVocab)
        (scoring_tables customVocab).1 (scoring_tables customVocab).2.
Proof. unfold buildLattice. simpl. by rewrite outer_fold. Qed.

(** ** Edge identifiers *)

Lemma digits_of_uint_range d c :
  c ∈ digits_of_uint d -> (48 <= c <= 57)%N.
Proof.
  induction d; simpl; intros Hc; try (by apply elem_of_nil in Hc);
    apply elem_of_cons in Hc as [->|Hc]; auto; unfold digit_char; lia.
Qed.

Lemma digits_of_uint_inj d d' :
  digits_of_uint d = digits_of_uint d' -> d = d'.
Proof.
  revert d'. induction d; destruct d'; simpl; intros Heq;
    try done; try (injection Heq as Heq; (discriminate || (f_equal; auto))).
Qed.

Lemma String_of_nat_inj i j : String_of_nat i = String_of_nat j -> i = j.
Proof.
  unfold String_of_nat. intros Heq%digits_of_uint_inj.
  by apply DecimalNat.Unsigned.to_uint_inj.
Qed.

Lemma String_of_nat_no_dash i c : c ∈ String_of_nat i -> c <> 45%N.
Proof. intros Hc%digits_of_uint_range. lia. Qed.

(** A run without dashes that is followed by a dash ends at that dash. *)
Lemma dash_split (a b r r' : jsstring) :
  (forall c, c ∈ a -> c <> 45%N) -> (forall c, c ∈ b -> c <> 45%N) ->
  a ++ 45%N :: r = b ++ 45%N :: r' -> a = b /\ r = r'.
Proof.
  revert b. induction a as [|x a IH]; intros [|y b] Ha Hb Heq; simpl in *.
  - by injection Heq as ->.
  - injection Heq as <- _. exfalso. eapply Hb; [apply list_elem_of_here|done].
  - injection Heq as -> _. exfalso. eapply Ha; [apply list_elem_of_here|done].
  - injection Heq as -> Heq.
    destruct (IH b) as [-> ->]; auto.
    + intros c Hc. apply Ha. by apply list_elem_of_further.
    + intros c Hc. apply Hb. by apply list_elem_of_further.
Qed.

Lemma edge_id_prefix_inj i j r i' j' r' :
  edge_id_prefix i j r = edge_id_prefix i' j' r' -> i = i' /\ j = j'.
Proof.
  unfold edge_id_prefix. intros Heq%app_inv_head.
  change (js "-") with [45%N] in Heq. simpl in Heq.
  apply dash_split in Heq as [Hi Heq]; try apply String_of_nat_no_dash.
  apply dash_split in Heq as [Hj _]; try apply String_of_nat_no_dash.
  split; by apply String_of_nat_inj.
Qed.

Lemma edge_id_prefix_nonempty i j r : edge_id_prefix i j r <> [].
Proof. done. Qed.

Section LatticeEdges.
Context `{HostMath}.
Variables (text : jsstring) (algo : AlgorithmType) (vocab : list VocabItem)
          (unigramProbs bpeRanks : table).

Local Abbreviation m_at := (match_at text algo vocab unigramProbs bpeRanks).
Local Abbreviation matches := (matches_from text algo vocab unigramProbs bpeRanks).
Local Abbreviation pos_edges := (position_edges text algo vocab unigramProbs bpeRanks).

Lemma match_at_Some i j e :
  m_at i j = Some e ->
  exists m, match_token vocab algo i (substring text i j) = Some m /\
    e = matched_edge algo unigramProbs bpeRanks i j m (substring text i j).
Proof.
  unfold match_at. destruct (match_token _ _ _ _) as [m|]; simpl; [|done].
  intros [= <-]. eauto.
Qed.

Lemma elem_of_matches_from i e :
  e ∈ matches i <->
  exists j, i < j <= length text /\ j <= i + MAX_TOKEN_LENGTH /\ m_at i j = Some e.
Proof.
  unfold matches_from, end_positions. rewrite list_elem_of_omap.
  split.
  - intros (j & Hj & He). apply elem_of_seq in Hj. exists j. split_and!; [lia..|done].
  - intros (j & Hj & Hj' & He). exists j. split; [|done]. apply elem_of_seq. lia.
Qed.

Lemma matches_from_edge i e :
  e ∈ matches i ->
  edge_from e = i /\ i < edge_to e <= length text /\
  edge_to e <= i + MAX_TOKEN_LENGTH /\ m_at i (edge_to e) = Some e.
Proof.
  intros (j & Hj & Hj' & He)%elem_of_matches_from.
  destruct (match_at_Some _ _ _ He) as (m & _ & ->). simpl. done.
Qed.

Lemma elem_of_position_edges i e :
  e ∈ pos_edges i <->
  e ∈ matches i \/ (matches i = [] /\ e = fallback_edge text i).
Proof.
  unfold position_edges. destruct (matches i) as [|e0 l] eqn:E.
  - rewrite list_elem_of_singleton. split; [by right|].
    intros [Hn%elem_of_nil|[_ ->]]; done.
  - split; [by left|]. by intros [?|[? _]].
Qed.

Lemma position_edges_nonempty i : pos_edges i <> [].
Proof. unfold position_edges. by destruct (matches i). Qed.

Lemma position_edges_forward i e :
  i < length text -> e ∈ pos_edges i ->
  edge_from e = i /\ i < edge_to e <= length text.
Proof.
  intros Hi [He|[_ ->]]%elem_of_position_edges.
  - apply matches_from_edge in He as (? & ? & _). done.
  - simpl. lia.
Qed.

Lemma position_edges_id i e :
  e ∈ pos_edges i ->
  exists rest, edge_id e = edge_id_prefix (edge_from e) (edge_to e) rest.
Proof.
  intros [He|[_ ->]]%elem_of_position_edges.
  - apply matches_from_edge in He as (_ & _ & _ & He).
    destruct (match_at_Some _ _ _ He) as (m & _ & Heq).
    exists (token m). by rewrite Heq at 1 2 3.
  - exists (js "fallback-" ++ charAt text i). done.
Qed.

Lemma position_edges_to_inj i e e' :
  e ∈ pos_edges i -> e' ∈ pos_edges i -> edge_to e = edge_to e' -> e = e'.
Proof.
  intros [He|[Hn ->]]%elem_of_position_edges
         [He'|[Hn' ->]]%elem_of_position_edges Hto.
  - apply matches_from_edge in He as (_ & _ & _ & He).
    apply matches_from_edge in He' as (_ & _ & _ & He').
    rewrite Hto in He. congruence.
  - rewrite Hn' in He. by apply elem_of_nil in He.
  - rewrite Hn in He'. by apply elem_of_nil in He'.
  - done.
Qed.
End LatticeEdges.

(** ** Matching *)

Lemma find_token_None vocab s :
  find_token vocab s = None <-> forall v, v ∈ vocab -> token v <> s.
Proof.
  unfold find_token. split.
  - intros Hf v Hv%list_elem_of_In Heq.
    pose proof (find_none _ _ Hf v Hv) as Hb. simpl in Hb.
    by rewrite bool_decide_true in Hb.
  - intros Hn. destruct (find _ vocab) as [v|] eqn:E; [|done].
    apply find_some in E as [Hv%list_elem_of_In Hb].
    apply bool_decide_eq_true in Hb. by destruct (Hn v Hv).
Qed.

Lemma find_token_Some vocab s m :
  find_token vocab s = Some m -> m ∈ vocab /\ token m = s.
Proof.
  unfold find_token. intros [Hv%list_elem_of_In Hb]%find_some.
  by apply bool_decide_eq_true in Hb.
Qed.

Lemma match_token_None vocab algo i s :
  match_token vocab algo i s = None <-> ~ token_matches vocab algo i s.
Proof.
  unfold match_token, token_matches. split.
  - destruct (find_token vocab s) as [m|] eqn:E; [done|].
    rewrite find_token_None in E.
    intros Hm (v & Hv & [Heq|(-> & Hi & Heq)]).
    + by apply (E v).
    + rewrite !bool_decide_true in Hm by done. simpl in Hm.
      rewrite find_token_None in Hm. by apply (Hm v).
  - intros Hn. destruct (find_token vocab s) as [m|] eqn:E.
    + apply find_token_Some in E as [Hv Heq]. destruct Hn. eauto.
    + destruct (bool_decide (algo = WORDPIECE)) eqn:Ha; [|done].
      destruct (bool_decide (0 < i)) eqn:Hi; [|done]. simpl.
      apply bool_decide_eq_true in Ha, Hi.
      apply find_token_None. intros v Hv Heq. apply Hn. eauto 10.
Qed.

Lemma match_token_Some vocab algo i s m :
  match_token vocab algo i s = Some m ->
  m ∈ vocab /\
  (token m = s \/ (algo = WORDPIECE /\ 0 < i /\ token m = js "##" ++ s)).
Proof.
  unfold match_token. destruct (find_token vocab s) as [m'|] eqn:E.
  - intros [= <-]. apply find_token_Some in E as [? ?]. auto.
  - destruct (bool_decide (algo = WORDPIECE)) eqn:Ha; [|done].
    destruct (bool_decide (0 < i)) eqn:Hi; [|done]. simpl.
    apply bool_decide_eq_true in Ha, Hi.
    intros [? ?]%find_token_Some. auto.
Qed.

(** ** The lattice as a whole *)

Lemma filter_all {A} (P : A -> Prop) `{forall x, Decision (P x)} (l : list A) :
  (forall x, x ∈ l -> P x) -> filter P l = l.
Proof.
  induction l as [|x l IH]; intros Hl; [done|].
  rewrite filter_cons_True by (apply Hl; left).
  f_equal. apply IH. intros y Hy. apply Hl. by right.
Qed.

Lemma filter_none {A} (P : A -> Prop) `{forall x, Decision (P x)} (l : list A) :
  (forall x, x ∈ l -> ~ P x) -> filter P l = [].
Proof.
  induction l as [|x l IH]; intros Hl; [done|].
  rewrite filter_cons_False by (apply Hl; left).
  apply IH. intros y Hy. apply Hl. by right.
Qed.

(** The edges that leave node [i], when the edges are grouped by start
    position. *)
Lemma filter_from_bind (f : nat -> list TokenEdge) (a m i : nat) :
  (forall k e, e ∈ f k -> edge_from e = k) ->
  filter (fun e => edge_from e = i) (seq a m ≫= f)
  = if bool_decide (a <= i < a + m) then f i else [].
Proof.
  intros Hf. revert a. induction m as [|m IH]; intros a.
  - simpl. rewrite bool_decide_false by lia. done.
  - change (seq a (S m) ≫= f) with (f a ++ (seq (S a) m ≫= f)).
    rewrite filter_app, IH.
    destruct (decide (a = i)) as [->|Hne].
    + rewrite filter_all by (intros; by apply Hf).
      rewrite bool_decide_false by lia. rewrite bool_decide_true by lia.
      by rewrite app_nil_r.
    + rewrite filter_none by (intros e He Heq; apply Hf in He; congruence).
      simpl. rewrite (bool_decide_ext (S a <= i < S a + m) (a <= i < a + S m)) by lia.
      done.
Qed.

Section LatticeWhole.
Context `{HostMath}.
Variables (text : jsstring) (algo : AlgorithmType)
          (customVocab : option (list VocabItem)).

Local Abbreviation E := (lattice_edges (buildLattice text algo customVocab)).
Local Abbreviation pos_edges :=
  (position_edges text algo (default MOCK_VOCAB customVocab)
     (scoring_tables customVocab).1 (scoring_tables customVocab).2).

Lemma elem_of_lattice e :
  e ∈ E <-> exists i, i < length text /\ e ∈ pos_edges i.
Proof.
  rewrite lattice_edges_eq, list_elem_of_bind. split.
  - intros (i & He & Hi%elem_of_seq). exists i. split; [lia|done].
  - intros (i & Hi & He). exists i. split; [done|]. apply elem_of_seq. lia.
Qed.

Lemma lattice_outgoing i :
  i < length text -> filter (fun e => edge_from e = i) E = pos_edges i.
Proof.
  intros Hi. rewrite lattice_edges_eq, filter_from_bind.
  - by rewrite bool_decide_true by lia.
  - intros k e [He|[_ ->]]%elem_of_position_edges; [|done].
    by apply matches_from_edge in He as (? & _).
Qed.

Lemma lattice_forward e : e ∈ E -> edge_from e < edge_to e <= length text.
Proof.
  intros (i & Hi & He)%elem_of_lattice.
  destruct (position_edges_forward _ _ _ _ _ _ _ Hi He) as [-> ?]. lia.
Qed.

Lemma lattice_has_outgoing i :
  i < length text -> exists e, e ∈ E /\ edge_from e = i.
Proof.
  intros Hi. destruct (pos_edges i) as [|e l] eqn:Hp.
  { by destruct (position_edges_nonempty _ _ _ _ _ _ Hp). }
  assert (e ∈ pos_edges i) as He by (rewrite Hp; left).
  exists e. split.
  - apply elem_of_lattice. eauto.
  - by apply (position_edges_forward _ _ _ _ _ _ _ Hi He).
Qed.

Lemma lattice_id_shape e :
  e ∈ E -> exists rest, edge_id e = edge_id_prefix (edge_from e) (edge_to e) rest.
Proof. intros (i & _ & He)%elem_of_lattice. by eapply position_edges_id. Qed.

Lemma lattice_ids_unique e e' :
  e ∈ E -> e' ∈ E -> edge_id e = edge_id e' -> e = e'.
Proof.
  intros He He' Hid.
  destruct (lattice_id_shape _ He) as [r Hr].
  destruct (lattice_id_shape _ He') as [r' Hr'].
  rewrite Hr, Hr' in Hid. apply edge_id_prefix_inj in Hid as [Hf Ht].
  apply elem_of_lattice in He as (i & Hi & He).
  apply elem_of_lattice in He' as (i' & Hi' & He').
  pose proof (position_edges_forward _ _ _ _ _ _ _ Hi He) as [Hfi _].
  pose proof (position_edges_forward _ _ _ _ _ _ _ Hi' He') as [Hfi' _].
  assert (i = i') as <- by congruence.
  by eapply position_edges_to_inj.
Qed.

Lemma buildLattice_ok : lattice_ok E (length text).
Proof.
  split.
  - apply lattice_forward.
  - apply lattice_has_outgoing.
  - apply lattice_ids_unique.
  - intros e [r Hr]%lattice_id_shape. rewrite Hr. apply edge_id_prefix_nonempty.
Qed.
End LatticeWhole.

Lemma charAt_lookup (s : jsstring) i c : s !! i = Some c -> charAt s i = [c].
Proof.
  intros Hc. unfold charAt. rewrite (drop_S _ _ _ Hc). simpl. by rewrite take_0.
Qed.

Lemma matches_from_nil `{HostMath} text algo vocab up br i :
  (forall j, i < j <= length text ->
     ~ token_matches vocab algo i (substring text i j)) ->
  matches_from text algo vocab up br i = [].
Proof.
  intros Hno. destruct (matches_from _ _ _ _ _ i) as [|e l] eqn:E; [done|].
  assert (e ∈ matches_from text algo vocab up br i) as He by (rewrite E; left).
  apply elem_of_matches_from in He as (j & Hj & _ & He).
  apply match_at_Some in He as (m & Hm & _).
  apply Hno in Hj. apply match_token_None in Hj. congruence.
Qed.

(** C7. Every edge of the built lattice moves strictly forward inside the
    text, [from < to <= len(text)], so the graph is acyclic; every position
    [i] of the text has an outgoing edge; and where no vocabulary token
    matches at [i], the edges that leave [i] are exactly the one fallback
    edge [(i, i+1, text[i])] with score 10. *)
Theorem lattice_invariant `{HostMath} (text : jsstring) (algo : AlgorithmType)
    (customVocab : option (list VocabItem)) :
  let E := lattice_edges (buildLattice text algo customVocab) in
  let vocab := default MOCK_VOCAB customVocab in
  (forall e, e ∈ E -> edge_from e < edge_to e <= length text) /\
  (forall i, i < length text -> exists e, e ∈ E /\ edge_from e = i) /\
  (forall i c, text !! i = Some c ->
     (forall j, i < j <= length text ->
        ~ token_matches vocab algo i (substring text i j)) ->
     filter (fun e => edge_from e = i) E
     = [ {| edge_id := js "edge-" ++ String_of_nat i ++ js "-"
                         ++ String_of_nat (i + 1) ++ js "-fallback-" ++ [c];
            edge_from := i; edge_to := i + 1; edge_label := [c];
            edge_score := VNumber (Fin 10) |} ]).
Proof.
  intros E vocab. split_and!.
  - apply lattice_forward.
  - apply lattice_has_outgoing.
  - intros i c Hc Hno. subst E.
    rewrite lattice_outgoing by (by eapply lookup_lt_Some).
    unfold position_edges. rewrite matches_from_nil by done.
    unfold fallback_edge. by rewrite (charAt_lookup _ _ _ Hc).
Qed.

(* ===================================================================== *)
(** * The greedy decoder *)
(* ===================================================================== *)

Lemma ltb_zero_of_Z z : Num.ltb (Fin 0) (Num.of_Z z) = bool_decide (0 < z)%Z.
Proof.
  unfold Num.ltb, Num.of_Z, Num.Qltb, Qcompare. simpl.
  rewrite Z.mul_1_r. destruct z; simpl; by try rewrite bool_decide_true by lia.
Qed.

Lemma by_span_desc_pos a b :
  Num.ltb (Fin 0) (by_span_desc a b) = bool_decide (span a < span b)%Z.
Proof.
  unfold by_span_desc. rewrite ltb_zero_of_Z. apply bool_decide_ext. lia.
Qed.

Lemma head_sort_insert (x : TokenEdge) l :
  head (sort_insert by_span_desc x l)
  = match head l with
    | Some y => if bool_decide (span x < span y)%Z then Some y else Some x
    | None => Some x
    end.
Proof.
  destruct l as [|y l]; [done|]. cbn [sort_insert].
  rewrite by_span_desc_pos. simpl. by destruct (bool_decide _).
Qed.

(** The stable sort by descending span puts the first longest edge in front. *)
Lemma head_sort_by_span l : head (Array_sort by_span_desc l) = first_longest l.
Proof.
  induction l as [|x l IH]; simpl; [done|].
  by rewrite head_sort_insert, IH.
Qed.

Lemma first_longest_None l : first_longest l = None <-> l = [].
Proof.
  split; [|by intros ->].
  destruct l as [|x l]; simpl; [done|].
  destruct (first_longest l); [destruct (bool_decide _)|]; done.
Qed.

Lemma first_longest_split l best :
  first_longest l = Some best ->
  exists l1 l2, l = l1 ++ best :: l2 /\
    (forall e, e ∈ l1 -> (span e < span best)%Z) /\
    (forall e, e ∈ l2 -> (span e <= span best)%Z).
Proof.
  revert best. induction l as [|x l IH]; intros best; simpl; [done|].
  destruct (first_longest l) as [b|] eqn:E.
  - destruct (IH b) as (l1 & l2 & -> & H1 & H2); [done|].
    case_bool_decide as Hlt; intros [= <-].
    + exists (x :: l1), l2. split_and!; [done| |done].
      intros e [->|He]%elem_of_cons; auto.
    + exists [], (l1 ++ b :: l2). split_and!; [done| |].
      { intros e He. by apply elem_of_nil in He. }
      intros e [He| [->|He]%elem_of_cons]%elem_of_app.
      * apply H1 in He. lia.
      * lia.
      * apply H2 in He. lia.
  - intros [= <-]. apply first_longest_None in E as ->.
    exists [], []. split_and!; [done|..]; intros e He; by apply elem_of_nil in He.
Qed.

Lemma first_longest_elem l best : first_longest l = Some best -> best ∈ l.
Proof.
  intros (l1 & l2 & -> & _)%first_longest_split. apply elem_of_app. right. left.
Qed.

(** [first_longest] returns an edge of largest span, and the first such. *)
Lemma first_longest_Some l best :
  first_longest l = Some best <->
  exists l1 l2, l = l1 ++ best :: l2 /\
    (forall e, e ∈ l1 -> (span e < span best)%Z) /\
    (forall e, e ∈ l2 -> (span e <= span best)%Z).
Proof.
  split; [apply first_longest_split|].
  intros (l1 & l2 & -> & H1 & H2).
  induction l1 as [|y l1 IH]; simpl.
  - destruct (first_longest l2) as [b|] eqn:E; [|done].
    apply first_longest_elem, H2 in E.
    by rewrite bool_decide_false by lia.
  - rewrite IH by (intros e He; apply H1; by right).
    rewrite bool_decide_true; [done|]. apply H1. left.
Qed.

(** The loop body of [greedyDecode], with the sort read as the choice of
    the first longest candidate. *)
Lemma greedy_loop_step fuel edges n current path :
  greedy_loop (S fuel) edges n current path
  = if bool_decide (current < n) then
      match first_longest (filter (fun e => edge_from e = current) edges) with
      | Some best => greedy_loop fuel edges n (edge_to best) (path ++ [edge_id best])
      | None => Done path
      end
    else Done path.
Proof.
  simpl. case_bool_decide; [|done].
  rewrite <- head_sort_by_span.
  destruct (filter _ edges) as [|c cs] eqn:E; [done|].
  destruct (Array_sort by_span_desc (c :: cs)) as [|b bs] eqn:Es; simpl; [|done].
  exfalso. pose proof (head_sort_by_span (c :: cs)) as Hh.
  rewrite Es in Hh. cbn [head] in Hh. symmetry in Hh.
  by apply first_longest_None in Hh.
Qed.

Lemma greedy_loop_finished fuel edges n current path :
  n <= current -> greedy_loop fuel edges n current path = Done path.
Proof. intros Hn. destruct fuel; simpl; by rewrite bool_decide_false by lia. Qed.

(** More fuel does not change the result of a loop that ended. *)
Lemma greedy_loop_fuel fuel fuel' edges n current path p :
  greedy_loop fuel edges n current path = Done p -> fuel <= fuel' ->
  greedy_loop fuel' edges n current path = Done p.
Proof.
  revert fuel' current path. induction fuel as [|fuel IH]; intros fuel' current path.
  - simpl. case_bool_decide as Hc; [done|]. intros [= <-] _.
    apply greedy_loop_finished. lia.
  - intros Hrun Hle. destruct fuel' as [|fuel']; [lia|].
    rewrite greedy_loop_step in Hrun. rewrite greedy_loop_step.
    case_bool_decide; [|done].
    destruct (first_longest _); [|done]. apply IH; [done|lia].
Qed.

Lemma backtrack_fuel fuel fuel' mc curr path p :
  backtrack fuel mc curr path = Done p -> fuel <= fuel' ->
  backtrack fuel' mc curr path = Done p.
Proof.
  revert fuel' curr path. induction fuel as [|fuel IH]; intros fuel' curr path.
  - simpl. case_bool_decide as Hc; [done|]. intros [= <-] _.
    destruct fuel'; simpl; by rewrite bool_decide_false.
  - intros Hrun Hle. destruct fuel' as [|fuel']; [lia|]. simpl in *.
    case_bool_decide; [|done].
    destruct (mc !! Z.to_nat curr) as [node|]; [|done].
    destruct (no_edge node); [done|]. apply IH; [done|lia].
Qed.

(** ** Walks *)

Lemma walk_elem E a b es e : walk E a b es -> e ∈ es -> e ∈ E.
Proof.
  induction 1 as [|e0 es b He0 Hw IH]; intros He.
  - by apply elem_of_nil in He.
  - apply elem_of_cons in He as [->|He]; auto.
Qed.

Lemma walk_app E a b c es es' :
  walk E a b es -> walk E b c es' -> walk E a c (es ++ es').
Proof. induction 1; simpl; [done|]. intros. constructor; auto. Qed.

Lemma walk_snoc E a c es e :
  walk E a (edge_from e) es -> e ∈ E -> c = edge_to e -> walk E a c (es ++ [e]).
Proof.
  intros Hw He ->. eapply walk_app; [done|]. constructor; [done|]. constructor.
Qed.

Lemma walk_forward E n a b es :
  (forall e, e ∈ E -> edge_from e < edge_to e <= n) ->
  walk E a b es -> a <= b /\ (es <> [] -> a < b <= n).
Proof.
  intros Hf. induction 1 as [|e es b He Hw [IH1 IH2]]; [done|].
  apply Hf in He. split; [lia|]. intros _. destruct es as [|e' es].
  - inversion Hw; subst. lia.
  - destruct IH2; [done|]. lia.
Qed.

(** The spans of a walk of forward edges tile the interval between its end
    points: every position once, in order. *)
Lemma walk_spans E n a b es :
  (forall e, e ∈ E -> edge_from e < edge_to e <= n) ->
  walk E a b es -> es ≫= span_positions = seq a (b - a).
Proof.
  intros Hf. induction 1 as [a|e es b He Hw IH].
  - by rewrite Nat.sub_diag.
  - change ((e :: es) ≫= span_positions)
      with (span_positions e ++ (es ≫= span_positions)).
    rewrite IH. unfold span_positions.
    pose proof (Hf _ He). pose proof (walk_forward _ _ _ _ _ Hf Hw) as [? _].
    replace (b - edge_from e) with ((edge_to e - edge_from e) + (b - edge_to e)) by lia.
    rewrite seq_app. repeat f_equal. lia.
Qed.

(** ** The greedy decoder on a well-formed lattice *)

Section GreedyOnLattice.
Variables (E : list TokenEdge) (n : nat).
Hypothesis HE : lattice_ok E n.

Lemma label_of_id e : e ∈ E -> label_of E (edge_id e) = edge_label e.
Proof.
  intros He. unfold label_of.
  destruct (find _ E) as [e'|] eqn:Hf.
  - apply find_some in Hf as [He'%list_elem_of_In Hid%bool_decide_eq_true].
    by rewrite (ok_ids _ _ HE e' e He' He Hid).
  - apply list_elem_of_In in He. pose proof (find_none _ _ Hf e He) as Hb.
    simpl in Hb. by rewrite bool_decide_true in Hb.
Qed.

Lemma label_of_ids (es : list TokenEdge) :
  (forall e, e ∈ es -> e ∈ E) ->
  label_of E <$> (edge_id <$> es) = edge_label <$> es.
Proof.
  induction es as [|e es IH]; intros Hes; [done|]. csimpl.
  rewrite label_of_id by (apply Hes; left).
  f_equal. apply IH. intros e' He'. apply Hes. by right.
Qed.

Lemma greedy_loop_walk fuel current path :
  current <= n -> n - current <= fuel ->
  exists es,
    greedy_loop fuel E n current path = Done (path ++ (edge_id <$> es)) /\
    walk E current n es /\ Forall (greedy_choice E) es.
Proof.
  revert current path. induction fuel as [|fuel IH]; intros current path Hc Hfuel.
  - exists []. rewrite greedy_loop_finished by lia. rewrite app_nil_r.
    replace current with n by lia. split_and!; [done|constructor|constructor].
  - rewrite greedy_loop_step. case_bool_decide as Hlt.
    + destruct (first_longest _) as [best|] eqn:Hb.
      * pose proof (first_longest_elem _ _ Hb) as Hin.
        apply list_elem_of_filter in Hin as [Hfrom Hin].
        pose proof (ok_forward _ _ HE _ Hin) as Hfw.
        destruct (IH (edge_to best) (path ++ [edge_id best])) as (es & Hrun & Hw & Hg);
          [lia..|].
        exists (best :: es). split_and!.
        -- rewrite Hrun. by rewrite <- app_assoc.
        -- rewrite <- Hfrom. by constructor.
        -- constructor; [|done]. unfold greedy_choice. by rewrite Hfrom.
      * apply first_longest_None in Hb.
        destruct (ok_outgoing _ _ HE current Hlt) as (e & He & Hfrom).
        assert (e ∈ filter (fun e' => edge_from e' = current) E) as Hin
          by (by apply list_elem_of_filter).
        rewrite Hb in Hin. by apply elem_of_nil in Hin.
    + exists []. rewrite app_nil_r. replace current with n by lia.
      split_and!; [done|constructor|constructor].
Qed.
End GreedyOnLattice.

(* ===================================================================== *)
(** * Rounding *)
(* ===================================================================== *)

Section Rounding.
Local Open Scope Q_scope.

Lemma pow2_pos e : 0 < Num.pow2 e.
Proof. apply Qpower_0_lt. reflexivity. Qed.

Lemma pow2_plus a b : Num.pow2 (a + b) == Num.pow2 a * Num.pow2 b.
Proof. apply Qpower_plus. discriminate. Qed.

Lemma pow2_le a b : (a <= b)%Z -> Num.pow2 a <= Num.pow2 b.
Proof. intros Hab. apply Qpower_le_compat_l; [done|]. discriminate. Qed.

Lemma pow2_lt_inv a b : Num.pow2 a < Num.pow2 b -> (a < b)%Z.
Proof.
  intros Hlt. destruct (Z.lt_ge_cases a b) as [|Hge]; [done|].
  apply pow2_le in Hge. exfalso. apply (Qlt_not_le _ _ Hlt Hge).
Qed.

Lemma pow2_Z e : (0 <= e)%Z -> Num.pow2 e == inject_Z (2 ^ e).
Proof. intros He. unfold Num.pow2. symmetry. by apply (Zpower_Qpower 2). Qed.

(** The exponent of a positive rational. *)
Lemma Qlog2_spec x : 0 < x -> Num.pow2 (Num.Qlog2 x) <= x /\ x < Num.pow2 (Num.Qlog2 x + 1).
Proof.
  intros Hx. destruct x as [n dn]. unfold Qlt in Hx. simpl in Hx.
  assert (0 < n)%Z as Hn by lia.
  unfold Num.Qlog2. simpl Qnum. simpl Qden.
  set (a := Z.log2 n). set (b := Z.log2 (Z.pos dn)).
  pose proof (Z.log2_spec n Hn) as [Ha1 Ha2]. fold a in Ha1, Ha2.
  pose proof (Z.log2_spec (Z.pos dn) eq_refl) as [Hb1 Hb2]. fold b in Hb1, Hb2.
  pose proof (Z.log2_nonneg n) as Ha0. fold a in Ha0.
  pose proof (Z.log2_nonneg (Z.pos dn)) as Hb0. fold b in Hb0.
  assert (n # dn == inject_Z n / inject_Z (Z.pos dn)) as Hq by apply Qmake_Qdiv.
  assert (0 < inject_Z (Z.pos dn)) as Hdpos by (unfold Qlt; simpl; lia).
  assert (inject_Z (2 ^ a) <= inject_Z n) as Hn1 by (rewrite <- Zle_Qle; lia).
  assert (inject_Z n < inject_Z (2 ^ (a + 1))) as Hn2.
  { rewrite <- Zlt_Qlt. replace (a + 1)%Z with (Z.succ a) by lia. done. }
  assert (inject_Z (2 ^ b) <= inject_Z (Z.pos dn)) as Hd1 by (rewrite <- Zle_Qle; lia).
  assert (inject_Z (Z.pos dn) < inject_Z (2 ^ (b + 1))) as Hd2.
  { rewrite <- Zlt_Qlt. replace (b + 1)%Z with (Z.succ b) by lia. done. }
  rewrite <- !pow2_Z in Hn1, Hn2, Hd1, Hd2 by lia.
  (* x < 2^(a - b + 1) and 2^(a - b - 1) < x *)
  assert (n # dn < Num.pow2 (a - b + 1)) as Hup.
  { rewrite Hq. apply Qlt_shift_div_r; [done|].
    apply Qlt_le_trans with (Num.pow2 (a + 1)); [done|].
    replace (a + 1)%Z with ((a - b + 1) + b)%Z by lia.
    rewrite pow2_plus. apply Qmult_le_l; [apply pow2_pos|done]. }
  assert (Num.pow2 (a - b - 1) <= n # dn) as Hlow.
  { rewrite Hq. apply Qle_shift_div_l; [done|].
    apply Qle_trans with (Num.pow2 a); [|done].
    replace a with ((a - b - 1) + (b + 1))%Z at 2 by lia.
    rewrite pow2_plus. apply Qmult_le_l; [apply pow2_pos|].
    by apply Qlt_le_weak. }
  destruct (Qle_bool (Num.pow2 (a - b)) (n # dn)) eqn:Hk.
  - apply Qle_bool_iff in Hk. done.
  - split; [done|].
    replace (a - b - 1 + 1)%Z with (a - b)%Z by lia.
    apply Qnot_le_lt. intros Hle. apply Qle_bool_iff in Hle. congruence.
Qed.

Lemma Qlog2_mono x y : 0 < x -> x <= y -> (Num.Qlog2 x <= Num.Qlog2 y)%Z.
Proof.
  intros Hx Hxy.
  destruct (Qlog2_spec x Hx) as [Hx1 _].
  destruct (Qlog2_spec y) as [_ Hy2]; [by eapply Qlt_le_trans|].
  assert (Num.pow2 (Num.Qlog2 x) < Num.pow2 (Num.Qlog2 y + 1)) as Hlt.
  { eapply Qle_lt_trans; [done|]. by eapply Qle_lt_trans. }
  apply pow2_lt_inv in Hlt. lia.
Qed.

Lemma round_half_even_bounds x :
  (Qfloor x <= Num.round_half_even x <= Qfloor x + 1)%Z.
Proof.
  unfold Num.round_half_even. destruct (_ ?= _); [destruct (Z.even _)|..]; lia.
Qed.

Lemma round_half_even_Z (n : Z) : Num.round_half_even (inject_Z n) = n.
Proof.
  unfold Num.round_half_even. rewrite Qfloor_Z.
  assert ((inject_Z n - inject_Z n ?= 1 # 2) = Lt) as ->; [|done].
  apply Qlt_alt. assert (inject_Z n - inject_Z n == 0) as -> by ring.
  reflexivity.
Qed.

Lemma round_half_even_mono x y :
  x <= y -> (Num.round_half_even x <= Num.round_half_even y)%Z.
Proof.
  intros Hxy. pose proof (Qfloor_resp_le x y Hxy) as Hf.
  pose proof (round_half_even_bounds x) as [_ Hx].
  pose proof (round_half_even_bounds y) as [Hy _].
  destruct (Z.eq_dec (Qfloor x) (Qfloor y)) as [Heq|Hne]; [|lia].
  unfold Num.round_half_even. rewrite <- Heq.
  destruct (x - inject_Z (Qfloor x) ?= 1 # 2) eqn:Cx,
           (y - inject_Z (Qfloor x) ?= 1 # 2) eqn:Cy;
    try (destruct (Z.even _)); try lia; exfalso;
    repeat match goal with
    | H : (_ ?= _) = Eq |- _ => apply Qeq_alt in H
    | H : (_ ?= _) = Lt |- _ => apply Qlt_alt in H
    | H : (_ ?= _) = Gt |- _ => apply Qgt_alt in H
    end; lra.
Qed.

Lemma round_half_even_nonneg x : 0 <= x -> (0 <= Num.round_half_even x)%Z.
Proof.
  intros Hx. pose proof (round_half_even_mono 0 x Hx) as Hm.
  change 0 with (inject_Z 0) in Hm at 1. by rewrite round_half_even_Z in Hm.
Qed.

Lemma quantum_mono x y : 0 < x -> x <= y -> (Num.quantum x <= Num.quantum y)%Z.
Proof. intros Hx Hxy. pose proof (Qlog2_mono x y Hx Hxy). unfold Num.quantum. lia. Qed.

Lemma nearest_pos_mono x y : 0 < x -> x <= y -> Num.nearest_pos x <= Num.nearest_pos y.
Proof.
  intros Hx Hxy. assert (0 < y) as Hy by (by eapply Qlt_le_trans).
  pose proof (quantum_mono x y Hx Hxy) as Hq. unfold Num.nearest_pos.
  destruct (Z.eq_dec (Num.quantum x) (Num.quantum y)) as [Heq|Hne].
  - rewrite Heq. apply Qmult_le_compat_r; [|apply Qlt_le_weak, pow2_pos].
    rewrite <- Zle_Qle. apply round_half_even_mono.
    apply Qmult_le_compat_r; [done|].
    apply Qlt_le_weak, Qinv_lt_0_compat, pow2_pos.
  - (* the exponent of [y] is larger: [2^(Num.Qlog2 y)] lies in between *)
    assert (Num.quantum y = Num.Qlog2 y - 52)%Z as Hqy by (unfold Num.quantum in *; lia).
    assert (Num.quantum x < Num.quantum y)%Z as Hlt by lia.
    destruct (Qlog2_spec x Hx) as [_ Hx2].
    destruct (Qlog2_spec y Hy) as [Hy1 _].
    assert (Num.Qlog2 x + 1 <= Num.Qlog2 y)%Z as Hexp by (unfold Num.quantum in *; lia).
    apply Qle_trans with (Num.pow2 (Num.Qlog2 y)).
    + assert (Num.pow2 (Num.Qlog2 y) == inject_Z (2 ^ (Num.Qlog2 y - Num.quantum x)) * Num.pow2 (Num.quantum x))
        as ->.
      { rewrite <- pow2_Z by lia. rewrite <- pow2_plus. f_equiv. lia. }
      apply Qmult_le_compat_r; [|apply Qlt_le_weak, pow2_pos].
      rewrite <- Zle_Qle.
      rewrite <- (round_half_even_Z (2 ^ (Num.Qlog2 y - Num.quantum x))).
      apply round_half_even_mono. rewrite <- pow2_Z by lia.
      apply Qle_shift_div_r; [apply pow2_pos|].
      rewrite <- pow2_plus. replace (Num.Qlog2 y - Num.quantum x + Num.quantum x)%Z with (Num.Qlog2 y) by lia.
      apply Qlt_le_weak. eapply Qlt_le_trans; [done|]. by apply pow2_le.
    + assert (Num.pow2 (Num.Qlog2 y) == inject_Z (2 ^ 52) * Num.pow2 (Num.quantum y)) as ->.
      { rewrite <- pow2_Z by lia. rewrite <- pow2_plus. f_equiv. lia. }
      apply Qmult_le_compat_r; [|apply Qlt_le_weak, pow2_pos].
      rewrite <- Zle_Qle. rewrite <- (round_half_even_Z (2 ^ 52)).
      apply round_half_even_mono. rewrite <- pow2_Z by lia.
      apply Qle_shift_div_l; [apply pow2_pos|].
      rewrite <- pow2_plus. by replace (52 + Num.quantum y)%Z with (Num.Qlog2 y) by lia.
Qed.

Lemma nearest_pos_nonneg x : 0 < x -> 0 <= Num.nearest_pos x.
Proof.
  intros Hx. unfold Num.nearest_pos. apply Qmult_le_0_compat.
  - change 0 with (inject_Z 0). rewrite <- Zle_Qle. apply round_half_even_nonneg.
    apply Qlt_le_weak, Qlt_shift_div_l; [apply pow2_pos|]. by rewrite Qmult_0_l.
  - apply Qlt_le_weak, pow2_pos.
Qed.

Lemma nearest_cases x :
  (x == 0 /\ Num.nearest x = 0) \/
  (0 < x /\ Num.nearest x = Num.nearest_pos x) \/
  (x < 0 /\ Num.nearest x = - Num.nearest_pos (- x)).
Proof.
  unfold Num.nearest. destruct (x ?= 0) eqn:C.
  - left. by apply Qeq_alt in C.
  - right. right. by apply Qlt_alt in C.
  - right. left. by apply Qgt_alt in C.
Qed.

(** Rounding keeps the order. *)
Lemma nearest_mono x y : x <= y -> Num.nearest x <= Num.nearest y.
Proof.
  intros Hxy.
  destruct (nearest_cases x) as [[Hx ->]|[[Hx ->]|[Hx ->]]],
           (nearest_cases y) as [[Hy ->]|[[Hy ->]|[Hy ->]]];
    try lra.
  - by apply nearest_pos_nonneg.
  - by apply nearest_pos_mono.
  - pose proof (nearest_pos_nonneg (- x)). lra.
  - pose proof (nearest_pos_nonneg (- x)). pose proof (nearest_pos_nonneg y). lra.
  - assert (Num.nearest_pos (- y) <= Num.nearest_pos (- x)); [|lra].
    apply nearest_pos_mono; lra.
Qed.

Lemma nearest_0 : Num.nearest 0 = 0.
Proof. reflexivity. Qed.

Lemma nearest_nonneg x : 0 <= x -> 0 <= Num.nearest x.
Proof. intros Hx. rewrite <- nearest_0. by apply nearest_mono. Qed.

End Rounding.

(* ===================================================================== *)
(** * Arithmetic of costs *)
(* ===================================================================== *)

Lemma Qltb_lt a b : Num.Qltb a b = true <-> (a < b)%Q.
Proof. unfold Num.Qltb. rewrite Qlt_alt. by destruct (a ?= b)%Q. Qed.

Lemma Qltb_ge a b : Num.Qltb a b = false <-> (b <= a)%Q.
Proof.
  rewrite <- not_true_iff_false, Qltb_lt. split.
  - apply Qnot_lt_le.
  - apply Qle_not_lt.
Qed.

Lemma is_cost_add a b : is_cost a -> is_cost b -> is_cost (Num.cost_add a b).
Proof. by destruct a, b. Qed.

Lemma num_le_refl c : c <> NaN -> Num.le c c.
Proof. destruct c; simpl; try done. intros _. apply Qle_refl. Qed.

Lemma num_le_trans a b c : Num.le a b -> Num.le b c -> Num.le a c.
Proof. destruct a, b, c; simpl; try done. apply Qle_trans. Qed.

Lemma num_le_PInf c : c <> NaN -> Num.le c PInf.
Proof. by destruct c. Qed.

Lemma num_le_PInf_inv c : Num.le PInf c -> c = PInf.
Proof. by destruct c. Qed.

(** [x < y] is false: then [y <= x], unless one of them is [NaN]. *)
Lemma num_ltb_false x y :
  x <> NaN -> y <> NaN -> Num.ltb x y = false -> Num.le y x.
Proof.
  destruct x, y; simpl; try done. intros _ _. apply Qltb_ge.
Qed.

Lemma num_ltb_true x y :
  Num.ltb x y = true -> Num.le x y /\ x <> NaN /\ x <> PInf.
Proof.
  destruct x, y; simpl; try done. intros Hlt%Qltb_lt.
  split; [by apply Qlt_le_weak|done].
Qed.

Lemma num_NaN_dec (c : number) : c = NaN \/ c <> NaN.
Proof. destruct c; auto. Qed.

Lemma num_ltb_is_cost x y : Num.ltb x y = true -> is_cost x.
Proof. by destruct x, y. Qed.

Lemma is_cost_plus_inv a s : is_cost (cost_plus a s) -> is_cost a.
Proof. destruct s as [s|k]; [|done]. by destruct a, s. Qed.

Lemma num_eqb_PInf c : Num.eqb c PInf = true <-> c = PInf.
Proof. by destruct c. Qed.

(** The sum of a cost and a score is the binary64 sum, overflow included,
    as long as both are below [2^1000] in size. *)
Lemma cost_add_fadd a b :
  (forall x, a = Fin x -> (- Num.pow2 1000 <= x <= Num.pow2 1000)%Q) ->
  (forall y, b = Fin y -> (- Num.pow2 1000 <= y <= Num.pow2 1000)%Q) ->
  Num.cost_add a b = Num.fadd a b.
Proof.
  intros Ha Hb. unfold Num.cost_add, Num.fadd.
  destruct (Num.add a b) as [z| | |] eqn:Hz; [|done..].
  destruct a as [x| | |], b as [y| | |]; try done.
  injection Hz as <-. destruct (Ha x eq_refl) as [Hx1 Hx2].
  destruct (Hb y eq_refl) as [Hy1 Hy2]. unfold Num.rounded.
  assert (Num.pow2 1000 + Num.pow2 1000 <= Num.pow2 1001)%Q as Hdouble.
  { apply Qle_bool_iff. by vm_compute. }
  assert (Num.nearest (Num.pow2 1001) < Num.pow2 1024)%Q as Hhigh.
  { apply Qltb_lt. by vm_compute. }
  assert (- Num.pow2 1024 < Num.nearest (- Num.pow2 1001))%Q as Hlow.
  { apply Qltb_lt. by vm_compute. }
  assert (Num.nearest (x + y) <= Num.nearest (Num.pow2 1001))%Q as Hup.
  { apply nearest_mono. eapply Qle_trans; [|apply Hdouble]. by apply Qplus_le_compat. }
  assert (Num.nearest (- Num.pow2 1001) <= Num.nearest (x + y))%Q as Hdown.
  { apply nearest_mono. apply Qopp_le_compat in Hdouble.
    eapply Qle_trans; [apply Hdouble|].
    eapply Qle_trans; [|apply (Qplus_le_compat _ _ _ _ Hx1 Hy1)].
    rewrite Qopp_plus. apply Qle_refl. }
  assert (Qle_bool (Num.pow2 1024) (Num.nearest (x + y)%Q) = false) as ->.
  { apply not_true_iff_false. intros Hle%Qle_bool_iff.
    apply (Qlt_irrefl (Num.pow2 1024)).
    eapply Qle_lt_trans; [apply Hle|]. by eapply Qle_lt_trans. }
  assert (Qle_bool (Num.nearest (x + y)%Q) (- Num.pow2 1024)%Q = false) as ->; [|done].
  apply not_true_iff_false. intros Hle%Qle_bool_iff.
  apply (Qlt_irrefl (- Num.pow2 1024)%Q).
  eapply Qlt_le_trans; [apply Hlow|]. by eapply Qle_trans.
Qed.

(** Adding a score keeps the order of two costs, where both sums are
    numbers. *)
Lemma cost_plus_mono a b s :
  Num.le a b -> cost_plus a s <> NaN -> cost_plus b s <> NaN ->
  Num.le (cost_plus a s) (cost_plus b s).
Proof.
  destruct s as [s|k]; [|done]. unfold cost_plus, Num.cost_add.
  destruct a as [x| | |], b as [y| | |], s as [z| | |]; simpl; try done.
  intros Hle _ _. apply nearest_mono. by apply Qplus_le_l.
Qed.

(** Where a sum is no number, the sum for a larger cost is no number
    either, or it is infinite. *)
Lemma cost_plus_NaN a b s :
  cost_plus a s = NaN -> Num.le a b ->
  cost_plus b s = NaN \/ cost_plus b s = PInf.
Proof.
  destruct s as [s|k]; [|by left]. unfold cost_plus, Num.cost_add.
  destruct a as [x| | |], b as [y| | |], s as [z| | |]; simpl; auto; done.
Qed.

Lemma cost_plus_NaN_l s : cost_plus NaN s = NaN.
Proof. by destruct s as [[]|]. Qed.

Lemma cost_plus_PInf_l s : cost_plus PInf s = NaN \/ cost_plus PInf s = PInf.
Proof. destruct s as [[]|]; auto. Qed.

Lemma path_cost_snoc es e :
  path_cost (es ++ [e]) = cost_plus (path_cost es) (edge_score e).
Proof. unfold path_cost. by rewrite foldl_app. Qed.

(** A path of edges whose scores are rationals or [-Infinity] has such a
    cost. *)
Lemma path_cost_is_cost es :
  (forall e, e ∈ es -> exists s, edge_score e = VNumber s /\ is_cost s) ->
  is_cost (path_cost es).
Proof.
  induction es as [|e es IH] using rev_ind; intros Hes; [done|].
  rewrite path_cost_snoc.
  destruct (Hes e) as (s & -> & Hs); [apply elem_of_app; right; left|].
  apply is_cost_add; [|done].
  apply IH. intros e' He'. apply Hes, elem_of_app. by left.
Qed.

(* ===================================================================== *)
(** * The Viterbi decoder *)
(* ===================================================================== *)

(** A loop over a list in the outcome monad that keeps an invariant indexed
    by the elements already processed. *)
Lemma foldl_outcome_ind {S X} (f : S -> X -> outcome S)
    (I : list X -> S -> Prop) (l : list X) (s0 : S) :
  I [] s0 ->
  (forall done x rest s, l = done ++ x :: rest -> I done s ->
     exists s', f s x = Done s' /\ I (done ++ [x]) s') ->
  exists s', foldl (fun acc x => s ← acc; f s x) (Done s0) l = Done s' /\ I l s'.
Proof.
  intros H0. induction l as [|x l IH] using rev_ind; intros Hstep.
  - exists s0. done.
  - destruct IH as (s & Hs & HI).
    { intros done y rest s -> Hd. apply (Hstep done y (rest ++ [x])); [|done].
      by rewrite <- app_assoc. }
    rewrite foldl_app, Hs. simpl.
    destruct (Hstep l x [] s eq_refl HI) as (s' & Hs' & HI'). eauto.
Qed.

Lemma relax_spec i mc e here there :
  mc !! i = Some here -> mc !! edge_to e = Some there ->
  relax i mc e
  = Done (if Num.ltb (cost_plus (cost here) (edge_score e)) (cost there)
          then <[edge_to e :=
                  {| cost := cost_plus (cost here) (edge_score e);
                     edgeId := Some (edge_id e);
                     prevNode := Z.of_nat i |}]> mc
          else mc).
Proof. unfold relax. intros -> ->. by destruct (Num.ltb _ _). Qed.

Section ViterbiStructure.
Variables (E : list TokenEdge) (n : nat).
Hypothesis Hforward : forall e, e ∈ E -> edge_from e < edge_to e <= n.

Lemma initial_costs_inv : costs_inv E n 0 (initial_costs n).
Proof.
  unfold initial_costs. split.
  - by rewrite length_insert, length_replicate.
  - apply list_lookup_insert_eq. rewrite length_replicate. lia.
  - intros k ent Hk Hpos. left.
    rewrite list_lookup_insert_ne in Hk by lia.
    by apply lookup_replicate in Hk as [-> _].
Qed.

Lemma costs_inv_mono i i' mc : i <= i' -> costs_inv E n i mc -> costs_inv E n i' mc.
Proof.
  intros Hle [Hl Ho He]. split; [done..|].
  intros k ent Hk Hpos. destruct (He k ent Hk Hpos) as [->|(e & src & ? & ? & ?)].
  - by left.
  - right. exists e, src. split_and!; try tauto. lia.
Qed.

Lemma costs_inv_lookup i mc k :
  costs_inv E n i mc -> k <= n -> exists ent, mc !! k = Some ent.
Proof.
  intros [Hl _ _] Hk. apply lookup_lt_is_Some_2. lia.
Qed.

(** Relaxing an edge that leaves node [i] keeps the invariant and touches
    no entry up to [i]. *)
Lemma relax_inv i mc e :
  costs_inv E n i mc -> e ∈ E -> edge_from e = i ->
  exists mc', relax i mc e = Done mc' /\ costs_inv E n i mc' /\
    (forall k, k <= i -> mc' !! k = mc !! k).
Proof.
  intros Hinv He Hfrom. pose proof (Hforward e He) as Hfw.
  destruct (costs_inv_lookup i mc i Hinv) as [here Hhere]; [lia|].
  destruct (costs_inv_lookup i mc (edge_to e) Hinv) as [there Hthere]; [lia|].
  rewrite (relax_spec _ _ _ _ _ Hhere Hthere).
  destruct (Num.ltb _ _); [|by eauto].
  eexists. split; [done|]. destruct Hinv as [Hl Ho Hent]. split; [split|].
  - by rewrite length_insert.
  - rewrite list_lookup_insert_ne by lia. done.
  - intros k ent Hk Hpos. destruct (decide (k = edge_to e)) as [->|Hne].
    + rewrite list_lookup_insert_eq in Hk by lia. injection Hk as <-.
      right. exists e, here. split_and!; [done|lia|done| |by rewrite Hfrom].
      rewrite list_lookup_insert_ne by lia. by rewrite Hfrom.
    + rewrite list_lookup_insert_ne in Hk by done.
      destruct (Hent k ent Hk Hpos) as [->|(e' & src & ? & ? & ? & ? & ?)]; [by left|].
      right. exists e', src. split_and!; try done.
      rewrite list_lookup_insert_ne by lia. done.
  - intros k Hk. rewrite list_lookup_insert_ne by lia. done.
Qed.

Lemma relax_all_inv i mc outgoing :
  costs_inv E n i mc ->
  (forall e, e ∈ outgoing -> e ∈ E /\ edge_from e = i) ->
  exists mc', relax_all i outgoing mc = Done mc' /\ costs_inv E n i mc' /\
    (forall k, k <= i -> mc' !! k = mc !! k).
Proof.
  intros Hinv Hout. unfold relax_all.
  apply (foldl_outcome_ind (relax i)
           (fun _ mc' => costs_inv E n i mc' /\ forall k, k <= i -> mc' !! k = mc !! k)).
  - done.
  - intros done e rest mc1 -> [Hinv1 Hsame].
    destruct (Hout e) as [He Hfrom]; [apply elem_of_app; right; left|].
    destruct (relax_inv i mc1 e Hinv1 He Hfrom) as (mc2 & -> & Hinv2 & Hsame2).
    exists mc2. split_and!; [done..|]. intros k Hk. rewrite Hsame2 by done. auto.
Qed.

Lemma visit_inv i mc :
  i < n -> costs_inv E n i mc ->
  exists mc', visit E mc i = Done mc' /\ costs_inv E n (S i) mc'.
Proof.
  intros Hi Hinv. unfold visit.
  destruct (costs_inv_lookup i mc i Hinv) as [here ->]; [lia|].
  destruct (Num.eqb (cost here) PInf).
  - exists mc. split; [done|]. eapply costs_inv_mono; [|done]. lia.
  - destruct (relax_all_inv i mc (filter (fun e => edge_from e = i) E) Hinv)
      as (mc' & -> & Hinv' & _).
    { by intros e [? ?]%list_elem_of_filter. }
    exists mc'. split; [done|]. eapply costs_inv_mono; [|done]. lia.
Qed.

Lemma forward_pass_inv :
  exists mc, forward_pass E n = Done mc /\ costs_inv E n n mc.
Proof.
  unfold forward_pass.
  destruct (foldl_outcome_ind (visit E)
              (fun done mc => costs_inv E n (length done) mc)
              (seq 0 n) (initial_costs n)) as (mc & Hrun & Hinv).
  - apply initial_costs_inv.
  - intros done i rest mc Hsplit Hinv.
    assert (i = length done /\ i < n) as [-> Hi].
    { assert (seq 0 n !! length done = Some i) as Hl.
      { rewrite Hsplit. by rewrite list_lookup_middle. }
      apply lookup_seq in Hl. lia. }
    destruct (visit_inv _ mc Hi Hinv) as (mc' & -> & Hinv').
    exists mc'. split; [done|]. rewrite length_app. simpl.
    by rewrite Nat.add_1_r.
  - exists mc. split; [done|]. by rewrite length_seq in Hinv.
Qed.

(** Backtracking from a node of the text ends, without an error. *)
Lemma backtrack_inv i mc fuel (k : nat) path :
  costs_inv E n i mc -> k <= n -> k <= fuel ->
  exists p, backtrack fuel mc (Z.of_nat k) path = Done p.
Proof.
  intros Hinv. revert k path. induction fuel as [|fuel IH]; intros k path Hk Hfuel.
  - assert (k = 0) as -> by lia. simpl. eauto.
  - simpl. case_bool_decide as Hpos; [|by eauto].
    rewrite Nat2Z.id.
    destruct (costs_inv_lookup i mc k Hinv Hk) as [ent Hent]. rewrite Hent.
    destruct (inv_entry _ _ _ _ Hinv k ent Hent) as [->|(e & src & He & _ & Hto & _ & ->)];
      [lia|by eauto|].
    destruct (no_edge _); [by eauto|]. simpl.
    pose proof (Hforward e He). apply IH; lia.
Qed.

(** On the array the forward pass leaves, the traced backtracking loop
    takes the same steps as the plain one. *)
Lemma backtrack_traced_fst i mc fuel (k : nat) path frames :
  costs_inv E n i mc -> k <= n ->
  fst <$> backtrack_traced fuel mc (Z.of_nat k) path frames
  = backtrack fuel mc (Z.of_nat k) path.
Proof.
  intros Hinv. revert k path frames.
  induction fuel as [|fuel IH]; intros k path frames Hk; simpl.
  - by case_bool_decide.
  - case_bool_decide as Hpos; [|done]. rewrite Nat2Z.id.
    destruct (costs_inv_lookup i mc k Hinv Hk) as [ent Hent]. rewrite Hent.
    destruct (inv_entry _ _ _ _ Hinv k ent Hent) as [->|(e & src & He & _ & Hto & _ & ->)];
      [lia|done|].
    destruct (no_edge _); [done|]. simpl.
    pose proof (Hforward e He). apply IH. lia.
Qed.
End ViterbiStructure.

(** ** Tracing does not change the decoders *)

Lemma foldl_outcome_fst {S T X} (f : S * T -> X -> outcome (S * T))
    (g : S -> X -> outcome S) (l : list X) (init : outcome (S * T)) :
  (forall st x, fst <$> f st x = g st.1 x) ->
  fst <$> foldl (fun acc x => st ← acc; f st x) init l
  = foldl (fun acc x => s ← acc; g s x) (fst <$> init) l.
Proof.
  intros Hfg. revert init. induction l as [|x l IH]; intros init; [done|].
  simpl. rewrite IH. f_equal. destruct init as [st| |]; simpl; [apply Hfg|done..].
Qed.

Lemma foldl_outcome_Done {S X} (f : S -> X -> outcome S) (I : S -> Prop)
    (l : list X) (s0 r : S) :
  I s0 -> (forall s x s', I s -> f s x = Done s' -> I s') ->
  foldl (fun acc x => s ← acc; f s x) (Done s0) l = Done r -> I r.
Proof.
  intros H0 Hstep. revert r. induction l as [|x l IH] using rev_ind; intros r.
  - by intros [= <-].
  - rewrite foldl_app. simpl.
    destruct (foldl _ (Done s0) l) as [s| |]; simpl; [|done..].
    intros Hr. eapply Hstep; [|done]. by apply IH.
Qed.

Lemma relax_traced_fst i st e : fst <$> relax_traced i st e = relax i st.1 e.
Proof.
  destruct st as [mc fr]. unfold relax_traced, relax. simpl.
  destruct (mc !! i) as [here|]; [|done].
  destruct (mc !! edge_to e) as [there|]; [|done].
  by destruct (Num.ltb _ _).
Qed.

Lemma visit_traced_fst E st i : fst <$> visit_traced E st i = visit E st.1 i.
Proof.
  destruct st as [mc fr]. unfold visit_traced, visit. simpl.
  destruct (mc !! i) as [here|]; [|done].
  destruct (Num.eqb _ _); [done|].
  unfold relax_all. rewrite (foldl_outcome_fst _ (relax i)); [done|].
  apply relax_traced_fst.
Qed.

Lemma forward_pass_traced_fst E n :
  fst <$> forward_pass_traced E n = forward_pass E n.
Proof.
  unfold forward_pass_traced, forward_pass.
  rewrite (foldl_outcome_fst _ (visit E)); [done|]. apply visit_traced_fst.
Qed.

Lemma forward_pass_traced_frames E n st :
  forward_pass_traced E n = Done st -> no_partial_path st.
Proof.
  unfold forward_pass_traced.
  apply (foldl_outcome_Done (visit_traced E) no_partial_path).
  - constructor.
  - intros [mc fr] i st' Hst. unfold visit_traced.
    destruct (mc !! i) as [here|]; [|done].
    destruct (Num.eqb _ _); [by intros [= <-]|].
    apply (foldl_outcome_Done (relax_traced i) no_partial_path).
    + unfold no_partial_path in *. simpl in *.
      apply Forall_app. split; [done|]. by constructor.
    + intros [mc1 fr1] e st1 Hst1. unfold relax_traced.
      destruct (mc1 !! i) as [h|]; [|done].
      destruct (mc1 !! edge_to e) as [t|]; [|done].
      destruct (Num.ltb _ _); intros [= <-]; [|done].
      unfold no_partial_path in *. simpl in *.
      apply Forall_app. split; [done|]. by constructor.
Qed.

Lemma replay_snoc frames f : replay (frames ++ [f]) = partialPath f.
Proof. unfold replay. by rewrite last_snoc. Qed.

Lemma replay_no_partial_path st : no_partial_path st -> replay st.2 = [].
Proof.
  unfold no_partial_path, replay. intros Hall.
  destruct (last st.2) as [f|] eqn:Hl; [|done].
  apply last_Some in Hl as [l' Hl]. rewrite Hl in Hall.
  apply Forall_app in Hall as [_ Hf]. by inversion Hf.
Qed.

Lemma backtrack_traced_replay fuel mc curr path frames p fs :
  replay frames = path ->
  backtrack_traced fuel mc curr path frames = Done (p, fs) -> replay fs = p.
Proof.
  revert curr path frames. induction fuel as [|fuel IH]; intros curr path frames Hr; simpl.
  - case_bool_decide; [done|]. by intros [= <- <-].
  - case_bool_decide; [|by intros [= <- <-]].
    destruct (mc !! Z.to_nat curr) as [node|]; [|by intros [= <- <-]].
    destruct (no_edge node); [by intros [= <- <-]|].
    apply IH. by rewrite replay_snoc.
Qed.

Lemma greedy_loop_traced_fst fuel edges n current path frames :
  fst <$> greedy_loop_traced fuel edges n current path frames
  = greedy_loop fuel edges n current path.
Proof.
  revert current path frames. induction fuel as [|fuel IH]; intros current path frames; simpl.
  - by case_bool_decide.
  - case_bool_decide; [|done].
    destruct (filter _ edges) as [|c cs]; [done|].
    destruct (Array_sort by_span_desc (c :: cs)) as [|best sorted]; [done|].
    apply IH.
Qed.

Lemma greedy_loop_traced_replay fuel edges n current path frames p fs :
  replay frames = path ->
  greedy_loop_traced fuel edges n current path frames = Done (p, fs) ->
  replay fs = p.
Proof.
  revert current path frames. induction fuel as [|fuel IH]; intros current path frames Hr; simpl.
  - case_bool_decide; [done|]. by intros [= <- <-].
  - case_bool_decide; [|by intros [= <- <-]].
    destruct (filter _ edges) as [|c cs].
    { intros [= <- <-]. by rewrite replay_snoc. }
    destruct (Array_sort by_span_desc (c :: cs)) as [|best sorted]; [done|].
    apply IH. by rewrite replay_snoc.
Qed.

Lemma bind_Done {A B} (a : A) (k : A -> outcome B) : Done a ≫= k = k a.
Proof. done. Qed.

Lemma fst_fmap_Done {A B} (m : outcome (A * B)) a :
  fst <$> m = Done a -> exists b, m = Done (a, b).
Proof. destruct m as [[a' b]| |]; simpl; [|done..]. intros [= ->]. eauto. Qed.

Lemma viterbi_traced_agrees E n :
  (forall e, e ∈ E -> edge_from e < edge_to e <= n) ->
  exists p fr,
    (st ← forward_pass_traced E n;
     backtrack_traced n st.1 (Z.of_nat n) [] st.2) = Done (p, fr) /\
    viterbiDecode n E n = Done p /\ replay fr = p.
Proof.
  intros Hfw. unfold viterbiDecode.
  destruct (forward_pass_inv E n Hfw) as (mc & Hrun & Hinv).
  pose proof (forward_pass_traced_fst E n) as Hfst. rewrite Hrun in Hfst.
  apply fst_fmap_Done in Hfst as [fr0 Htr]. rewrite Hrun, Htr. simpl.
  destruct (backtrack_inv E n Hfw n mc n n [] Hinv) as [p Hp]; [lia..|].
  pose proof (backtrack_traced_fst E n Hfw n mc n n [] fr0 Hinv (le_n n)) as Hb.
  rewrite Hp in Hb. apply fst_fmap_Done in Hb as [fr Hb].
  exists p, fr. split_and!; [done..|].
  eapply backtrack_traced_replay; [|done].
  by apply (replay_no_partial_path (mc, fr0)), (forward_pass_traced_frames E n).
Qed.

Lemma greedy_traced_agrees E n :
  lattice_ok E n ->
  exists p fr,
    greedy_loop_traced n E n 0 [] [] = Done (p, fr) /\
    greedyDecode n E n = Done p /\ replay fr = p.
Proof.
  intros HE. unfold greedyDecode.
  destruct (greedy_loop_walk E n HE n 0 []) as (es & Hrun & _); [lia..|].
  pose proof (greedy_loop_traced_fst n E n 0 [] []) as Hfst. rewrite Hrun in Hfst.
  apply fst_fmap_Done in Hfst as [fr Htr].
  eexists _, fr. split_and!; [done..|].
  eapply (greedy_loop_traced_replay n E n 0 [] []); [done|apply Htr].
Qed.

(** [tokenize] returns a result on every input: no loop runs out of fuel
    and no property of [undefined] is read. *)
Lemma tokenize_total `{HostMath} `{HostString} (inputText : jsstring)
    (algo : AlgorithmType) (normalize : bool)
    (customVocab : option (list VocabItem)) :
  exists r, tokenize inputText algo normalize customVocab = Done r.
Proof.
  unfold tokenize.
  set (processedText := if normalize then normalizeText inputText else inputText).
  pose proof (buildLattice_ok processedText algo customVocab) as HE.
  set (E := lattice_edges (buildLattice processedText algo customVocab)) in *.
  case_bool_decide.
  - destruct (viterbi_traced_agrees E (length processedText)) as (p & _ & _ & -> & _);
      [apply HE|]. rewrite bind_Done. eauto.
  - destruct (greedy_traced_agrees E (length processedText) HE) as (p & _ & _ & -> & _).
    rewrite bind_Done. eauto.
Qed.

(** C5. For every input text, algorithm, normalize flag and vocabulary,
    [tokenizeWithTrace] returns a result identical to that of the untraced
    [tokenize] (graph, selected path and tokens); and replaying the frame
    list alone gives back the selected path, hence, by looking up the edge
    labels, the final token list. *)
Theorem trace_fidelity `{HostMath} `{HostString} (inputText : jsstring)
    (algo : AlgorithmType) (normalize : bool)
    (customVocab : option (list VocabItem)) :
  fst <$> tokenizeWithTrace inputText algo normalize customVocab
  = tokenize inputText algo normalize customVocab /\
  exists r frames,
    tokenizeWithTrace inputText algo normalize customVocab = Done (r, frames) /\
    tokenize inputText algo normalize customVocab = Done r /\
    selectedPath r = replay frames /\
    tokens r = label_of (edges (graph r)) <$> replay frames.
Proof.
  unfold tokenizeWithTrace, tokenize.
  set (processedText := if normalize then normalizeText inputText else inputText).
  pose proof (buildLattice_ok processedText algo customVocab) as HE.
  set (E := lattice_edges (buildLattice processedText algo customVocab)) in *.
  case_bool_decide as Halgo.
  - destruct (viterbi_traced_agrees E (length processedText)) as (p & fr & Htr & Hun & Hrep).
    { apply HE. }
    rewrite Hun. simpl.
    destruct (forward_pass_traced E (length processedText)) as [st| |]; [|done..].
    rewrite bind_Done in Htr. rewrite !bind_Done, Htr, bind_Done.
    split; [done|]. eexists _, fr. split_and!; [done..| |]; simpl; by rewrite Hrep.
  - destruct (greedy_traced_agrees E (length processedText) HE) as (p & fr & Htr & Hun & Hrep).
    rewrite Htr, Hun, !bind_Done.
    split; [done|]. eexists _, fr. split_and!; [done..| |]; simpl; by rewrite Hrep.
Qed.

(* ===================================================================== *)
(** * The greedy algorithms do not look at vocabulary scores *)
(* ===================================================================== *)

Lemma find_token_tokens v1 v2 s :
  token <$> v1 = token <$> v2 ->
  token <$> find_token v1 s = token <$> find_token v2 s.
Proof.
  unfold find_token. revert v2.
  induction v1 as [|x v1 IH]; intros [|y v2] Heq; try done.
  injection Heq as Hxy Heq. simpl. rewrite Hxy.
  destruct (bool_decide (token y = s)); [simpl; by f_equal|by apply IH].
Qed.

Lemma match_token_tokens v1 v2 algo i s :
  token <$> v1 = token <$> v2 ->
  token <$> match_token v1 algo i s = token <$> match_token v2 algo i s.
Proof.
  intros Heq. unfold match_token.
  pose proof (find_token_tokens v1 v2 s Heq) as H1.
  pose proof (find_token_tokens v1 v2 (js "##" ++ s) Heq) as H2.
  destruct (find_token v1 s), (find_token v2 s); try done.
  by destruct (_ && _).
Qed.

Lemma fill_table_from (f g : nat -> VocabItem -> number)
    (v1 v2 : list VocabItem) (k : nat) (tbl : table) :
  token <$> v1 = token <$> v2 ->
  (forall idx a b, f idx a = g idx b) ->
  foldl (fun (tbl : table) '(idx, v) => Object_set tbl (token v) (f idx v)) tbl
    (imap (fun i => pair (k + i)) v1)
  = foldl (fun (tbl : table) '(idx, v) => Object_set tbl (token v) (g idx v)) tbl
      (imap (fun i => pair (k + i)) v2).
Proof.
  intros Heq Hfg. revert v2 k tbl Heq.
  induction v1 as [|x v1 IH]; intros [|y v2] k tbl Heq; try done.
  injection Heq as Hxy Heq. simpl. rewrite Hxy, (Hfg _ x y).
  rewrite (imap_ext _ (fun i => pair (S k + i)) v1) by (intros; simpl; f_equal; lia).
  rewrite (imap_ext _ (fun i => pair (S k + i)) v2) by (intros; simpl; f_equal; lia).
  by apply IH.
Qed.

Lemma rank_table_tokens v1 v2 :
  token <$> v1 = token <$> v2 -> rank_table v1 = rank_table v2.
Proof.
  intros Heq. unfold rank_table, fill_table.
  by apply (fill_table_from _ _ v1 v2 0).
Qed.

Lemma matched_edge_tokens `{HostMath} algo up1 up2 br i j m1 m2 s :
  algo <> UNIGRAM -> token m1 = token m2 ->
  matched_edge algo up1 br i j m1 s = matched_edge algo up2 br i j m2 s.
Proof.
  intros Halgo Heq. unfold matched_edge, edge_score_of. rewrite Heq.
  by destruct algo.
Qed.

Lemma match_at_tokens `{HostMath} text algo v1 v2 up1 up2 br i j :
  algo <> UNIGRAM -> token <$> v1 = token <$> v2 ->
  match_at text algo v1 up1 br i j = match_at text algo v2 up2 br i j.
Proof.
  intros Halgo Heq. unfold match_at.
  pose proof (match_token_tokens v1 v2 algo i (substring text i j) Heq) as Hm.
  destruct (match_token v1 _ _ _) as [m1|], (match_token v2 _ _ _) as [m2|];
    try done.
  simpl in *. f_equal. apply matched_edge_tokens; congruence.
Qed.

Lemma position_edges_tokens `{HostMath} text algo v1 v2 up1 up2 br i :
  algo <> UNIGRAM -> token <$> v1 = token <$> v2 ->
  position_edges text algo v1 up1 br i = position_edges text algo v2 up2 br i.
Proof.
  intros Halgo Heq. unfold position_edges, matches_from.
  rewrite (list_omap_ext _ (match_at text algo v2 up2 br i) _ (end_positions text i)); [done|].
  apply Forall2_same_length_lookup. split; [done|].
  intros k a b Ha Hb. assert (a = b) as -> by congruence.
  by apply match_at_tokens.
Qed.

Lemma buildLattice_tokens `{HostMath} text algo v1 v2 :
  algo <> UNIGRAM -> token <$> v1 = token <$> v2 ->
  buildLattice text algo (Some v1) = buildLattice text algo (Some v2).
Proof.
  intros Halgo Heq.
  assert (lattice_edges (buildLattice text algo (Some v1))
          = lattice_edges (buildLattice text algo (Some v2))) as Hedges.
  { rewrite !lattice_edges_eq. simpl. rewrite (rank_table_tokens v1 v2 Heq).
    apply list_bind_ext; [|done]. intros i. by apply position_edges_tokens. }
  unfold buildLattice in *. simpl in *. by rewrite Hedges.
Qed.

(** C10. For the greedy algorithms (BPE and WordPiece) the result of
    [tokenize] does not depend on the vocabulary scores: two vocabularies
    with the same token strings in the same order give the same lattice,
    the same selected path (the same edge identifiers) and the same tokens,
    whatever their scores. *)
Theorem greedy_ignores_scores `{HostMath} `{HostString} (inputText : jsstring)
    (algo : AlgorithmType) (normalize : bool) (v1 v2 : list VocabItem) :
  algo <> UNIGRAM -> token <$> v1 = token <$> v2 ->
  tokenize inputText algo normalize (Some v1)
  = tokenize inputText algo normalize (Some v2).
Proof.
  intros Halgo Heq. unfold tokenize.
  by rewrite (buildLattice_tokens _ algo v1 v2 Halgo Heq).
Qed.

(* ===================================================================== *)
(** * Optimality of the Viterbi decoder *)
(* ===================================================================== *)

Section ViterbiOptimal.
Variables (E : list TokenEdge) (n : nat).
Hypothesis HE : lattice_ok E n.

Local Abbreviation Hforward := (ok_forward E n HE).

(** A walk whose edges start at or before node [i] either stays before [i],
    or ends with its one edge that leaves [i]. *)
Lemma walk_split_at i a k p :
  walk E a k p -> Forall (fun e => edge_from e <= i) p ->
  Forall (fun e => edge_from e < i) p \/
  exists p1 e, p = p1 ++ [e] /\ e ∈ E /\ edge_from e = i /\ edge_to e = k /\
    walk E a i p1 /\ Forall (fun e => edge_from e < i) p1.
Proof.
  induction 1 as [a|e es b He Hw IH]; intros Hall; [by left|].
  apply Forall_cons in Hall as [Hle Hall].
  pose proof (Hforward e He) as Hfw.
  destruct (IH Hall) as [Hlt|(p1 & e1 & -> & He1 & Hf1 & Ht1 & Hw1 & Hlt1)].
  - destruct (decide (edge_from e < i)) as [Hlt0|Hge]; [left; by constructor|].
    right. destruct es as [|e' es].
    + inversion Hw; subst. exists [], e. split_and!; try done; [lia|].
      replace i with (edge_from e) by lia. constructor.
    + inversion Hw; subst. apply Forall_cons in Hlt as [Hlt _]. lia.
  - right. exists (e :: p1), e1. split_and!; try done.
    + by constructor.
    + constructor; [|done].
      pose proof (walk_forward E n _ _ _ Hforward Hw1) as [? _]. lia.
Qed.

Lemma relaxed_from_le i done e : relaxed i done e -> edge_from e <= i.
Proof. intros [?|[? _]]; lia. Qed.

Lemma costs_nice_not_NaN mc k ent :
  costs_nice mc -> mc !! k = Some ent -> cost ent <> NaN.
Proof.
  intros Hnice Hk. destruct (Hnice k ent Hk) as [->|Hc]; [done|].
  by destruct (cost ent).
Qed.

(** Relaxing the edge [e0] out of node [i] keeps the entries optimal for
    the paths that may now use [e0]. *)
Lemma relax_opt i done mc here e0 :
  costs_inv E n i mc -> costs_nice mc -> costs_opt E (relaxed i done) mc ->
  mc !! i = Some here -> is_cost (cost here) -> e0 ∈ E -> edge_from e0 = i ->
  exists mc', relax i mc e0 = Done mc' /\ costs_inv E n i mc' /\
    (forall k, k <= i -> mc' !! k = mc !! k) /\
    costs_nice mc' /\ costs_opt E (relaxed i (done ++ [e0])) mc'.
Proof.
  intros Hinv Hnice Hopt Hhere Hch He0 Hfrom.
  destruct (relax_inv E n Hforward i mc e0 Hinv He0 Hfrom) as (mc' & Hrun & Hinv' & Hsame).
  exists mc'. split_and!; [done..| |].
  all: pose proof (Hforward e0 He0) as Hfw0;
    destruct (costs_inv_lookup E n i mc (edge_to e0) Hinv) as [there Hthere]; [lia|];
    rewrite (relax_spec _ _ _ _ _ Hhere Hthere) in Hrun;
    set (new := cost_plus (cost here) (edge_score e0)) in *;
    assert (edge_to e0 < length mc) as Hlen by (rewrite (inv_length _ _ _ _ Hinv); lia).
  - (* every entry still holds a cost or is unreached *)
    intros k ent Hk. destruct (Num.ltb new (cost there)) eqn:Hlt; injection Hrun as <-;
      [|by eapply Hnice].
    destruct (decide (k = edge_to e0)) as [->|Hne].
    + rewrite list_lookup_insert_eq in Hk by done. injection Hk as <-. right.
      simpl. by apply num_ltb_is_cost in Hlt.
    + rewrite list_lookup_insert_ne in Hk by done. by eapply Hnice.
  - (* optimality *)
    assert (forall k p ent, mc !! k = Some ent ->
              path_cost p = NaN \/ Num.le (cost ent) (path_cost p) ->
              exists ent', mc' !! k = Some ent' /\
                (path_cost p = NaN \/ Num.le (cost ent') (path_cost p))) as Hkeep.
    { intros k p ent Hk Hle.
      destruct (Num.ltb new (cost there)) eqn:Hlt; injection Hrun as <-; [|by eauto].
      destruct (decide (k = edge_to e0)) as [->|Hne].
      - rewrite list_lookup_insert_eq by done. eexists. split; [done|]. simpl.
        destruct Hle as [?|Hle]; [by left|right].
        assert (there = ent) as -> by congruence.
        eapply num_le_trans; [|done]. by apply num_ltb_true.
      - rewrite list_lookup_insert_ne by done. eauto. }
    intros k p Hw Hall.
    destruct (walk_split_at i 0 k p Hw) as [Hlt|(p1 & e & -> & He & Hf & Ht & Hw1 & Hlt1)].
    { eapply Forall_impl; [done|]. intros e. apply relaxed_from_le. }
    + destruct (Hopt k p Hw) as (ent & Hk & Hle).
      { eapply Forall_impl; [done|]. intros e ?. by left. }
      by eapply Hkeep.
    + apply Forall_app in Hall as [_ Hlast]. apply Forall_cons in Hlast as [Hlast _].
      destruct Hlast as [Hlast|[_ Hd]]; [lia|].
      apply elem_of_app in Hd as [Hd|Hd%list_elem_of_singleton].
      * destruct (Hopt k (p1 ++ [e]) Hw) as (ent & Hk & Hle).
        { apply Forall_app. split.
          - eapply Forall_impl; [done|]. intros e' ?. by left.
          - constructor; [by right|constructor]. }
        by eapply Hkeep.
      * subst e. destruct (Hopt i p1 Hw1) as (ent & Hi & Hle).
        { eapply Forall_impl; [done|]. intros e' ?. by left. }
        assert (ent = here) as -> by congruence.
        assert (exists ent', mc' !! k = Some ent' /\ cost ent' <> NaN /\
                  (new <> NaN -> Num.le (cost ent') new)) as (ent' & Hk' & Hnn & Hnew).
        { subst k. destruct (Num.ltb new (cost there)) eqn:Hlt; injection Hrun as <-.
          - rewrite list_lookup_insert_eq by done. eexists. split; [done|]. simpl.
            apply num_ltb_true in Hlt as (_ & ? & _). split; [done|].
            intros _. by apply num_le_refl.
          - exists there. pose proof (costs_nice_not_NaN _ _ _ Hnice Hthere).
            split_and!; [done..|]. intros ?. by apply num_ltb_false. }
        exists ent'. split; [done|]. rewrite path_cost_snoc.
        destruct Hle as [->|Hle]; [left; apply cost_plus_NaN_l|].
        destruct (num_NaN_dec (cost_plus (path_cost p1) (edge_score e0))) as [?|Hp];
          [by left|right].
        destruct (num_NaN_dec new) as [Hn|Hn].
        -- destruct (cost_plus_NaN _ _ _ Hn Hle) as [?|Hinf]; [done|].
           rewrite Hinf. by apply num_le_PInf.
        -- eapply num_le_trans; [by apply Hnew|]. by apply cost_plus_mono.
Qed.

Lemma relax_all_opt i mc here :
  costs_inv E n i mc -> costs_nice mc -> costs_opt E (relaxed i []) mc ->
  mc !! i = Some here -> is_cost (cost here) ->
  exists mc', relax_all i (filter (fun e => edge_from e = i) E) mc = Done mc' /\
    costs_inv E n i mc' /\ costs_nice mc' /\
    costs_opt E (relaxed i (filter (fun e => edge_from e = i) E)) mc'.
Proof.
  intros Hinv Hnice Hopt Hhere Hch. unfold relax_all.
  destruct (foldl_outcome_ind (relax i)
    (fun done mc' => costs_inv E n i mc' /\ (forall k, k <= i -> mc' !! k = mc !! k) /\
                     costs_nice mc' /\ costs_opt E (relaxed i done) mc')
    (filter (fun e => edge_from e = i) E) mc) as (mc' & Hrun & ? & _ & ? & ?).
  - done.
  - intros done e rest mc1 Hsplit (Hinv1 & Hsame1 & Hnice1 & Hopt1).
    assert (e ∈ filter (fun e => edge_from e = i) E) as [Hfrom He]%list_elem_of_filter.
    { rewrite Hsplit. apply elem_of_app. right. left. }
    destruct (relax_opt i done mc1 here e) as (mc2 & -> & ? & Hsame2 & ? & ?); try done.
    { by rewrite Hsame1. }
    exists mc2. split_and!; try done. intros k Hk. rewrite Hsame2 by done. auto.
  - eauto.
Qed.

Lemma visit_opt i mc :
  i < n -> costs_inv E n i mc -> costs_nice mc -> costs_opt E (relaxed i []) mc ->
  exists mc', visit E mc i = Done mc' /\ costs_inv E n (S i) mc' /\
    costs_nice mc' /\ costs_opt E (relaxed (S i) []) mc'.
Proof.
  intros Hi Hinv Hnice Hopt. unfold visit.
  destruct (costs_inv_lookup E n i mc i Hinv) as [here Hhere]; [lia|]. rewrite Hhere.
  destruct (Num.eqb (cost here) PInf) eqn:Hinf.
  - apply num_eqb_PInf in Hinf.
    exists mc. split_and!; [done| |done|].
    { eapply costs_inv_mono; [|done]. lia. }
    intros k p Hw Hall.
    destruct (walk_split_at i 0 k p Hw) as [Hlt|(p1 & e & -> & He & Hf & Ht & Hw1 & Hlt1)].
    { eapply Forall_impl; [done|]. intros e [?|[_ Hn]]; [lia|].
      by apply elem_of_nil in Hn. }
    + apply Hopt; [done|]. eapply Forall_impl; [done|]. intros e ?. by left.
    + destruct (Hopt i p1 Hw1) as (ent & Hent & Hle).
      { eapply Forall_impl; [done|]. intros e' ?. by left. }
      assert (ent = here) as -> by congruence. rewrite Hinf in Hle.
      pose proof (Hforward e He) as Hfw.
      destruct (costs_inv_lookup E n i mc k Hinv) as [there Hthere]; [lia|].
      exists there. split; [done|]. rewrite path_cost_snoc.
      destruct Hle as [Hp|Hp%num_le_PInf_inv]; rewrite Hp;
        [left; apply cost_plus_NaN_l|].
      destruct (cost_plus_PInf_l (edge_score e)) as [Hs|Hs]; rewrite Hs;
        [by left|right].
      apply num_le_PInf. by eapply costs_nice_not_NaN.
  - assert (is_cost (cost here)) as Hch.
    { destruct (Hnice _ _ Hhere) as [Hu|?]; [by rewrite Hu in Hinf|done]. }
    destruct (relax_all_opt i mc here) as (mc' & -> & Hinv' & Hnice' & Hopt'); try done.
    exists mc'. split_and!; [done| |done|].
    { eapply costs_inv_mono; [|done]. lia. }
    intros k p Hw Hall. apply Hopt'; [done|].
    apply Forall_forall. intros e He.
    pose proof (proj1 (Forall_forall _ _) Hall e He) as [Hlt|[? Hnil]].
    + destruct (decide (edge_from e < i)); [by left|]. right. split; [lia|].
      apply list_elem_of_filter. split; [lia|]. by eapply walk_elem.
    + by apply elem_of_nil in Hnil.
Qed.

Lemma initial_costs_opt :
  costs_nice (initial_costs n) /\ costs_opt E (relaxed 0 []) (initial_costs n).
Proof.
  pose proof (initial_costs_inv E n) as Hinv. split.
  - intros k ent Hk. destruct k as [|k].
    + rewrite (inv_origin _ _ _ _ Hinv) in Hk. injection Hk as <-. by right.
    + unfold initial_costs in Hk. rewrite list_lookup_insert_ne in Hk by lia.
      apply lookup_replicate in Hk as [-> _]. by left.
  - intros k p Hw Hall. inversion Hw as [a|e es b He Hw' Hfrom]; subst.
    + exists origin. split; [apply Hinv|]. right. simpl. apply Qle_refl.
    + apply Forall_cons in Hall as [[?|[_ Hnil]] _]; [lia|].
      by apply elem_of_nil in Hnil.
Qed.

Lemma forward_pass_opt :
  exists mc, forward_pass E n = Done mc /\ costs_inv E n n mc /\
    costs_nice mc /\ costs_opt E (relaxed n []) mc.
Proof.
  unfold forward_pass.
  destruct (foldl_outcome_ind (visit E)
    (fun done mc => costs_inv E n (length done) mc /\ costs_nice mc /\
                    costs_opt E (relaxed (length done) []) mc)
    (seq 0 n) (initial_costs n)) as (mc & Hrun & Hfinal).
  - split; [apply initial_costs_inv|apply initial_costs_opt].
  - intros done i rest mc Hsplit (Hinv & Hnice & Hopt).
    assert (i = length done /\ i < n) as [-> Hi].
    { assert (seq 0 n !! length done = Some i) as Hl.
      { rewrite Hsplit. by rewrite list_lookup_middle. }
      apply lookup_seq in Hl. lia. }
    destruct (visit_opt _ mc Hi Hinv Hnice Hopt) as (mc' & -> & ?).
    exists mc'. split; [done|]. rewrite length_app. simpl.
    by rewrite Nat.add_1_r.
  - exists mc. split; [done|]. by rewrite length_seq in Hfinal.
Qed.

(** Backtracking from a reached node returns a walk from node 0 whose
    cost is the cost recorded for the node. *)
Lemma backtrack_path i mc fuel (k : nat) ent acc :
  costs_inv E n i mc -> costs_nice mc ->
  mc !! k = Some ent -> is_cost (cost ent) -> k <= fuel ->
  exists es, walk E 0 k es /\
    backtrack fuel mc (Z.of_nat k) acc = Done ((edge_id <$> es) ++ acc) /\
    path_cost es = cost ent.
Proof.
  intros Hinv Hnice. revert k ent acc.
  induction fuel as [|fuel IH]; intros k ent acc Hk Hc Hfuel.
  - assert (k = 0) as -> by lia. exists []. split_and!; [constructor|done|].
    rewrite (inv_origin _ _ _ _ Hinv) in Hk. by injection Hk as <-.
  - destruct k as [|k].
    { exists []. split_and!; [constructor|done|].
      rewrite (inv_origin _ _ _ _ Hinv) in Hk. by injection Hk as <-. }
    cbn [backtrack]. rewrite bool_decide_true by lia. rewrite Nat2Z.id, Hk.
    destruct (inv_entry _ _ _ _ Hinv _ _ Hk) as [->|(e & src & He & _ & Hto & Hsrc & ->)];
      [lia|done|].
    simpl in Hc. apply is_cost_plus_inv in Hc.
    pose proof (Hforward e He) as Hfw.
    destruct (IH (edge_from e) src (edge_id e :: acc) Hsrc Hc) as (es & Hw & Hrun & Hcost);
      [lia|].
    assert (no_edge {| cost := cost_plus (cost src) (edge_score e);
                       edgeId := Some (edge_id e);
                       prevNode := Z.of_nat (edge_from e) |} = false) as ->.
    { unfold no_edge. simpl. pose proof (ok_id_nonempty _ _ HE e He).
      by destruct (edge_id e). }
    cbn -[backtrack Z.of_nat]. exists (es ++ [e]). split_and!.
    + by apply walk_snoc.
    + etrans; [apply Hrun|]. rewrite fmap_app. simpl. by rewrite <- app_assoc.
    + rewrite path_cost_snoc. by rewrite Hcost.
Qed.

Lemma walk_all_relaxed p : walk E 0 n p -> Forall (relaxed n []) p.
Proof.
  intros Hw. apply Forall_forall. intros e He. left.
  pose proof (Hforward e (walk_elem _ _ _ _ _ Hw He)). lia.
Qed.

(** What the decoder returns, whatever the scores: a complete path whose
    cost no complete path's cost is below, where that is a number; or,
    where every complete path has a cost that is no number or is infinite,
    the empty path. *)
Lemma viterbi_spec :
  exists es, viterbiDecode n E n = Done (edge_id <$> es) /\
    ((walk E 0 n es /\ is_cost (path_cost es) /\
      forall p, walk E 0 n p ->
        path_cost p = NaN \/ Num.le (path_cost es) (path_cost p))
     \/
     (es = [] /\ 0 < n /\
      forall p, walk E 0 n p -> path_cost p = NaN \/ path_cost p = PInf)).
Proof.
  destruct forward_pass_opt as (mc & Hrun & Hinv & Hnice & Hopt).
  destruct (costs_inv_lookup E n n mc n Hinv) as [ent Hent]; [lia|].
  unfold viterbiDecode. rewrite Hrun, bind_Done.
  destruct (Hnice n ent Hent) as [->|Hc].
  - exists []. assert (0 < n) as Hpos.
    { destruct n; [|lia]. by rewrite (inv_origin _ _ _ _ Hinv) in Hent. }
    split; [|right; split_and!; [done..|]].
    + destruct n as [|m]; [lia|]. cbn [backtrack].
      rewrite bool_decide_true by lia. by rewrite Nat2Z.id, Hent.
    + intros p Hp. destruct (Hopt n p Hp (walk_all_relaxed p Hp)) as (ent' & Hent' & Hle).
      assert (ent' = unreached) as -> by congruence.
      destruct Hle as [?|?%num_le_PInf_inv]; auto.
  - destruct (backtrack_path n mc n n ent [] Hinv Hnice Hent Hc) as (es & Hw & Hb & Hcost);
      [lia|].
    exists es. rewrite Hb, app_nil_r. split; [done|]. left. rewrite Hcost.
    split_and!; [done..|]. intros p Hp.
    destruct (Hopt n p Hp (walk_all_relaxed p Hp)) as (ent' & Hent' & Hle).
    by assert (ent' = ent) as -> by congruence.
Qed.

(** Where the score of every edge is a rational or [-Infinity], the
    decoder returns a complete path of least cost. *)
Lemma viterbi_optimal :
  (forall e, e ∈ E -> exists s, edge_score e = VNumber s /\ is_cost s) ->
  exists es, viterbiDecode n E n = Done (edge_id <$> es) /\ walk E 0 n es /\
    forall p, walk E 0 n p -> Num.le (path_cost es) (path_cost p).
Proof.
  intros Hscore.
  assert (forall p, walk E 0 n p -> is_cost (path_cost p)) as Hcost.
  { intros p Hw. apply path_cost_is_cost. intros e He.
    apply Hscore. by eapply walk_elem. }
  destruct viterbi_spec as (es & Hrun & [(Hw & _ & Hopt)|(_ & _ & Hnone)]).
  - exists es. split_and!; [done..|]. intros p Hp.
    destruct (Hopt p Hp) as [Hn|?]; [|done].
    pose proof (Hcost p Hp) as Hc. by rewrite Hn in Hc.
  - destruct (greedy_loop_walk E n HE n 0 []) as (es0 & _ & Hw0 & _); [lia..|].
    pose proof (Hcost es0 Hw0) as Hc.
    destruct (Hnone es0 Hw0) as [Hn|Hn]; by rewrite Hn in Hc.
Qed.
End ViterbiOptimal.

(* ===================================================================== *)
(** * Lookup tables *)
(* ===================================================================== *)

Lemma sort_insert_perm {A} (cmp : A -> A -> number) x l :
  sort_insert cmp x l ≡ₚ x :: l.
Proof.
  induction l as [|y l IH]; cbn [sort_insert]; [reflexivity|].
  destruct (Num.ltb (Fin 0) (cmp x y)); [|reflexivity].
  rewrite IH. apply Permutation_swap.
Qed.

Lemma Array_sort_perm {A} (cmp : A -> A -> number) l : Array_sort cmp l ≡ₚ l.
Proof.
  unfold Array_sort. induction l as [|x l IH]; cbn [foldr]; [reflexivity|].
  by rewrite sort_insert_perm, IH.
Qed.

Lemma Object_set_lookup tbl k x t :
  t <> js "__proto__" ->
  Object_set tbl k x !! t = if decide (k = t) then Some x else tbl !! t.
Proof.
  intros Ht. unfold Object_set. case_bool_decide as Hk.
  - destruct (decide (k = t)); [congruence|done].
  - destruct (decide (k = t)) as [->|?];
      [by rewrite lookup_insert_eq|by rewrite lookup_insert_ne].
Qed.

Lemma Object_set_proto tbl k x :
  Object_set tbl k x !! js "__proto__" = tbl !! js "__proto__".
Proof.
  unfold Object_set. case_bool_decide as Hk; [done|]. by rewrite lookup_insert_ne.
Qed.

(** A read of a key the table holds as its own yields the number stored. *)
Lemma Object_get_own tbl t x :
  t <> js "__proto__" -> tbl !! t = Some x -> Object_get tbl t = Some (VNumber x).
Proof. intros Ht Hx. unfold Object_get. by rewrite bool_decide_false, Hx. Qed.

Lemma fill_table_lookup_from (f : nat -> VocabItem -> number)
    (l : list (nat * VocabItem)) (tbl : table) (t : jsstring) :
  t <> js "__proto__" ->
  foldl (fun (tbl : table) '(idx, v) => Object_set tbl (token v) (f idx v)) tbl l !! t
  = match last (filter (fun iv => token iv.2 = t) l) with
    | Some iv => Some (f iv.1 iv.2)
    | None => tbl !! t
    end.
Proof.
  intros Ht. revert tbl. induction l as [|[idx v] l IH]; intros tbl; [done|].
  cbn [foldl]. rewrite IH, Object_set_lookup by done.
  destruct (decide (token v = t)) as [Heq|Hne].
  - rewrite filter_cons_True by done. rewrite last_cons.
    by destruct (last _) as [iv|].
  - rewrite filter_cons_False by done. done.
Qed.

Lemma fill_table_lookup (f : nat -> VocabItem -> number)
    (vocab : list VocabItem) (t : jsstring) :
  t <> js "__proto__" ->
  fill_table f vocab ∅ !! t = (fun iv => f iv.1 iv.2) <$> last_entry vocab t.
Proof.
  intros Ht. unfold fill_table, last_entry. rewrite fill_table_lookup_from by done.
  by destruct (last _).
Qed.

Lemma last_entry_lookup vocab t k v :
  last_entry vocab t = Some (k, v) -> vocab !! k = Some v /\ token v = t.
Proof.
  unfold last_entry. intros Hl.
  assert ((k, v) ∈ filter (fun iv => token iv.2 = t) (imap pair vocab)) as Hin.
  { apply last_Some in Hl as [l' ->]. apply elem_of_app. right. left. }
  apply list_elem_of_filter in Hin as [Ht Hin].
  apply elem_of_lookup_imap in Hin as (i & x & [= -> ->] & Hx). done.
Qed.

Lemma last_entry_is_Some vocab v : v ∈ vocab -> is_Some (last_entry vocab (token v)).
Proof.
  intros (i & Hi)%list_elem_of_lookup. unfold last_entry.
  destruct (last _) as [iv|] eqn:Hl; [by eexists|].
  apply last_None in Hl.
  assert ((i, v) ∈ filter (fun iv => token iv.2 = token v) (imap pair vocab)) as Hin.
  { apply list_elem_of_filter. split; [done|]. apply elem_of_lookup_imap. eauto. }
  rewrite Hl in Hin. by apply elem_of_nil in Hin.
Qed.

(** Every value of a table filled from a vocabulary is one of the values
    written. *)
Lemma fill_table_values (P : number -> Prop) (f : nat -> VocabItem -> number)
    (vocab : list VocabItem) (tbl : table) :
  (forall t p, tbl !! t = Some p -> P p) -> (forall idx v, P (f idx v)) ->
  forall t p, fill_table f vocab tbl !! t = Some p -> P p.
Proof.
  unfold fill_table. generalize (imap pair vocab) as l.
  intros l. revert tbl. induction l as [|[idx v] l IH]; intros tbl Htbl Hf; [done|].
  simpl. apply IH; [|done]. intros t p. unfold Object_set.
  case_bool_decide; [apply Htbl|].
  destruct (decide (token v = t)) as [->|Hne].
  - rewrite lookup_insert_eq. by intros [= <-].
  - rewrite lookup_insert_ne by done. apply Htbl.
Qed.

(** A table filled from a vocabulary holds, as its own, every token of the
    vocabulary but [__proto__]: a read of a vocabulary token yields a
    number, unless the token is [__proto__]. *)
Lemma fill_table_get (f : nat -> VocabItem -> number) (vocab : list VocabItem)
    (v : VocabItem) :
  v ∈ vocab -> token v <> js "__proto__" ->
  exists x, Object_get (fill_table f vocab ∅) (token v) = Some (VNumber x) /\
    fill_table f vocab ∅ !! token v = Some x.
Proof.
  intros Hv Ht. destruct (last_entry_is_Some vocab v Hv) as [iv Hiv].
  exists (f iv.1 iv.2).
  assert (fill_table f vocab ∅ !! token v = Some (f iv.1 iv.2)) as Hl.
  { by rewrite fill_table_lookup, Hiv. }
  split; [|done]. by apply Object_get_own.
Qed.

(** What the rank table and the probability table hold for a token. *)
Lemma rank_table_lookup vocab t :
  t <> js "__proto__" ->
  rank_table vocab !! t = (fun iv => Num.of_nat iv.1) <$> last_entry vocab t.
Proof. intros Ht. unfold rank_table. by rewrite fill_table_lookup. Qed.

Lemma softmax_table_lookup `{HostMath} vocab t :
  t <> js "__proto__" ->
  softmax_table vocab ((fun v => Math_exp (score v)) <$> vocab) !! t
  = (fun iv => Num.fdiv (Math_exp (score iv.2))
                 (exp_sum ((fun v => Math_exp (score v)) <$> vocab)))
      <$> last_entry vocab t.
Proof.
  intros Ht. unfold softmax_table. rewrite fill_table_lookup by done.
  destruct (last_entry vocab t) as [[k v]|] eqn:Hl; [|done]. simpl.
  apply last_entry_lookup in Hl as [Hk _].
  by rewrite list_lookup_fmap, Hk.
Qed.

(* ===================================================================== *)
(** * Scores of the Unigram lattice *)
(* ===================================================================== *)

Lemma nonneg_rounded a : nonneg_or_nan a -> nonneg_or_nan (Num.rounded a).
Proof.
  unfold nonneg_or_nan. intros [->|Ha]; [by left|]. right.
  destruct a as [x| | |]; try done. cbn [Num.le] in Ha. unfold Num.rounded.
  pose proof (nearest_nonneg x Ha) as Hr.
  destruct (Qle_bool (Num.pow2 1024) (Num.nearest x)); [done|].
  destruct (Qle_bool (Num.nearest x) (- Num.pow2 1024)) eqn:Hlow; [|done].
  apply Qle_bool_iff in Hlow. pose proof (pow2_pos 1024) as Hp.
  exfalso. apply (Qlt_irrefl 0).
  eapply Qle_lt_trans; [apply Hr|]. eapply Qle_lt_trans; [apply Hlow|].
  by apply (Qopp_lt_compat 0).
Qed.

Lemma nonneg_add a b : nonneg_or_nan a -> nonneg_or_nan b -> nonneg_or_nan (Num.fadd a b).
Proof.
  intros Ha Hb. apply nonneg_rounded.
  revert Ha Hb. unfold nonneg_or_nan.
  intros [->|Ha] [->|Hb]; try (by left); try (destruct a; by left).
  destruct a, b; simpl in *; try done; try (by right).
  right. replace 0%Q with (0 + 0)%Q by done. by apply Qplus_le_compat.
Qed.

Lemma nonneg_sum es :
  Forall nonneg_or_nan es -> nonneg_or_nan (foldl Num.fadd (Fin 0) es).
Proof.
  assert (forall acc, nonneg_or_nan acc -> Forall nonneg_or_nan es ->
            nonneg_or_nan (foldl Num.fadd acc es)) as Hgen.
  { induction es as [|e es IH]; intros acc Hacc Hall; [done|].
    apply Forall_cons in Hall as [He Hall]. simpl. apply IH; [|done].
    by apply nonneg_add. }
  apply Hgen. right. simpl. apply Qle_refl.
Qed.

Lemma positive_or_else p d :
  nonneg_or_nan p -> Num.ltb (Fin 0) d = true ->
  Num.ltb (Fin 0) (Num.or_else p d) = true.
Proof.
  unfold Num.or_else. intros [->|Hp] Hd; [done|].
  destruct p as [x| | |]; simpl in *; try done.
  destruct (Qeq_bool x 0) eqn:Hx; simpl; [done|].
  apply Qltb_lt. apply Qeq_bool_neq in Hx.
  apply Qle_lt_or_eq in Hp as [?|Heq]; [done|]. destruct Hx. by symmetry.
Qed.

Lemma nonneg_div e s :
  nonneg_or_nan e -> Num.ltb (Fin 0) s = true -> nonneg_or_nan (Num.fdiv e s).
Proof.
  intros He Hs. apply nonneg_rounded. revert He Hs.
  unfold nonneg_or_nan. intros [->|He] Hs; [by left|].
  destruct e as [x| | |], s as [y| | |]; simpl in *; try done;
    try (by left); try (right; simpl; apply Qle_refl).
  - apply Qltb_lt in Hs.
    assert (Qeq_bool y 0 = false) as ->.
    { apply not_true_iff_false. intros Hy%Qeq_bool_iff. rewrite Hy in Hs.
      by apply Qlt_irrefl in Hs. }
    right. simpl. apply Qle_shift_div_l; [done|]. by rewrite Qmult_0_l.
  - apply Qltb_lt in Hs.
    assert (Num.Qltb y 0 = false) as ->; [|by right].
    apply Qltb_ge. by apply Qlt_le_weak.
Qed.

Lemma floor_probability_positive : Num.ltb (Fin 0) Num.floor_probability = true.
Proof. by vm_compute. Qed.

Section UnigramScores.
Context `{HostMath}.
Hypothesis Hexp : exp_not_negative.
Hypothesis Hlog : log_of_positive.

Lemma softmax_table_nonneg (vocab : list VocabItem) t p :
  softmax_table vocab ((fun v => Math_exp (score v)) <$> vocab) !! t = Some p ->
  nonneg_or_nan p.
Proof.
  unfold softmax_table. apply fill_table_values; [done|].
  intros idx _.
  assert (Forall nonneg_or_nan ((fun v => Math_exp (score v)) <$> vocab)) as Hall.
  { apply Forall_fmap, Forall_forall. intros v _. apply Hexp. }
  apply nonneg_div.
  - destruct (_ !! idx) as [e|] eqn:He; simpl; [|by left].
    eapply Forall_lookup_1; done.
  - unfold exp_sum. apply positive_or_else; [|done]. by apply nonneg_sum.
Qed.

(** The score of a matched edge whose token the probability table holds
    as its own. *)
Lemma unigram_score_is_cost (unigramProbs bpeRanks : table) m substr p :
  (forall t p, unigramProbs !! t = Some p -> nonneg_or_nan p) ->
  Object_get unigramProbs (token m) = Some (VNumber p) ->
  exists s, edge_score_of UNIGRAM unigramProbs bpeRanks m substr = VNumber s /\
    is_cost s.
Proof.
  intros Htbl Hget. unfold edge_score_of. rewrite Hget. eexists. split; [done|].
  cbn [or_floor ToNumber].
  assert (Num.ltb (Fin 0) (Num.or_else p Num.floor_probability) = true) as Hpos.
  { apply positive_or_else; [|apply floor_probability_positive].
    unfold Object_get in Hget. case_bool_decide; [done|].
    destruct (unigramProbs !! token m) as [q|] eqn:Hq; [|by case_bool_decide].
    injection Hget as <-. by eapply Htbl. }
  destruct (Hlog _ Hpos) as [Hn Hi].
  by destruct (Math_log _).
Qed.

(** With no token [__proto__] in the vocabulary, the score of every edge
    of the Unigram lattice is a rational or [-Infinity]. *)
Lemma unigram_lattice_scores text customVocab e :
  proto_free customVocab ->
  e ∈ lattice_edges (buildLattice text UNIGRAM customVocab) ->
  exists s, edge_score e = VNumber s /\ is_cost s.
Proof.
  intros Hfree (i & Hi & [He|[_ ->]]%elem_of_position_edges)%elem_of_lattice;
    [|by eexists].
  apply elem_of_matches_from in He as (j & _ & _ & He).
  apply match_at_Some in He as (m & Hm & ->).
  apply match_token_Some in Hm as [Hm _]. cbn [edge_score matched_edge].
  destruct customVocab as [cv|]; cbn [scoring_tables fst snd default from_option id] in *.
  - destruct (fill_table_get
                (fun idx _ => Num.fdiv (default NaN (((fun v => Math_exp (score v)) <$> cv) !! idx))
                                (exp_sum ((fun v => Math_exp (score v)) <$> cv)))
                cv m Hm) as (p & Hget & _).
    { intros Heq. apply Hfree. rewrite <- Heq. by apply list_elem_of_fmap_2. }
    eapply unigram_score_is_cost; [|apply Hget].
    intros t q. apply softmax_table_nonneg.
  - assert (m ∈ FALLBACK_VOCAB) as Hm'.
    { unfold MOCK_VOCAB in Hm. by rewrite Array_sort_perm in Hm. }
    destruct (fill_table_get
                (fun idx _ => Num.fdiv (default NaN (((fun v => Math_exp (score v)) <$> FALLBACK_VOCAB) !! idx))
                                (exp_sum ((fun v => Math_exp (score v)) <$> FALLBACK_VOCAB)))
                FALLBACK_VOCAB m Hm') as (p & Hget & _).
    { intros Heq. apply Hfree. rewrite <- Heq. by apply list_elem_of_fmap_2. }
    eapply unigram_score_is_cost; [|apply Hget].
    intros t q. apply softmax_table_nonneg.
Qed.
End UnigramScores.

(* ===================================================================== *)
(** * The selected path *)
(* ===================================================================== *)

Lemma find_by_id E n e :
  lattice_ok E n -> e ∈ E ->
  List.find (fun e' => bool_decide (edge_id e' = edge_id e)) E = Some e.
Proof.
  intros HE He. destruct (find _ E) as [e'|] eqn:Hf.
  - apply find_some in Hf as [He'%list_elem_of_In Hid%bool_decide_eq_true].
    by rewrite (ok_ids _ _ HE e' e He' He Hid).
  - apply list_elem_of_In in He. pose proof (find_none _ _ Hf e He) as Hb.
    simpl in Hb. by rewrite bool_decide_true in Hb.
Qed.

Lemma resolve_ids E n (es : list TokenEdge) :
  lattice_ok E n -> (forall e, e ∈ es -> e ∈ E) ->
  omap (fun id => List.find (fun e => bool_decide (edge_id e = id)) E) (edge_id <$> es)
  = es.
Proof.
  intros HE. induction es as [|e es IH]; intros Hes; [done|]. csimpl.
  rewrite (find_by_id E n e HE) by (apply Hes; left).
  f_equal. apply IH. intros e' He'. apply Hes. by right.
Qed.

(** What [tokenize] returns, given the path the decoder finds. *)
Lemma tokenize_with_path `{HostMath} `{HostString} (inputText : jsstring)
    (algo : AlgorithmType) (normalize : bool)
    (customVocab : option (list VocabItem)) (es : list TokenEdge) :
  let processedText := if normalize then normalizeText inputText else inputText in
  let E := lattice_edges (buildLattice processedText algo customVocab) in
  (if bool_decide (algo = UNIGRAM)
   then viterbiDecode (length processedText) E (length processedText)
   else greedyDecode (length processedText) E (length processedText))
  = Done (edge_id <$> es) ->
  (forall e, e ∈ es -> e ∈ E) ->
  exists r, tokenize inputText algo normalize customVocab = Done r /\
    text (graph r) = processedText /\ edges (graph r) = E /\
    selected_edges r = es /\ selectedPath r = edge_id <$> es /\
    tokens r = edge_label <$> es.
Proof.
  intros processedText E Hrun Hes. unfold tokenize.
  fold processedText. fold E. rewrite Hrun, bind_Done.
  pose proof (buildLattice_ok processedText algo customVocab) as HE. fold E in HE.
  eexists. split; [done|]. simpl. split_and!; try done.
  - unfold selected_edges. simpl. by eapply resolve_ids.
  - by eapply label_of_ids.
Qed.

(** C4. At every step of the greedy decoder (used for BPE and WordPiece)
    the chosen edge is an edge of maximum span [to - from] among the edges
    that leave the current node, the first such in lattice order; the choice
    looks at these edges only; and at a dead end the decoder stops and
    returns the path accumulated so far.  Accordingly every edge [tokenize]
    selects for BPE or WordPiece is the first longest edge leaving its start
    node. *)
Theorem greedy_locality :
  (forall (fuel : nat) (edges : list TokenEdge) (n current : nat)
          (path : list jsstring),
     let candidates := filter (fun e => edge_from e = current) edges in
     greedy_loop (S fuel) edges n current path
     = (if bool_decide (current < n) then
          match first_longest candidates with
          | Some best =>
              greedy_loop fuel edges n (edge_to best) (path ++ [edge_id best])
          | None => Done path
          end
        else Done path) /\
     (first_longest candidates = None <-> candidates = []) /\
     (forall best, first_longest candidates = Some best <->
        exists before after, candidates = before ++ best :: after /\
          (forall e, e ∈ before -> (span e < span best)%Z) /\
          (forall e, e ∈ after -> (span e <= span best)%Z))) /\
  (forall (M : HostMath) (S : HostString) (inputText : jsstring)
          (algo : AlgorithmType) (normalize : bool)
          (customVocab : option (list VocabItem)),
     algo <> UNIGRAM ->
     exists r,
       tokenize inputText algo normalize customVocab = Done r /\
       Forall (greedy_choice (edges (graph r))) (selected_edges r)).
Proof.
  split.
  - intros fuel edges n current path candidates. split_and!.
    + apply greedy_loop_step.
    + apply first_longest_None.
    + intros best. apply first_longest_Some.
  - intros M S inputText algo normalize customVocab Halgo.
    set (processedText := if normalize then normalizeText inputText else inputText).
    pose proof (buildLattice_ok processedText algo customVocab) as HE.
    destruct (greedy_loop_walk _ (length processedText) HE (length processedText) 0 [])
      as (es & Hrun & Hw & Hchoice); [lia..|].
    destruct (tokenize_with_path inputText algo normalize customVocab es)
      as (r & Hr & _ & Hedges & Hsel & _).
    { by rewrite bool_decide_false. }
    { intros e He. by eapply walk_elem. }
    exists r. split; [done|]. by rewrite Hedges, Hsel.
Qed.

(** The path the decoder of an algorithm returns on the lattice of a text:
    complete, where the algorithm is greedy or every edge score is a
    rational or [-Infinity]. *)
Lemma decoder_complete `{HostMath} (processedText : jsstring) (algo : AlgorithmType)
    (customVocab : option (list VocabItem)) :
  let E := lattice_edges (buildLattice processedText algo customVocab) in
  (algo = UNIGRAM ->
   forall e, e ∈ E -> exists s, edge_score e = VNumber s /\ is_cost s) ->
  exists es, walk E 0 (length processedText) es /\
    (if bool_decide (algo = UNIGRAM)
     then viterbiDecode (length processedText) E (length processedText)
     else greedyDecode (length processedText) E (length processedText))
    = Done (edge_id <$> es) /\
    (algo = UNIGRAM ->
     forall p, walk E 0 (length processedText) p ->
       Num.le (path_cost es) (path_cost p)).
Proof.
  intros E Hscore.
  pose proof (buildLattice_ok processedText algo customVocab) as HE. fold E in HE.
  case_bool_decide as Halgo.
  - destruct (viterbi_optimal E (length processedText) HE (Hscore Halgo))
      as (es & Hrun & Hw & Hopt).
    eauto.
  - destruct (greedy_loop_walk E (length processedText) HE (length processedText) 0 [])
      as (es & Hrun & Hw & _); [lia..|].
    exists es. split_and!; [done..|]. by intros ?.
Qed.

(** What [tokenize] returns where the decoder finds a complete path. *)
Lemma tokenize_complete `{HostMath} `{HostString} (inputText : jsstring)
    (algo : AlgorithmType) (normalize : bool)
    (customVocab : option (list VocabItem)) :
  let processedText := if normalize then normalizeText inputText else inputText in
  let E := lattice_edges (buildLattice processedText algo customVocab) in
  (algo = UNIGRAM ->
   forall e, e ∈ E -> exists s, edge_score e = VNumber s /\ is_cost s) ->
  exists r,
    tokenize inputText algo normalize customVocab = Done r /\
    text (graph r) = processedText /\ edges (graph r) = E /\
    edge_id <$> selected_edges r = selectedPath r /\
    edge_label <$> selected_edges r = tokens r /\
    walk E 0 (length processedText) (selected_edges r) /\
    selected_edges r ≫= span_positions = seq 0 (length processedText) /\
    (algo = UNIGRAM ->
     forall p, walk E 0 (length processedText) p ->
       Num.le (path_cost (selected_edges r)) (path_cost p)).
Proof.
  intros processedText E Hscore.
  pose proof (buildLattice_ok processedText algo customVocab) as HE. fold E in HE.
  destruct (decoder_complete processedText algo customVocab Hscore)
    as (es & Hw & Hrun & Hopt).
  destruct (tokenize_with_path inputText algo normalize customVocab es Hrun)
    as (r & Hr & Htext & Hedges & Hsel & Hpath & Htok).
  { intros e He. by eapply walk_elem. }
  exists r. rewrite Hsel. split_and!; try done.
  pose proof (walk_spans E _ _ _ _ (ok_forward _ _ HE) Hw) as Hs.
  by rewrite Nat.sub_0_r in Hs.
Qed.

(** What [tokenize] returns, whatever the scores.  The greedy decoders
    return a complete path.  The Viterbi decoder returns a complete path
    whose cost no complete path's cost is below, where that is a number;
    or, for a text that is not empty, the empty path, and then every
    complete path has a cost that is no number or is infinite. *)
Lemma tokenize_cases `{HostMath} `{HostString} (inputText : jsstring)
    (algo : AlgorithmType) (normalize : bool)
    (customVocab : option (list VocabItem)) :
  let processedText := if normalize then normalizeText inputText else inputText in
  let E := lattice_edges (buildLattice processedText algo customVocab) in
  let n := length processedText in
  exists r es,
    tokenize inputText algo normalize customVocab = Done r /\
    text (graph r) = processedText /\ edges (graph r) = E /\
    selected_edges r = es /\ selectedPath r = edge_id <$> es /\
    tokens r = edge_label <$> es /\
    (algo <> UNIGRAM -> walk E 0 n es /\ Forall (greedy_choice E) es) /\
    (algo = UNIGRAM ->
     (walk E 0 n es /\ is_cost (path_cost es) /\
      forall p, walk E 0 n p ->
        path_cost p = NaN \/ Num.le (path_cost es) (path_cost p))
     \/
     (es = [] /\ 0 < n /\
      forall p, walk E 0 n p -> path_cost p = NaN \/ path_cost p = PInf)).
Proof.
  intros processedText E n.
  pose proof (buildLattice_ok processedText algo customVocab) as HE.
  fold E in HE. fold n in HE.
  assert (exists es,
            (if bool_decide (algo = UNIGRAM)
             then viterbiDecode n E n else greedyDecode n E n)
            = Done (edge_id <$> es) /\
            (forall e, e ∈ es -> e ∈ E) /\
            (algo <> UNIGRAM -> walk E 0 n es /\ Forall (greedy_choice E) es) /\
            (algo = UNIGRAM ->
             (walk E 0 n es /\ is_cost (path_cost es) /\
              forall p, walk E 0 n p ->
                path_cost p = NaN \/ Num.le (path_cost es) (path_cost p))
             \/
             (es = [] /\ 0 < n /\
              forall p, walk E 0 n p -> path_cost p = NaN \/ path_cost p = PInf)))
    as (es & Hrun & Hes & Hgreedy & Hviterbi).
  { case_bool_decide as Halgo.
    - destruct (viterbi_spec E n HE) as (es & Hrun & Hcases).
      exists es. split_and!; [done| |done|done].
      destruct Hcases as [(Hw & _)|(-> & _)]; intros e He.
      + by eapply walk_elem.
      + by apply elem_of_nil in He.
    - destruct (greedy_loop_walk E n HE n 0 []) as (es & Hrun & Hw & Hc); [lia..|].
      exists es. split_and!; [done| |done|done].
      intros e He. by eapply walk_elem. }
  destruct (tokenize_with_path inputText algo normalize customVocab es Hrun Hes)
    as (r & Hr & Htext & Hedges & Hsel & Hpath & Htok).
  exists r, es. split_and!; done.
Qed.

(** The hypotheses under which the Unigram lattice has scores that can be
    summed: the host's [Math.exp] and [Math.log] return what their signs
    allow, and the vocabulary has no token [__proto__]. *)
Lemma unigram_scores_sum `{HostMath} (processedText : jsstring) (algo : AlgorithmType)
    (customVocab : option (list VocabItem)) :
  (algo = UNIGRAM -> exp_not_negative /\ log_of_positive /\ proto_free customVocab) ->
  algo = UNIGRAM ->
  forall e, e ∈ lattice_edges (buildLattice processedText algo customVocab) ->
    exists s, edge_score e = VNumber s /\ is_cost s.
Proof.
  intros Hhost Halgo e He. destruct (Hhost Halgo) as (Hexp & Hlog & Hfree).
  subst algo. by eapply unigram_lattice_scores.
Qed.

(** C2, as amended. For the Unigram algorithm, on a host whose [Math.exp]
    and [Math.log] return what their signs allow and with a vocabulary
    that has no token [__proto__], the path [tokenize] selects is a path
    of the lattice from node 0 to node [len(text)], and its cost is least
    among the costs of all such paths, where the cost of a path is what the
    decoder computes for it: the scores of its edges added in path order
    from 0, every sum rounded to binary64. *)
Theorem viterbi_least_rounded_cost `{HostMath} `{HostString} (inputText : jsstring)
    (normalize : bool) (customVocab : option (list VocabItem)) :
  exp_not_negative -> log_of_positive -> proto_free customVocab ->
  exists r,
    tokenize inputText UNIGRAM normalize customVocab = Done r /\
    edge_id <$> selected_edges r = selectedPath r /\
    walk (edges (graph r)) 0 (length (text (graph r))) (selected_edges r) /\
    forall p, walk (edges (graph r)) 0 (length (text (graph r))) p ->
      Num.le (path_cost (selected_edges r)) (path_cost p).
Proof.
  intros Hexp Hlog Hfree.
  destruct (tokenize_complete inputText UNIGRAM normalize customVocab)
    as (r & Hr & Htext & Hedges & Hpath & _ & Hw & _ & Hopt).
  { intros _ e He. by eapply unigram_lattice_scores. }
  exists r. rewrite Htext, Hedges. split_and!; try done. by apply Hopt.
Qed.

(** A walk given by its first edge. *)
Lemma walk_from E a b e es :
  e ∈ E -> edge_from e = a -> walk E (edge_to e) b es -> walk E a b (e :: es).
Proof. intros He <- Hw. by constructor. Qed.

(** C2 fails as stated, in two ways.  First, the decoder adds the scores
    in binary64 and keeps the path it found first when a later one is not
    smaller after rounding.  For the text ["ab"] and the vocabulary
    [a: 0, b: 2.5, ab: -0.1425939301613903] the three edges get the scores
    2.6425939301613903 ([a]), 0.1425939301613903 ([b]) and
    2.7851878603227807 ([ab]); the sum of the first two rounds to the
    third, so the decoder keeps the path [ab], while the exact sum of the
    scores of [a] and [b] is smaller than the score of [ab].  Second, a
    vocabulary token [__proto__] is never stored in the probability table,
    whose read then yields [Object.prototype]; the edge that matches the
    token gets the score [NaN], and for the text ["__proto__"], where this
    edge is the only one that leaves node 0, the decoder selects no edge at
    all. *)
Lemma viterbi_not_exact_shortest :
  (exists r p,
     @tokenize tabled_math unicode_fragment (js "ab") UNIGRAM false
       (Some [ {| token := js "a"; score := Fin 0 |};
               {| token := js "b"; score := Fin (5 # 2) |};
               {| token := js "ab";
                  score := Fin (-5137487765921055 # 36028797018963968) |} ])
     = Done r /\
     selectedPath r = [js "edge-0-2-ab"] /\
     edge_id <$> selected_edges r = selectedPath r /\
     walk (edges (graph r)) 0 (length (text (graph r))) p /\
     edge_id <$> p = [js "edge-0-1-a"; js "edge-1-2-b"] /\
     Num.eqb (path_cost p) (path_cost (selected_edges r)) = true /\
     Num.ltb (summed_score p) (summed_score (selected_edges r)) = true) /\
  (exists r p,
     @tokenize tabled_math unicode_fragment (js "__proto__") UNIGRAM false
       (Some [ {| token := js "__proto__"; score := Fin 0 |} ])
     = Done r /\
     length (text (graph r)) = 9 /\ selectedPath r = [] /\
     walk (edges (graph r)) 0 (length (text (graph r))) p /\
     edge_id <$> p = [js "edge-0-9-__proto__"] /\
     summed_score p = NaN).
Proof.
  split.
  - eexists. eexists. split; [vm_compute; reflexivity|].
    split; [reflexivity|]. split; [reflexivity|]. cbn [edges graph text].
    split; [|split; [|split]].
    + eapply walk_from; [left|reflexivity|].
      eapply walk_from; [right; right; left|reflexivity|]. constructor.
    + reflexivity.
    + vm_compute. reflexivity.
    + vm_compute. reflexivity.
  - eexists. eexists. split; [vm_compute; reflexivity|].
    split; [reflexivity|]. split; [reflexivity|]. cbn [edges graph text].
    split; [|split].
    + eapply walk_from; [left|reflexivity|]. constructor.
    + reflexivity.
    + reflexivity.
Qed.

(** C3, on the code. A vocabulary token [__proto__] is never stored in the
    probability table (the assignment to the key [__proto__] of a plain
    object is dropped), and the read of the table for a matched edge then
    yields [Object.prototype], whose logarithm is [NaN].  For the text
    ["__proto__"] and a vocabulary that holds just this token, whatever
    its score, the only edge leaving node 0 has the score [NaN], no sum
    with it is below [Infinity], and the Unigram decoder returns the empty
    path and no token for a text of nine characters. *)
Theorem unigram_proto_token_no_path `{HostMath} `{HostString} (s : number) :
  Math_log NaN = NaN ->
  (fun r => (text (graph r),
             (fun e => (edge_id e, edge_score e)) <$> edges (graph r),
             selectedPath r, tokens r))
    <$> tokenize (js "__proto__") UNIGRAM false
          (Some [ {| token := js "__proto__"; score := s |} ])
  = Done (js "__proto__",
          [ (js "edge-0-9-__proto__", VNumber NaN);
            (js "edge-1-2-fallback-_", VNumber (Fin 10));
            (js "edge-2-3-fallback-p", VNumber (Fin 10));
            (js "edge-3-4-fallback-r", VNumber (Fin 10));
            (js "edge-4-5-fallback-o", VNumber (Fin 10));
            (js "edge-5-6-fallback-t", VNumber (Fin 10));
            (js "edge-6-7-fallback-o", VNumber (Fin 10));
            (js "edge-7-8-fallback-_", VNumber (Fin 10));
            (js "edge-8-9-fallback-_", VNumber (Fin 10)) ],
          [], []).
Proof.
  intros Hlog. unfold tokenize.
  assert (lattice_edges (buildLattice (js "__proto__") UNIGRAM
            (Some [ {| token := js "__proto__"; score := s |} ]))
          = {| edge_id := js "edge-0-9-__proto__"; edge_from := 0; edge_to := 9;
               edge_label := js "__proto__"; edge_score := VNumber NaN |}
            :: (fallback_edge (js "__proto__") <$> seq 1 8)) as ->.
  { transitivity
      ({| edge_id := js "edge-0-9-__proto__"; edge_from := 0; edge_to := 9;
          edge_label := js "__proto__";
          edge_score := VNumber (Num.neg (Math_log NaN)) |}
       :: (fallback_edge (js "__proto__") <$> seq 1 8)).
    - vm_compute. reflexivity.
    - by rewrite Hlog. }
  vm_compute. reflexivity.
Qed.

(** X27. For every input text and every vocabulary (the empty one
    included) the path [tokenize] selects with BPE or WordPiece is a
    connected walk in the lattice from node 0 to node [len(text)]: each
    selected edge starts where the one before it ends, and the spans of the
    selected edges cover the positions [0 .. len(text) - 1] once each, in
    order, without gap or overlap.  So it is with Unigram, on a host whose
    [Math.exp] and [Math.log] return what their signs allow, unless the
    vocabulary has the token [__proto__]. *)
Theorem selected_path_complete `{HostMath} `{HostString} (inputText : jsstring)
    (algo : AlgorithmType) (normalize : bool)
    (customVocab : option (list VocabItem)) :
  (algo = UNIGRAM -> exp_not_negative /\ log_of_positive /\ proto_free customVocab) ->
  exists r,
    tokenize inputText algo normalize customVocab = Done r /\
    text (graph r) = (if normalize then normalizeText inputText else inputText) /\
    edge_id <$> selected_edges r = selectedPath r /\
    edge_label <$> selected_edges r = tokens r /\
    walk (edges (graph r)) 0 (length (text (graph r))) (selected_edges r) /\
    selected_edges r ≫= span_positions = seq 0 (length (text (graph r))).
Proof.
  intros Hhost.
  destruct (tokenize_complete inputText algo normalize customVocab)
    as (r & Hr & Htext & Hedges & Hpath & Htok & Hw & Hspan & _).
  { by apply unigram_scores_sum. }
  exists r. rewrite Htext, Hedges. by split_and!.
Qed.

(** X28. Whatever the vocabulary and whatever the host's [Math.exp] and
    [Math.log] return, the Unigram decoder ends, and the path [tokenize]
    selects is one of two.  Either it is a path of the lattice from node 0
    to node [len(text)] whose cost is neither [NaN] nor [Infinity] and is
    not above the cost of any other such path, unless that cost is [NaN]
    (the cost being the scores added in path order, every sum rounded).
    Or it is empty although the text is not, and then every path from node
    0 to node [len(text)] has a cost that is [NaN] or [Infinity]. *)
Theorem unigram_path_or_none `{HostMath} `{HostString} (inputText : jsstring)
    (normalize : bool) (customVocab : option (list VocabItem)) :
  exists r,
    tokenize inputText UNIGRAM normalize customVocab = Done r /\
    edge_id <$> selected_edges r = selectedPath r /\
    let E := edges (graph r) in
    let n := length (text (graph r)) in
    (walk E 0 n (selected_edges r) /\
     is_cost (path_cost (selected_edges r)) /\
     forall p, walk E 0 n p ->
       path_cost p = NaN \/ Num.le (path_cost (selected_edges r)) (path_cost p))
    \/
    (selectedPath r = [] /\ 0 < n /\
     forall p, walk E 0 n p -> path_cost p = NaN \/ path_cost p = PInf).
Proof.
  destruct (tokenize_cases inputText UNIGRAM normalize customVocab)
    as (r & es & Hr & Htext & Hedges & Hsel & Hpath & _ & _ & Hcases).
  exists r. rewrite Htext, Hedges, Hsel, Hpath. split_and!; [done..|].
  destruct (Hcases eq_refl) as [?|(-> & ? & ?)]; [by left|by right].
Qed.

(* ===================================================================== *)
(** * The normalizer *)
(* ===================================================================== *)

(** ** [trim] *)

Lemma trimStart_tight s : starts_tight (trimStart s).
Proof.
  induction s as [|c s IH]; simpl; [done|].
  destruct (is_white_space c) eqn:Hc; [done|]. simpl. done.
Qed.

Lemma trimStart_id s : starts_tight s -> trimStart s = s.
Proof. destruct s as [|c s]; simpl; [done|]. by intros ->. Qed.

Lemma trimStart_suffix s : exists w, s = w ++ trimStart s.
Proof.
  induction s as [|c s [w IH]]; simpl; [by exists []|].
  destruct (is_white_space c).
  - exists (c :: w). simpl. by rewrite <- IH.
  - by exists [].
Qed.

Lemma trim_tight s : trim (trim s) = trim s.
Proof.
  unfold trim. set (a := trimStart s).
  pose proof (trimStart_tight s) as Ha. fold a in Ha.
  set (r := trimStart (reverse a)).
  assert (starts_tight (reverse r)) as Hr.
  { destruct (trimStart_suffix (reverse a)) as [w Hw]. fold r in Hw.
    assert (a = reverse r ++ reverse w) as Heq.
    { rewrite <- reverse_app, <- Hw. by rewrite reverse_involutive. }
    destruct (reverse r) as [|c l] eqn:Hl; [done|].
    rewrite Heq in Ha. done. }
  rewrite (trimStart_id _ Hr), reverse_involutive.
  by rewrite (trimStart_id r) by apply trimStart_tight.
Qed.

Lemma trimStart_Forall (P : char -> Prop) s : Forall P s -> Forall P (trimStart s).
Proof.
  intros Hs. destruct (trimStart_suffix s) as [w Hw]. rewrite Hw in Hs.
  by apply Forall_app in Hs as [_ ?].
Qed.

Lemma trim_Forall (P : char -> Prop) s : Forall P s -> Forall P (trim s).
Proof.
  intros Hs. unfold trim.
  by apply Forall_reverse, trimStart_Forall, Forall_reverse, trimStart_Forall.
Qed.

(** ** Removing the marks *)

Lemma remove_accents_clean s :
  Forall (fun c => is_combining_mark c = false) (remove_accents s).
Proof.
  unfold remove_accents. apply Forall_forall. intros c Hc.
  apply list_elem_of_In, filter_In in Hc as [_ Hc].
  by apply negb_true_iff in Hc.
Qed.

Lemma remove_accents_id s :
  Forall (fun c => is_combining_mark c = false) s -> remove_accents s = s.
Proof.
  induction 1 as [|c s Hc _ IH]; [done|].
  unfold remove_accents in *. simpl. by rewrite Hc, IH.
Qed.




(* ===================================================================== *)
(** * Empty and missing vocabulary *)
(* ===================================================================== *)

Lemma find_token_nil s : find_token [] s = None.
Proof. done. Qed.

Lemma empty_vocabulary_lattice `{HostMath} text algo :
  lattice_edges (buildLattice text algo (Some []))
  = fallback_edge text <$> seq 0 (length text).
Proof.
  rewrite lattice_edges_eq. generalize (seq 0 (length text)) as l.
  cbn [default from_option id].
  set (f := position_edges text algo [] _ _).
  assert (forall i, f i = [fallback_edge text i]) as Hf.
  { intros i. unfold f, position_edges. rewrite matches_from_nil; [done|].
    intros j _ (v & Hv & _). by apply elem_of_nil in Hv. }
  induction l as [|i l IH]; [done|].
  change ((i :: l) ≫= f) with (f i ++ (l ≫= f)). by rewrite IH, Hf.
Qed.

(** In a lattice of fallback edges there is one walk to the end. *)
Lemma fallback_walk text n a b es :
  walk (fallback_edge text <$> seq 0 n) a b es ->
  es = fallback_edge text <$> seq a (b - a).
Proof.
  assert (forall e, e ∈ fallback_edge text <$> seq 0 n ->
            edge_from e < edge_to e <= n) as Hfw.
  { intros e (i & -> & Hi%elem_of_seq)%list_elem_of_fmap. simpl. lia. }
  induction 1 as [a|e es b He Hw IH].
  - by rewrite Nat.sub_diag.
  - pose proof (walk_forward _ _ _ _ _ Hfw Hw) as [Hle _].
    apply list_elem_of_fmap in He as (i & -> & Hi%elem_of_seq). simpl in *.
    rewrite IH.
    replace (b - i) with (S (b - (i + 1))) by lia. simpl.
    by rewrite Nat.add_1_r.
Qed.

Lemma fallback_labels (t : list N) :
  edge_label <$> (fallback_edge t <$> seq 0 (length t)) = (fun c => [c]) <$> t.
Proof.
  rewrite <- list_fmap_compose. apply list_eq. intros i.
  rewrite !list_lookup_fmap. unfold char in *.
  destruct (t !! i) as [c|] eqn:Hc.
  - rewrite lookup_seq_lt by (by eapply lookup_lt_Some). simpl.
    by rewrite (charAt_lookup _ _ _ Hc).
  - rewrite lookup_seq_ge; [done|]. by apply lookup_ge_None.
Qed.

(** C9, as amended. When the vocabulary passed is empty, every position
    falls back to a single-character edge and the output is the text
    character by character, for each algorithm: the lattice holds exactly
    the fallback edges [(i, i+1, text[i])], the selected path is all of
    them in order, and the tokens are the characters.  For the text ["ab"]:
    the two fallback edges [(0,1,"a")] and [(1,2,"b")], both selected,
    tokens [["a","b"]].  (With no vocabulary passed the engine uses its
    default vocabulary instead.) *)
Theorem empty_vocabulary_char_level `{HostMath} `{HostString}
    (inputText : jsstring) (algo : AlgorithmType) (normalize : bool) :
  (exists r,
     tokenize inputText algo normalize (Some []) = Done r /\
     text (graph r) = (if normalize then normalizeText inputText else inputText) /\
     edges (graph r)
     = fallback_edge (text (graph r)) <$> seq 0 (length (text (graph r))) /\
     selectedPath r = edge_id <$> edges (graph r) /\
     tokens r = (fun c => [c]) <$> text (graph r)) /\
  tokenize (js "ab") algo false (Some [])
  = Done {| graph :=
              {| nodes := [0; 1; 2];
                 edges :=
                   [ {| edge_id := js "edge-0-1-fallback-a"; edge_from := 0;
                        edge_to := 1; edge_label := js "a"; edge_score := VNumber (Fin 10) |};
                     {| edge_id := js "edge-1-2-fallback-b"; edge_from := 1;
                        edge_to := 2; edge_label := js "b"; edge_score := VNumber (Fin 10) |} ];
                 text := js "ab" |};
            selectedPath := [js "edge-0-1-fallback-a"; js "edge-1-2-fallback-b"];
            tokens := [js "a"; js "b"] |}.
Proof.
  split; [|by destruct algo].
  set (processedText := if normalize then normalizeText inputText else inputText).
  pose proof (buildLattice_ok processedText algo (Some [])) as HE.
  pose proof (empty_vocabulary_lattice processedText algo) as HEeq.
  set (E := lattice_edges (buildLattice processedText algo (Some []))) in *.
  assert (exists es, walk E 0 (length processedText) es /\
            (if bool_decide (algo = UNIGRAM)
             then viterbiDecode (length processedText) E (length processedText)
             else greedyDecode (length processedText) E (length processedText))
            = Done (edge_id <$> es)) as (es & Hw & Hrun).
  { case_bool_decide as Halgo.
    - destruct (viterbi_optimal E (length processedText) HE) as (es & Hrun & Hw & _).
      { rewrite HEeq. intros e (i & -> & _)%list_elem_of_fmap. by eexists. }
      eauto.
    - destruct (greedy_loop_walk E (length processedText) HE (length processedText) 0 [])
        as (es & Hrun & Hw & _); [lia..|].
      eauto. }
  assert (es = E) as ->.
  { rewrite HEeq in Hw. apply fallback_walk in Hw.
    by rewrite Hw, HEeq, Nat.sub_0_r. }
  destruct (tokenize_with_path inputText algo normalize (Some []) E Hrun)
    as (r & Hr & Htext & Hedges & Hsel & Hpath & Htok); [done|].
  exists r. rewrite Htext, Hedges. fold processedText. fold E.
  split_and!; try done.
  rewrite Htok, HEeq. apply fallback_labels.
Qed.

(** C9 fails as stated for a missing vocabulary.  When no vocabulary is
    passed the engine falls back on its default vocabulary, not on single
    characters: the text ["an"] then has the vocabulary edges ["a"], ["an"]
    and ["n"], no fallback edge, and the one token ["an"], whatever the
    host. *)
Lemma missing_vocabulary_uses_default :
  js "an" ∈ (token <$> FALLBACK_VOCAB) /\
  forall (M : HostMath) (S : HostString),
    (fun r => (edge_id <$> edges (graph r), tokens r))
      <$> @tokenize M S (js "an") BPE false None
    = Done ([js "edge-0-1-a"; js "edge-0-2-an"; js "edge-1-2-n"], [js "an"]).
Proof.
  split.
  - apply list_elem_of_In. vm_compute. tauto.
  - intros M S. vm_compute. reflexivity.
Qed.

(* ===================================================================== *)
(** * Edge scores *)
(* ===================================================================== *)

Lemma substring_length s i j :
  i <= j <= length s -> length (substring s i j) = j - i.
Proof.
  intros Hij. unfold substring.
  rewrite !Nat.min_l by lia. rewrite Nat.max_r by lia.
  rewrite length_take, length_drop. lia.
Qed.

(** C8, on the code. With the vocabulary [a: 1, b: 2] the token ["a"] has
    rank 1 in descending-score order, but in rank-greedy mode the edge for
    ["a"] gets the score 0, its index in the vocabulary as passed,
    whatever the host: the engine ranks a vocabulary passed to it by
    position without sorting it, where the default tables of constants.ts
    are filled after sorting by descending score. *)
Theorem bpe_score_is_vocabulary_index :
  claimed_bpe_score [vi "a" 1; vi "b" 2] (js "a") = Fin 1 /\
  forall M : HostMath,
    (fun e => (edge_label e, edge_score e))
      <$> lattice_edges (@buildLattice M (js "a") BPE (Some [vi "a" 1; vi "b" 2]))
    = [(js "a", VNumber (Fin 0))].
Proof. split; [|intros M]; vm_compute; reflexivity. Qed.

(** The edges of a lattice, by the vocabulary entry they match. *)
Lemma lattice_edge_cases `{HostMath} (text : jsstring) (algo : AlgorithmType)
    (customVocab : option (list VocabItem)) (e : TokenEdge) :
  e ∈ lattice_edges (buildLattice text algo customVocab) ->
  e = fallback_edge text (edge_from e) \/
  exists m, m ∈ default MOCK_VOCAB customVocab /\ edge_label e = token m /\
    edge_from e < edge_to e <= length text /\
    edge_score e
    = edge_score_of algo (scoring_tables customVocab).1 (scoring_tables customVocab).2
        m (substring text (edge_from e) (edge_to e)).
Proof.
  intros (i & Hi & [He|[_ ->]]%elem_of_position_edges)%elem_of_lattice; [|by left].
  right. apply elem_of_matches_from in He as (j & Hj & _ & He).
  apply match_at_Some in He as (m & Hm & ->).
  apply match_token_Some in Hm as [Hm _].
  exists m. split_and!; try done; simpl; lia.
Qed.

(** A read of the rank table at a vocabulary token. *)
Lemma rank_table_get vocab m :
  m ∈ vocab ->
  if bool_decide (token m = js "__proto__")
  then Object_get (rank_table vocab) (token m) = Some (VObject (js "__proto__"))
  else exists k v, last_entry vocab (token m) = Some (k, v) /\
         Object_get (rank_table vocab) (token m) = Some (VNumber (Num.of_nat k)).
Proof.
  intros Hm. case_bool_decide as Ht; [by rewrite Ht|].
  destruct (last_entry_is_Some vocab m Hm) as [[k v] Hl].
  exists k, v. split; [done|]. apply Object_get_own; [done|].
  by rewrite rank_table_lookup, Hl.
Qed.

(** A read of the probability table at a vocabulary token. *)
Lemma softmax_table_get `{HostMath} vocab m :
  m ∈ vocab ->
  let tbl := softmax_table vocab ((fun v => Math_exp (score v)) <$> vocab) in
  if bool_decide (token m = js "__proto__")
  then Object_get tbl (token m) = Some (VObject (js "__proto__"))
  else exists k v, last_entry vocab (token m) = Some (k, v) /\
         Object_get tbl (token m)
         = Some (VNumber (Num.fdiv (Math_exp (score v))
                            (exp_sum ((fun v => Math_exp (score v)) <$> vocab)))).
Proof.
  intros Hm tbl. case_bool_decide as Ht; [subst tbl; by rewrite Ht|].
  destruct (last_entry_is_Some vocab m Hm) as [[k v] Hl].
  exists k, v. split; [done|]. apply Object_get_own; [done|].
  subst tbl. by rewrite softmax_table_lookup, Hl.
Qed.

(** X30. The scores of the edges of a lattice, as the code computes them.
    A fallback edge has score 10.  A matched edge carries a vocabulary
    token and is scored by algorithm; for a token other than [__proto__]:
    Unigram: [-ln p], where [p] is [exp(s) / sum], in binary64, for the
    score [s] of the last vocabulary entry with that token and the sum of
    [exp] over the vocabulary (1 in place of a sum that is 0 or [NaN]), or
    the floor 1e-4 when that value is 0 or [NaN].  BPE: the zero-based index
    of the last entry with that token in the vocabulary as the engine sees
    it (the vocabulary passed, in the order passed; the default vocabulary
    in its sorted order).  WordPiece: the length of the substring.  A
    matched token always has such an entry, so that neither the score 999
    nor the floor for an absent token is ever used. *)
Theorem edge_scores `{HostMath} (text : jsstring) (algo : AlgorithmType)
    (customVocab : option (list VocabItem)) (e : TokenEdge) :
  e ∈ lattice_edges (buildLattice text algo customVocab) ->
  edge_label e <> js "__proto__" ->
  (e = fallback_edge text (edge_from e) /\ edge_score e = VNumber (Fin 10)) \/
  exists m k v, m ∈ default MOCK_VOCAB customVocab /\ edge_label e = token m /\
    match algo with
    | UNIGRAM =>
        let vocab := default FALLBACK_VOCAB customVocab in
        let expSum := exp_sum ((fun v => Math_exp (score v)) <$> vocab) in
        last_entry vocab (token m) = Some (k, v) /\
        edge_score e
        = VNumber (Num.neg (Math_log
            (Num.or_else (Num.fdiv (Math_exp (score v)) expSum)
               Num.floor_probability)))
    | BPE =>
        last_entry (default MOCK_VOCAB customVocab) (token m) = Some (k, v) /\
        edge_score e = VNumber (Num.of_nat k)
    | WORDPIECE => edge_score e = VNumber (Num.of_nat (edge_to e - edge_from e))
    end.
Proof.
  intros [->|(m & Hm & Hlab & Hfw & Hscore)]%lattice_edge_cases Hproto; [by left|].
  right. rewrite Hlab in Hproto. rewrite Hscore. unfold edge_score_of.
  destruct algo.
  - (* BPE *)
    assert (m ∈ default MOCK_VOCAB customVocab /\
            (scoring_tables customVocab).2 = rank_table (default MOCK_VOCAB customVocab))
      as [Hm' ->] by (by destruct customVocab).
    pose proof (rank_table_get _ m Hm') as Hget.
    rewrite bool_decide_false in Hget by done.
    destruct Hget as (k & v & Hl & ->). by exists m, k, v.
  - (* WordPiece *)
    exists m, 0, m. split_and!; [done..|]. by rewrite substring_length by lia.
  - (* Unigram *)
    assert (m ∈ default FALLBACK_VOCAB customVocab /\
            (scoring_tables customVocab).1
            = softmax_table (default FALLBACK_VOCAB customVocab)
                ((fun v => Math_exp (score v)) <$> default FALLBACK_VOCAB customVocab))
      as [Hm' ->].
    { destruct customVocab as [cv|]; [done|]. split; [|done].
      cbn [default from_option id] in Hm. unfold MOCK_VOCAB in Hm.
      by rewrite Array_sort_perm in Hm. }
    pose proof (softmax_table_get _ m Hm') as Hget. cbn zeta in Hget.
    rewrite bool_decide_false in Hget by done.
    destruct Hget as (k & v & Hl & ->). by exists m, k, v.
Qed.

(** X29. A matched edge whose token is [__proto__] has no number for its
    score in the rank-greedy mode, and the score [-ln(NaN)] in the
    probabilistic mode: the tables, plain objects, do not store the key
    [__proto__], and a read of it yields [Object.prototype].  (No fallback
    edge has this label.) *)
Theorem proto_token_edge_scores `{HostMath} (text : jsstring) (algo : AlgorithmType)
    (customVocab : option (list VocabItem)) (e : TokenEdge) :
  e ∈ lattice_edges (buildLattice text algo customVocab) ->
  edge_label e = js "__proto__" ->
  e <> fallback_edge text (edge_from e) /\
  edge_score e
  = match algo with
    | UNIGRAM => VNumber (Num.neg (Math_log NaN))
    | BPE => VObject (js "__proto__")
    | WORDPIECE => VNumber (Num.of_nat (edge_to e - edge_from e))
    end.
Proof.
  intros He Hproto.
  assert (e <> fallback_edge text (edge_from e)) as Hne.
  { intros Heq. rewrite Heq in Hproto. cbn [edge_label fallback_edge] in Hproto.
    apply (f_equal length) in Hproto. unfold charAt in Hproto.
    rewrite length_take in Hproto.
    change (length (js "__proto__")) with 9 in Hproto. lia. }
  split; [done|].
  apply lattice_edge_cases in He as [Heq|(m & Hm & Hlab & Hfw & Hscore)]; [done|].
  rewrite Hscore. unfold edge_score_of. rewrite Hlab in Hproto. rewrite Hproto.
  destruct algo; [done| |done].
  by rewrite substring_length by lia.
Qed.

(** Where the index is the rank of the specification: on a vocabulary
    whose tokens are distinct and which is already in descending order of
    score, and on the default vocabulary. *)
Lemma Array_sort_descending vocab :
  descending vocab ->
  Array_sort (fun a b => Num.sub (score b) (score a)) vocab = vocab.
Proof.
  induction vocab as [|a vocab IH]; intros Hd; [done|].
  unfold Array_sort in *. cbn [foldr]. rewrite IH.
  - destruct vocab as [|b vocab]; [done|]. cbn [sort_insert].
    by rewrite (Hd 0 a b).
  - intros i x y Hx Hy. exact (Hd (S i) x y Hx Hy).
Qed.

Lemma first_entry_last_entry (vocab : list VocabItem) (t : jsstring) :
  NoDup (token <$> vocab) ->
  fst <$> list_find (fun v => token v = t) vocab = fst <$> last_entry vocab t.
Proof.
  intros Hnd.
  destruct (list_find _ vocab) as [[i x]|] eqn:Hf;
    destruct (last_entry vocab t) as [[k v]|] eqn:Hl; simpl; [| |exfalso|done].
  - apply list_find_Some in Hf as (Hi & Hx & _).
    apply last_entry_lookup in Hl as [Hk Ht]. f_equal.
    apply (NoDup_lookup (token <$> vocab) i k t Hnd); rewrite list_lookup_fmap.
    + by rewrite Hi; simpl; rewrite Hx.
    + by rewrite Hk; simpl; rewrite Ht.
  - exfalso. apply list_find_Some in Hf as (Hi & Hx & _).
    unfold last_entry in Hl. apply last_None in Hl.
    assert ((i, x) ∈ filter (fun iv : nat * VocabItem => token iv.2 = t)
                       (imap pair vocab)) as Hin.
    { apply list_elem_of_filter. split; [done|].
      apply elem_of_lookup_imap. eauto. }
    rewrite Hl in Hin. by apply elem_of_nil in Hin.
  - apply last_entry_lookup in Hl as [Hk Ht].
    apply list_find_None in Hf. rewrite Forall_forall in Hf.
    apply (Hf v); [by eapply list_elem_of_lookup_2|done].
Qed.

(** On such a vocabulary the score of a matched edge is the rank of its
    token, unless the token is [__proto__]: the rank table cannot hold
    that key, and the score read for it is [Object.prototype]. *)
Lemma bpe_score_sorted_vocabulary `{HostMath} (text : jsstring)
    (vocab : list VocabItem) (e : TokenEdge) :
  descending vocab -> NoDup (token <$> vocab) ->
  e ∈ lattice_edges (buildLattice text BPE (Some vocab)) ->
  e = fallback_edge text (edge_from e) \/
  edge_score e
  = if bool_decide (edge_label e = js "__proto__") then VObject (js "__proto__")
    else VNumber (claimed_bpe_score vocab (edge_label e)).
Proof.
  intros Hd Hnd [?|(m & Hm & -> & _ & ->)]%lattice_edge_cases; [by left|right].
  cbn [edge_score_of scoring_tables snd default from_option id] in *.
  pose proof (rank_table_get vocab m Hm) as Hget.
  case_bool_decide as Ht; [by rewrite Hget|].
  destruct Hget as (k & v & Hl & ->). cbn [default from_option id].
  unfold claimed_bpe_score, descending_rank.
  by rewrite Array_sort_descending, first_entry_last_entry, Hl.
Qed.

Lemma bpe_score_default_vocabulary `{HostMath} (text : jsstring) (e : TokenEdge) :
  e ∈ lattice_edges (buildLattice text BPE None) ->
  e = fallback_edge text (edge_from e) \/
  edge_score e = VNumber (claimed_bpe_score FALLBACK_VOCAB (edge_label e)).
Proof.
  intros [?|(m & Hm & -> & _ & ->)]%lattice_edge_cases; [by left|right].
  cbn [edge_score_of scoring_tables snd default from_option id] in *.
  pose proof (rank_table_get MOCK_VOCAB m Hm) as Hget.
  rewrite bool_decide_false in Hget.
  - destruct Hget as (k & v & Hl & Hget). unfold BPE_RANKS. rewrite Hget.
    cbn [default from_option id]. unfold claimed_bpe_score, descending_rank.
    fold MOCK_VOCAB. rewrite first_entry_last_entry, Hl; [done|].
    apply (bool_decide_unpack (NoDup (token <$> MOCK_VOCAB))). vm_compute. exact I.
  - intros Ht.
    assert (js "__proto__" ∈ token <$> MOCK_VOCAB) as Hin.
    { rewrite <- Ht. by apply list_elem_of_fmap_2. }
    revert Hin. apply (bool_decide_unpack (js "__proto__" ∉ token <$> MOCK_VOCAB)).
    vm_compute. exact I.
Qed.

Lemma flat_math_exp : @exp_not_negative flat_math.
Proof. intros x. right. simpl. discriminate. Qed.

Lemma flat_math_log : @log_of_positive flat_math.
Proof. intros x _. split; discriminate. Qed.

(** C1, on the code. In WordPiece mode, at a start position [i > 0], a bare
    vocabulary entry equal to the substring wins over the entry with the
    continuation marker: the marked entry is looked up only when there is
    no bare one.  With the vocabulary [ab, ##ab] and the text ["xab"], the
    edge over ["ab"] at position 1 is labelled ["ab"], although ["##ab"]
    is in the vocabulary. *)
Theorem wordpiece_bare_match_first `{HostMath} :
  let vocab := [vi "ab" 1; vi "##ab" 1] in
  (forall (vocab : list VocabItem) algo i s m,
     find_token vocab s = Some m -> match_token vocab algo i s = Some m) /\
  find_token vocab (js "##" ++ substring (js "xab") 1 3) = Some (vi "##ab" 1) /\
  filter (fun e => edge_from e = 1 /\ edge_to e = 3)
    (lattice_edges (buildLattice (js "xab") WORDPIECE (Some vocab)))
  = [ {| edge_id := js "edge-1-3-ab"; edge_from := 1; edge_to := 3;
         edge_label := js "ab"; edge_score := VNumber (Fin 2) |} ].
Proof.
  intros vocab. split_and!.
  - intros v algo i s m Hm. unfold match_token. by rewrite Hm.
  - vm_compute. reflexivity.
  - vm_compute. reflexivity.
Qed.

(** An instance of [greedy_ignores_scores]. *)
Lemma greedy_ignores_scores_witness :
  BPE <> UNIGRAM /\
  token <$> [vi "a" 1; vi "ab" 2] = token <$> [vi "a" 5; vi "ab" (1 # 2)] /\
  @tokenize flat_math unicode_fragment (js "ab") BPE true
    (Some [vi "a" 1; vi "ab" 2])
  = @tokenize flat_math unicode_fragment (js "ab") BPE true
      (Some [vi "a" 5; vi "ab" (1 # 2)]).
Proof.
  split; [discriminate|]. split; [reflexivity|].
  apply (@greedy_ignores_scores flat_math unicode_fragment (js "ab") BPE true
           [vi "a" 1; vi "ab" 2] [vi "a" 5; vi "ab" (1 # 2)]).
  - discriminate.
  - reflexivity.
Defined.

Lemma sample_proto_free : proto_free (Some [vi "a" 1; vi "ab" 3]).
Proof.
  apply (bool_decide_unpack (js "__proto__" ∉ token <$> [vi "a" 1; vi "ab" 3])).
  vm_compute. exact I.
Qed.

(** An instance of [viterbi_least_rounded_cost]: the text ["Ab"],
    normalized, over the vocabulary [a: 1, ab: 3]. *)
Lemma viterbi_least_rounded_cost_witness :
  (@exp_not_negative flat_math /\ @log_of_positive flat_math /\
   proto_free (Some [vi "a" 1; vi "ab" 3])) /\
  exists r,
    @tokenize flat_math unicode_fragment (js "Ab") UNIGRAM true
      (Some [vi "a" 1; vi "ab" 3]) = Done r /\
    edge_id <$> selected_edges r = selectedPath r /\
    walk (edges (graph r)) 0 (length (text (graph r))) (selected_edges r) /\
    forall p, walk (edges (graph r)) 0 (length (text (graph r))) p ->
      Num.le (path_cost (selected_edges r)) (path_cost p).
Proof.
  split; [split_and!; [exact flat_math_exp|exact flat_math_log|exact sample_proto_free]|].
  apply (@viterbi_least_rounded_cost flat_math unicode_fragment (js "Ab") true
           (Some [vi "a" 1; vi "ab" 3])).
  - exact flat_math_exp.
  - exact flat_math_log.
  - exact sample_proto_free.
Defined.

(** An instance of [unigram_proto_token_no_path]: the host [tabled_math]
    and the score 0. *)
Lemma unigram_proto_token_no_path_witness :
  @Math_log tabled_math NaN = NaN /\
  (fun r => (selectedPath r, tokens r))
    <$> @tokenize tabled_math unicode_fragment (js "__proto__") UNIGRAM false
          (Some [ {| token := js "__proto__"; score := Fin 0 |} ])
  = Done ([], []).
Proof.
  split; [reflexivity|].
  pose proof (@unigram_proto_token_no_path tabled_math unicode_fragment (Fin 0)
                eq_refl) as Hrun.
  destruct (@tokenize tabled_math unicode_fragment (js "__proto__") UNIGRAM false
              (Some [ {| token := js "__proto__"; score := Fin 0 |} ]))
    as [r| |]; [|discriminate..].
  cbn in Hrun |- *. by injection Hrun as _ _ -> ->.
Defined.

(** An instance of [selected_path_complete]: the same input. *)
Lemma selected_path_complete_witness :
  (UNIGRAM = UNIGRAM ->
   @exp_not_negative flat_math /\ @log_of_positive flat_math /\
   proto_free (Some [vi "a" 1; vi "ab" 3])) /\
  exists r,
    @tokenize flat_math unicode_fragment (js "Ab") UNIGRAM true
      (Some [vi "a" 1; vi "ab" 3]) = Done r /\
    text (graph r) = @normalizeText unicode_fragment (js "Ab") /\
    edge_id <$> selected_edges r = selectedPath r /\
    edge_label <$> selected_edges r = tokens r /\
    walk (edges (graph r)) 0 (length (text (graph r))) (selected_edges r) /\
    selected_edges r ≫= span_positions = seq 0 (length (text (graph r))).
Proof.
  assert (UNIGRAM = UNIGRAM ->
          @exp_not_negative flat_math /\ @log_of_positive flat_math /\
          proto_free (Some [vi "a" 1; vi "ab" 3])) as Hhost.
  { intros _. split_and!; [exact flat_math_exp|exact flat_math_log|exact sample_proto_free]. }
  split; [exact Hhost|].
  exact (@selected_path_complete flat_math unicode_fragment (js "Ab") UNIGRAM true
           (Some [vi "a" 1; vi "ab" 3]) Hhost).
Defined.

(** An instance of [edge_scores]: the edge for ["a"] in the lattice of the
    text ["a"] over the vocabulary [a: 1, b: 2], rank-greedy mode. *)
Lemma edge_scores_witness :
  let e := {| edge_id := js "edge-0-1-a"; edge_from := 0; edge_to := 1;
              edge_label := js "a"; edge_score := VNumber (Fin 0) |} in
  let vocab := [vi "a" 1; vi "b" 2] in
  (e ∈ lattice_edges (@buildLattice flat_math (js "a") BPE (Some vocab)) /\
   edge_label e <> js "__proto__") /\
  ((e = fallback_edge (js "a") 0 /\ edge_score e = VNumber (Fin 10)) \/
   exists m k v, m ∈ vocab /\ edge_label e = token m /\
     last_entry vocab (token m) = Some (k, v) /\
     edge_score e = VNumber (Num.of_nat k)).
Proof.
  intros e vocab.
  assert (e ∈ lattice_edges (@buildLattice flat_math (js "a") BPE (Some vocab))) as He.
  { vm_compute. left. }
  assert (edge_label e <> js "__proto__") as Hl by discriminate.
  split; [by split|].
  exact (@edge_scores flat_math (js "a") BPE (Some vocab) e He Hl).
Defined.

(** An instance of [proto_token_edge_scores]: the edge for [__proto__] in
    the lattice of the text ["__proto__"] over the vocabulary
    [__proto__: 1], rank-greedy mode. *)
Lemma proto_token_edge_scores_witness :
  let e := {| edge_id := js "edge-0-9-__proto__"; edge_from := 0; edge_to := 9;
              edge_label := js "__proto__";
              edge_score := VObject (js "__proto__") |} in
  let vocab := [vi "__proto__" 1] in
  (e ∈ lattice_edges (@buildLattice flat_math (js "__proto__") BPE (Some vocab)) /\
   edge_label e = js "__proto__") /\
  e <> fallback_edge (js "__proto__") 0 /\
  edge_score e = VObject (js "__proto__").
Proof.
  intros e vocab.
  assert (e ∈ lattice_edges (@buildLattice flat_math (js "__proto__") BPE (Some vocab)))
    as He.
  { vm_compute. left. }
  split; [by split|].
  exact (@proto_token_edge_scores flat_math (js "__proto__") BPE (Some vocab) e He
           eq_refl).
Defined.



(* ===================================================================== *)
(** * Worked examples *)
(* ===================================================================== *)

(** The empty text: one node, no edge, empty path, no token. *)
Example tokenize_empty_text `{HostMath} `{HostString} (algo : AlgorithmType)
    (customVocab : option (list VocabItem)) :
  tokenize [] algo false customVocab
  = Done {| graph := {| nodes := [0]; edges := []; text := [] |};
            selectedPath := []; tokens := [] |}.
Proof. unfold tokenize. by destruct algo. Qed.

(** The default vocabulary, greedy longest match: in ["unhappiness"] the
    decoder takes ["un"], ["happ"], then the longer ["in"] rather than
    ["i"], and is left with single characters. *)
Example tokenize_unhappiness_bpe `{HostMath} `{HostString} :
  tokens <$> tokenize (js "unhappiness") BPE false None
  = Done [js "un"; js "happ"; js "in"; js "e"; js "s"; js "s"].
Proof. vm_compute. reflexivity. Qed.

Example tokenize_unhappiness_wordpiece `{HostMath} `{HostString} :
  tokens <$> tokenize (js "unhappiness") WORDPIECE false None
  = Done [js "un"; js "happ"; js "in"; js "e"; js "##s"; js "##s"].
Proof. vm_compute. reflexivity. Qed.

(* ===================================================================== *)
(** * More on the tokenizer engine *)
(* ===================================================================== *)

(** The path [tokenize] selects, as edges of the lattice: a complete
    path, or, with the Viterbi decoder, possibly no edge at all. *)
Lemma tokenize_walk `{HostMath} `{HostString} (inputText : jsstring)
    (algo : AlgorithmType) (normalize : bool)
    (customVocab : option (list VocabItem)) :
  let processedText := if normalize then normalizeText inputText else inputText in
  let E := lattice_edges (buildLattice processedText algo customVocab) in
  exists r es,
    tokenize inputText algo normalize customVocab = Done r /\
    text (graph r) = processedText /\ edges (graph r) = E /\
    selected_edges r = es /\ selectedPath r = edge_id <$> es /\
    tokens r = edge_label <$> es /\
    (walk E 0 (length processedText) es \/ (algo = UNIGRAM /\ es = [])) /\
    (algo <> UNIGRAM ->
     walk E 0 (length processedText) es /\ Forall (greedy_choice E) es).
Proof.
  intros processedText E.
  destruct (tokenize_cases inputText algo normalize customVocab)
    as (r & es & Hr & Htext & Hedges & Hsel & Hpath & Htok & Hgreedy & Hviterbi).
  exists r, es. split_and!; try done.
  destruct (decide (algo = UNIGRAM)) as [Halgo|Halgo].
  - destruct (Hviterbi Halgo) as [(Hw & _)|(-> & _)]; auto.
  - left. by apply Hgreedy.
Qed.

(** ** The order of the edges *)

Lemma matches_from_sorted `{HostMath} text algo vocab up br i :
  StronglySorted edge_before (matches_from text algo vocab up br i).
Proof.
  unfold matches_from, end_positions.
  generalize (length text `min` (i + MAX_TOKEN_LENGTH) - i) as m.
  generalize (i + 1) as a. intros a m. revert a.
  induction m as [|m IH]; intros a; simpl; [constructor|].
  destruct (match_at text algo vocab up br i a) as [e|] eqn:He; [|apply IH].
  constructor; [apply IH|].
  apply Forall_forall. intros e' (j & Hj & He')%list_elem_of_omap.
  apply elem_of_seq in Hj.
  apply match_at_Some in He as (m1 & _ & ->).
  apply match_at_Some in He' as (m2 & _ & ->).
  right. simpl. lia.
Qed.

Lemma position_edges_sorted `{HostMath} text algo vocab up br i :
  StronglySorted edge_before (position_edges text algo vocab up br i).
Proof.
  unfold position_edges.
  pose proof (matches_from_sorted text algo vocab up br i) as Hs.
  destruct (matches_from text algo vocab up br i); [|done].
  repeat constructor.
Qed.

Lemma bind_seq_sorted (f : nat -> list TokenEdge) a m :
  (forall i, StronglySorted edge_before (f i)) ->
  (forall i e, e ∈ f i -> edge_from e = i) ->
  StronglySorted edge_before (seq a m ≫= f).
Proof.
  intros Hs Hf. revert a. induction m as [|m IH]; intros a; csimpl; [constructor|].
  apply StronglySorted_app_2; [|apply Hs|apply IH].
  intros e e' He (j & He' & Hj%elem_of_seq)%list_elem_of_bind.
  left. rewrite (Hf _ _ He), (Hf _ _ He'). lia.
Qed.

Lemma position_edges_from `{HostMath} text algo vocab up br i e :
  e ∈ position_edges text algo vocab up br i -> edge_from e = i.
Proof.
  intros [He|[_ ->]]%elem_of_position_edges; [|done].
  by apply matches_from_edge in He as [? _].
Qed.

Lemma edge_before_irrefl e : ~ edge_before e e.
Proof. intros [?|[_ ?]]; lia. Qed.

Lemma sorted_NoDup (l : list TokenEdge) : StronglySorted edge_before l -> NoDup l.
Proof.
  induction 1 as [|e l _ IH Hall]; constructor; [|done].
  intros He. rewrite Forall_forall in Hall.
  by apply (edge_before_irrefl e), Hall.
Qed.

(** X1. The edges of a lattice come in increasing order of start node, and
    for one start node in increasing order of end node: no two edges join
    the same pair of nodes. *)
Theorem lattice_edges_ordered `{HostMath} (text : jsstring) (algo : AlgorithmType)
    (customVocab : option (list VocabItem)) :
  StronglySorted edge_before (lattice_edges (buildLattice text algo customVocab)).
Proof.
  rewrite lattice_edges_eq. apply bind_seq_sorted.
  - intros i. apply position_edges_sorted.
  - intros i e. apply position_edges_from.
Qed.

(** X2. The identifiers of the edges of a lattice are pairwise distinct, so
    an identifier of the selected path names one edge. *)
Theorem lattice_ids_distinct `{HostMath} (text : jsstring) (algo : AlgorithmType)
    (customVocab : option (list VocabItem)) :
  NoDup (edge_id <$> lattice_edges (buildLattice text algo customVocab)).
Proof.
  apply NoDup_fmap_2_strong.
  - intros e e'. apply lattice_ids_unique.
  - apply sorted_NoDup. rewrite lattice_edges_eq. apply bind_seq_sorted.
    + intros i. apply position_edges_sorted.
    + intros i e. apply position_edges_from.
Qed.

(** ** Labels *)

Lemma substring_in_range (s : jsstring) i j :
  i <= j <= length s -> substring s i j = take (j - i) (drop i s).
Proof.
  intros Hij. unfold substring.
  rewrite !Nat.min_l by lia. by rewrite Nat.max_r by lia.
Qed.

Lemma substring_app (s : jsstring) i j k :
  i <= j -> j <= k -> k <= length s ->
  substring s i j ++ substring s j k = substring s i k.
Proof.
  intros Hij Hjk Hk. rewrite !substring_in_range by lia.
  replace (k - i) with ((j - i) + (k - j)) by lia.
  rewrite <- take_take_drop, drop_drop.
  by replace (i + (j - i)) with j by lia.
Qed.

Lemma substring_whole (s : jsstring) : substring s 0 (length s) = s.
Proof.
  rewrite substring_in_range by lia. rewrite Nat.sub_0_r. simpl.
  by apply take_ge.
Qed.

Lemma charAt_substring (s : jsstring) i : i < length s -> charAt s i = substring s i (i + 1).
Proof.
  intros Hi. rewrite substring_in_range by lia.
  by replace (i + 1 - i) with 1 by lia.
Qed.

Lemma lattice_label `{HostMath} text algo customVocab e :
  e ∈ lattice_edges (buildLattice text algo customVocab) ->
  edge_label e = spanned text e \/
  (algo = WORDPIECE /\ 0 < edge_from e /\ edge_label e = js "##" ++ spanned text e).
Proof.
  intros (i & Hi & [He|[_ ->]]%elem_of_position_edges)%elem_of_lattice.
  - apply elem_of_matches_from in He as (j & Hj & _ & He).
    apply match_at_Some in He as (m & Hm & ->).
    apply match_token_Some in Hm as [_ Hm]. unfold spanned. simpl.
    destruct Hm as [?|(? & ? & ?)]; auto.
  - left. unfold spanned. simpl. by apply charAt_substring.
Qed.

Lemma walk_spanned E text a b es :
  (forall e, e ∈ E -> edge_from e < edge_to e <= length text) ->
  walk E a b es -> a <= b /\ (b <= length text -> mjoin (spanned text <$> es) = substring text a b).
Proof.
  intros HE. induction 1 as [a|e es b He Hw [Hle IH]].
  - split; [lia|]. intros Hb. simpl. rewrite substring_in_range by lia.
    by rewrite Nat.sub_diag.
  - destruct (HE e He) as [Hlt Hto]. split; [lia|]. intros Hb.
    cbn [fmap list_fmap mjoin list_join]. 
    change (spanned text e ++ mjoin (spanned text <$> es) = substring text (edge_from e) b).
    rewrite IH by done. unfold spanned. apply substring_app; lia.
Qed.

Lemma spanned_nonempty text e :
  edge_from e < edge_to e <= length text -> spanned text e <> [].
Proof.
  intros He Hs. apply (f_equal length) in Hs.
  unfold spanned in Hs. rewrite substring_length in Hs by lia. simpl in Hs. lia.
Qed.

(** X3. The tokens are consecutive non-empty pieces of the processed text.
    The pieces concatenated are the text: for BPE and WordPiece always, for
    Unigram unless the decoder selects no edge at all.  For BPE and Unigram
    the tokens are the pieces; for WordPiece a token may carry the
    continuation marker in front of its piece, but never the first
    token. *)
Theorem tokens_spell_text `{HostMath} `{HostString} (inputText : jsstring)
    (algo : AlgorithmType) (normalize : bool)
    (customVocab : option (list VocabItem)) :
  exists r pieces,
    tokenize inputText algo normalize customVocab = Done r /\
    pieces = spanned (text (graph r)) <$> selected_edges r /\
    (mjoin pieces = text (graph r) \/ (algo = UNIGRAM /\ selectedPath r = [])) /\
    Forall (fun p => p <> []) pieces /\
    Forall2 (fun p t => t = p \/ (algo = WORDPIECE /\ t = js "##" ++ p))
      pieces (tokens r) /\
    head (tokens r) = head pieces /\
    (algo <> WORDPIECE -> tokens r = pieces).
Proof.
  destruct (tokenize_walk inputText algo normalize customVocab)
    as (r & es & Hr & Htext & Hedges & Hsel & Hpath & Htok & Hw & _).
  set (processedText := if normalize then normalizeText inputText else inputText) in *.
  set (E := lattice_edges (buildLattice processedText algo customVocab)) in *.
  pose proof (lattice_forward processedText algo customVocab) as Hfw. fold E in Hfw.
  assert (forall e, e ∈ es -> e ∈ E) as Hes.
  { intros e He. destruct Hw as [Hw|[_ ->]]; [by eapply walk_elem|].
    by apply elem_of_nil in He. }
  exists r, (spanned processedText <$> es). rewrite Htext, Hsel, Htok, Hpath.
  split_and!; [done|done| | | | |].
  - destruct Hw as [Hw|[-> ->]]; [left|by right].
    destruct (walk_spanned E processedText _ _ _ Hfw Hw) as [_ Heq].
    rewrite Heq by lia. apply substring_whole.
  - apply Forall_fmap, Forall_forall. intros e He. apply spanned_nonempty, Hfw, Hes, He.
  - apply Forall2_fmap, Forall_Forall2_diag, Forall_forall. intros e He.
    destruct (lattice_label processedText algo customVocab e (Hes e He))
      as [->|(-> & _ & ->)]; auto.
  - destruct Hw as [Hw|[_ ->]]; [|done].
    inversion Hw as [|e es' b He Hw']; subst; [done|]. simpl. f_equal.
    destruct (lattice_label processedText algo customVocab e He)
      as [->|(_ & Hpos & _)]; [done|lia].
  - intros Halgo. apply list_fmap_ext. intros i e Hi.
    apply list_elem_of_lookup_2 in Hi.
    destruct (lattice_label processedText algo customVocab e (Hes e Hi))
      as [->|(-> & _)]; done.
Qed.

(** ** The size of the lattice *)

Lemma length_omap_le {A B} (f : A -> option B) (l : list A) :
  length (omap f l) <= length l.
Proof. induction l as [|x l IH]; csimpl; [done|]. destruct (f x); simpl; lia. Qed.

Lemma position_edges_length `{HostMath} text algo vocab up br i :
  1 <= length (position_edges text algo vocab up br i) <= MAX_TOKEN_LENGTH.
Proof.
  unfold position_edges.
  pose proof (length_omap_le (match_at text algo vocab up br i)
                (end_positions text i)) as Hle.
  fold (matches_from text algo vocab up br i) in Hle.
  unfold end_positions in Hle. rewrite length_seq in Hle.
  destruct (matches_from text algo vocab up br i) as [|e l]; simpl in *.
  - unfold MAX_TOKEN_LENGTH. lia.
  - lia.
Qed.

Lemma length_bind_seq {A} (f : nat -> list A) a m lo hi :
  (forall i, lo <= length (f i) <= hi) ->
  lo * m <= length (seq a m ≫= f) <= hi * m.
Proof.
  intros Hf. revert a. induction m as [|m IH]; intros a; csimpl; [lia|].
  rewrite length_app. specialize (IH (S a)). specialize (Hf a). nia.
Qed.

(** X4. No edge spans more than 20 characters, whatever the vocabulary
    holds; every position has between 1 and 20 outgoing edges, so a
    lattice over a text of [n] characters has between [n] and [20 n]
    edges. *)
Theorem lattice_size `{HostMath} (text : jsstring) (algo : AlgorithmType)
    (customVocab : option (list VocabItem)) :
  let E := lattice_edges (buildLattice text algo customVocab) in
  (forall e, e ∈ E -> edge_to e - edge_from e <= MAX_TOKEN_LENGTH) /\
  (forall i, i < length text ->
     1 <= length (filter (fun e => edge_from e = i) E) <= MAX_TOKEN_LENGTH) /\
  length text <= length E <= MAX_TOKEN_LENGTH * length text.
Proof.
  intros E. split; [|split].
  - intros e (i & Hi & [He|[_ ->]]%elem_of_position_edges)%elem_of_lattice.
    + apply matches_from_edge in He as (<- & _ & ? & _). lia.
    + simpl. unfold MAX_TOKEN_LENGTH. lia.
  - intros i Hi. unfold E. rewrite lattice_outgoing by done.
    apply position_edges_length.
  - unfold E. rewrite lattice_edges_eq.
    pose proof (length_bind_seq
      (position_edges text algo (default MOCK_VOCAB customVocab)
         (scoring_tables customVocab).1 (scoring_tables customVocab).2)
      0 (length text) 1 MAX_TOKEN_LENGTH) as Hb.
    rewrite Nat.mul_1_l in Hb. apply Hb. intros i. apply position_edges_length.
Qed.

(** ** The greedy choice in a lattice *)

Lemma sorted_filter (P : TokenEdge -> Prop) `{forall e, Decision (P e)}
    (l : list TokenEdge) :
  StronglySorted edge_before l -> StronglySorted edge_before (filter P l).
Proof.
  induction 1 as [|e l Hs IH Hall]; [constructor|].
  rewrite filter_cons. destruct (decide (P e)); [|done].
  constructor; [done|]. rewrite Forall_forall in *.
  intros e' [_ He']%list_elem_of_filter. by apply Hall.
Qed.

Lemma greedy_choice_longest (E : list TokenEdge) (e e' : TokenEdge) :
  StronglySorted edge_before E -> greedy_choice E e ->
  e' ∈ E -> edge_from e' = edge_from e -> e' <> e -> edge_to e' < edge_to e.
Proof.
  intros Hs Hc He' Hfrom Hne. unfold greedy_choice in Hc.
  apply first_longest_split in Hc as (l1 & l2 & Hl & H1 & H2).
  assert (e' ∈ l1 ++ e :: l2) as Hin.
  { rewrite <- Hl. by apply list_elem_of_filter. }
  apply (sorted_filter (fun x => edge_from x = edge_from e)) in Hs.
  rewrite Hl in Hs. apply StronglySorted_app in Hs as (_ & _ & Hs).
  apply StronglySorted_cons in Hs as [Hall _]. rewrite Forall_forall in Hall.
  apply elem_of_app in Hin as [Hin|Hin].
  - specialize (H1 _ Hin). unfold span in H1. lia.
  - apply elem_of_cons in Hin as [->|Hin]; [done|].
    specialize (H2 _ Hin). specialize (Hall _ Hin).
    unfold span in H2. destruct Hall as [?|[_ ?]]; lia.
Qed.

(** X5. In a lattice no two edges leaving a node have the same span, so the
    edge the greedy decoders (BPE, WordPiece) select at a node is strictly
    longer than every other edge leaving it: the tie-breaking rule never
    decides. *)
Theorem greedy_selects_the_longest `{HostMath} `{HostString} (inputText : jsstring)
    (algo : AlgorithmType) (normalize : bool)
    (customVocab : option (list VocabItem)) :
  algo <> UNIGRAM ->
  exists r,
    tokenize inputText algo normalize customVocab = Done r /\
    Forall (fun e => forall e', e' ∈ edges (graph r) ->
              edge_from e' = edge_from e -> e' <> e -> edge_to e' < edge_to e)
      (selected_edges r).
Proof.
  intros Halgo.
  destruct (tokenize_walk inputText algo normalize customVocab)
    as (r & es & Hr & _ & Hedges & Hsel & _ & _ & _ & Hc).
  exists r. split; [done|]. rewrite Hedges, Hsel.
  eapply Forall_impl; [by apply Hc|].
  intros e He e'. apply greedy_choice_longest; [|done].
  rewrite lattice_edges_eq. apply bind_seq_sorted.
  - intros i. apply position_edges_sorted.
  - intros i x. apply position_edges_from.
Qed.

(** ** What the normalizer leaves *)

Lemma trim_starts_tight s : starts_tight (trim s).
Proof.
  unfold trim. set (a := trimStart s).
  pose proof (trimStart_tight s) as Ha. fold a in Ha.
  destruct (trimStart_suffix (reverse a)) as [w Hw].
  set (r := trimStart (reverse a)) in *.
  assert (a = reverse r ++ reverse w) as Heq.
  { rewrite <- reverse_app, <- Hw. by rewrite reverse_involutive. }
  destruct (reverse r) as [|c l] eqn:Hl; [done|].
  rewrite Heq in Ha. done.
Qed.

Lemma trim_ends_tight s : starts_tight (reverse (trim s)).
Proof. unfold trim. rewrite reverse_involutive. apply trimStart_tight. Qed.

(** X6. Whatever the host's case mapping and decomposition do, the
    normalized text holds no combining mark of U+0300..U+036F and neither
    starts nor ends with white space: removing the marks from it or
    trimming it again changes nothing. *)
Theorem normalizeText_clean `{HostString} (text : jsstring) :
  let s := normalizeText text in
  Forall (fun c => is_combining_mark c = false) s /\
  starts_tight s /\ starts_tight (reverse s) /\
  remove_accents s = s /\ trim s = s.
Proof.
  intros s.
  assert (Forall (fun c => is_combining_mark c = false) s) as Hclean.
  { apply trim_Forall, remove_accents_clean. }
  split_and!; [done|apply trim_starts_tight|apply trim_ends_tight| |].
  - by apply remove_accents_id.
  - apply trim_tight.
Qed.

(** ** The greedy decoder does not read scores *)

Lemma unscored_filter (l1 l2 : list TokenEdge) (i : nat) :
  Forall2 (fun a b => unscored a = unscored b) l1 l2 ->
  Forall2 (fun a b => unscored a = unscored b)
    (filter (fun e => edge_from e = i) l1) (filter (fun e => edge_from e = i) l2).
Proof.
  induction 1 as [|a b l1 l2 Hab _ IH]; [constructor|].
  rewrite !filter_cons.
  assert (edge_from a = edge_from b) as Hf by (by injection Hab).
  destruct (decide (edge_from a = i)), (decide (edge_from b = i)); try lia.
  - by constructor.
  - done.
Qed.

Lemma unscored_first_longest (l1 l2 : list TokenEdge) :
  Forall2 (fun a b => unscored a = unscored b) l1 l2 ->
  option_Forall2 (fun a b => unscored a = unscored b)
    (first_longest l1) (first_longest l2).
Proof.
  induction 1 as [|a b l1 l2 Hab _ IH]; simpl; [constructor|].
  assert (span a = span b) as Hs.
  { unfold span. injection Hab as _ -> -> _. done. }
  destruct IH as [a' b' Hab'|]; [|by constructor].
  assert (span a' = span b') as Hs'.
  { unfold span. injection Hab' as _ -> -> _. done. }
  rewrite Hs, Hs'. case_bool_decide; by constructor.
Qed.

Lemma unscored_greedy_loop fuel (E1 E2 : list TokenEdge) n current path :
  Forall2 (fun a b => unscored a = unscored b) E1 E2 ->
  greedy_loop fuel E1 n current path = greedy_loop fuel E2 n current path.
Proof.
  intros HE. revert current path.
  induction fuel as [|fuel IH]; intros current path; [done|].
  rewrite !greedy_loop_step. case_bool_decide; [|done].
  destruct (unscored_first_longest _ _ (unscored_filter _ _ current HE))
    as [a b Hab|]; [|done].
  injection Hab as -> _ -> _. apply IH.
Qed.

Lemma unscored_label_of (E1 E2 : list TokenEdge) id :
  Forall2 (fun a b => unscored a = unscored b) E1 E2 ->
  label_of E1 id = label_of E2 id.
Proof.
  unfold label_of. induction 1 as [|a b l1 l2 Hab _ IH]; [done|].
  simpl. injection Hab as Hid _ _ Hlab. rewrite Hid.
  case_bool_decide; [exact Hlab|exact IH].
Qed.

(** ** WordPiece over a vocabulary without marked entries *)

Lemma startsWith_app (p s : jsstring) : startsWith (p ++ s) p = true.
Proof. unfold startsWith. apply bool_decide_eq_true. by rewrite take_app_length. Qed.

Lemma match_token_unmarked vocab algo i s :
  (forall v, v ∈ vocab -> startsWith (token v) (js "##") = false) ->
  match_token vocab algo i s = find_token vocab s.
Proof.
  intros Hv. unfold match_token.
  destruct (find_token vocab s) as [m|]; [done|].
  destruct (_ && _); [|done].
  apply find_token_None. intros v Hin Heq.
  specialize (Hv v Hin). rewrite Heq, startsWith_app in Hv. done.
Qed.

Lemma unscored_matches `{HostMath} text algo algo' vocab up br up' br' i :
  (forall v, v ∈ vocab -> startsWith (token v) (js "##") = false) ->
  Forall2 (fun a b => unscored a = unscored b)
    (matches_from text algo vocab up br i) (matches_from text algo' vocab up' br' i).
Proof.
  intros Hv. unfold matches_from.
  induction (end_positions text i) as [|j l IH]; csimpl; [constructor|].
  assert (option_Forall2 (fun a b => unscored a = unscored b)
            (match_at text algo vocab up br i j)
            (match_at text algo' vocab up' br' i j)) as Hj.
  { unfold match_at. rewrite !match_token_unmarked by done.
    destruct (find_token vocab (substring text i j)) as [m|]; by constructor. }
  destruct Hj; [by constructor|done].
Qed.

Lemma unscored_position_edges `{HostMath} text algo algo' vocab up br up' br' i :
  (forall v, v ∈ vocab -> startsWith (token v) (js "##") = false) ->
  Forall2 (fun a b => unscored a = unscored b)
    (position_edges text algo vocab up br i)
    (position_edges text algo' vocab up' br' i).
Proof.
  intros Hv. unfold position_edges.
  destruct (unscored_matches text algo algo' vocab up br up' br' i Hv); [|by constructor].
  by repeat constructor.
Qed.

Lemma unscored_lattice `{HostMath} text algo algo' customVocab :
  (forall v, v ∈ default MOCK_VOCAB customVocab ->
     startsWith (token v) (js "##") = false) ->
  Forall2 (fun a b => unscored a = unscored b)
    (lattice_edges (buildLattice text algo customVocab))
    (lattice_edges (buildLattice text algo' customVocab)).
Proof.
  intros Hv. rewrite !lattice_edges_eq.
  apply Forall2_bind, Forall_Forall2_diag, Forall_forall. intros i _.
  by apply unscored_position_edges.
Qed.

(** X7. Over a vocabulary without an entry that starts with the
    continuation marker, WordPiece and BPE tokenize alike: the same edges
    up to their scores, the same selected path, the same tokens. *)
Theorem wordpiece_like_bpe `{HostMath} `{HostString} (inputText : jsstring)
    (normalize : bool) (customVocab : option (list VocabItem)) :
  (forall v, v ∈ default MOCK_VOCAB customVocab ->
     startsWith (token v) (js "##") = false) ->
  exists r r',
    tokenize inputText WORDPIECE normalize customVocab = Done r /\
    tokenize inputText BPE normalize customVocab = Done r' /\
    unscored <$> edges (graph r) = unscored <$> edges (graph r') /\
    selectedPath r = selectedPath r' /\ tokens r = tokens r'.
Proof.
  intros Hv.
  destruct (tokenize_total inputText WORDPIECE normalize customVocab) as [r Hr].
  destruct (tokenize_total inputText BPE normalize customVocab) as [r' Hr'].
  exists r, r'. split; [done|]. split; [done|].
  revert Hr Hr'. unfold tokenize.
  set (processedText := if normalize then normalizeText inputText else inputText).
  pose proof (unscored_lattice processedText WORDPIECE BPE customVocab Hv) as HE.
  set (E := lattice_edges (buildLattice processedText WORDPIECE customVocab)) in *.
  set (E' := lattice_edges (buildLattice processedText BPE customVocab)) in *.
  rewrite !bool_decide_false by done. unfold greedyDecode.
  rewrite (unscored_greedy_loop _ E E') by done.
  destruct (greedy_loop _ E' _ 0 []) as [p| |]; [|done..].
  rewrite !bind_Done. intros [= <-] [= <-]. simpl. split_and!; [|done|].
  - clear -HE. induction HE as [|a b l1 l2 Hab _ IH]; [done|].
    csimpl. by rewrite Hab, IH.
  - apply list_fmap_ext. intros i id _. by apply unscored_label_of.
Qed.

(** ** The frames of a greedy trace *)

Lemma greedy_playback_nil E : greedy_playback E [] [].
Proof. split; [done|]. intros k id Hk. by rewrite lookup_nil in Hk. Qed.

Lemma greedy_playback_step E es frames f g e :
  let outgoing := filter (fun e' => edge_from e' = edge_from e) E in
  greedy_playback E es frames ->
  candidates f = edge_id <$> outgoing -> chosen f = None ->
  partialPath f = edge_id <$> es -> viterbiSnapshot f = None ->
  candidates g = edge_id <$> Array_sort by_span_desc outgoing ->
  head (candidates g) = Some (edge_id e) -> chosen g = Some (edge_id e) ->
  partialPath g = edge_id <$> (es ++ [e]) -> viterbiSnapshot g = None ->
  greedy_playback E (es ++ [e]) ((frames ++ [f]) ++ [g]).
Proof.
  intros outgoing [Hlen Hfr] Hf1 Hf2 Hf3 Hf4 Hg1 Hg2 Hg3 Hg4 Hg5. split.
  { rewrite !length_app. simpl. lia. }
  intros k e' Hk. destruct (decide (k < length es)) as [Hlt|Hge].
  - rewrite lookup_app_l in Hk by done.
    destruct (Hfr k e' Hk) as (f' & g' & Hf' & Hg' & Hrest).
    exists f', g'. rewrite <- app_assoc.
    rewrite !lookup_app_l by lia.
    rewrite !take_app_le by lia. done.
  - assert (k = length es) as ->.
    { apply lookup_lt_Some in Hk. rewrite length_app in Hk. simpl in Hk. lia. }
    rewrite list_lookup_middle in Hk by done. injection Hk as <-.
    exists f, g. split_and!; try done.
    + rewrite lookup_app_l by (rewrite length_app; simpl; lia).
      by rewrite list_lookup_middle by lia.
    + by rewrite list_lookup_middle by (rewrite length_app; simpl; lia).
    + by rewrite take_app_length.
    + rewrite take_ge; [done|]. rewrite length_app. simpl. lia.
Qed.

(** The traced greedy loop, started at the end of a walk [es] with its
    frames, ends with a complete walk and its frames. *)
Lemma greedy_traced_playback (E : list TokenEdge) (n : nat) fuel current es frames :
  lattice_ok E n -> current <= n -> n - current <= fuel ->
  walk E 0 current es -> greedy_playback E es frames ->
  exists es' fs,
    greedy_loop_traced fuel E n current (edge_id <$> es) frames
    = Done (edge_id <$> es', fs) /\
    walk E 0 n es' /\ greedy_playback E es' fs.
Proof.
  intros HE. revert current es frames.
  induction fuel as [|fuel IH]; intros current es frames Hc Hfuel Hw Hp.
  - exists es, frames. simpl. rewrite bool_decide_false by lia.
    split_and!; [done| |done]. by replace n with current by lia.
  - simpl. case_bool_decide as Hlt.
    2:{ exists es, frames. split_and!; [done| |done]. by replace n with current by lia. }
    destruct (filter _ E) as [|c cs] eqn:Hcs.
    { destruct (ok_outgoing _ _ HE current Hlt) as (e & He & Hfrom).
      assert (e ∈ filter (fun e' => edge_from e' = current) E) as Hin
        by (by apply list_elem_of_filter).
      rewrite Hcs in Hin. by apply elem_of_nil in Hin. }
    pose proof (head_sort_by_span (c :: cs)) as Hh.
    destruct (Array_sort by_span_desc (c :: cs)) as [|best sorted] eqn:Hs.
    { symmetry in Hh. by apply first_longest_None in Hh. }
    cbn [head] in Hh. symmetry in Hh.
    pose proof (first_longest_elem _ _ Hh) as Hin.
    assert (best ∈ E /\ edge_from best = current) as [HinE Hfrom].
    { rewrite <- Hcs in Hin. by apply list_elem_of_filter in Hin as [? ?]. }
    pose proof (ok_forward _ _ HE _ HinE) as Hfw.
    replace ((edge_id <$> es) ++ [edge_id best]) with (edge_id <$> (es ++ [best]))
      by (by rewrite fmap_app).
    apply IH; [lia|lia| |].
    + apply walk_snoc; [by rewrite Hfrom|done..].
    + apply greedy_playback_step; try done; cbn [candidates partialPath].
      * by rewrite Hfrom, Hcs.
      * by rewrite Hfrom, Hcs, Hs.
Qed.

(** X8. The frames of a greedy trace (BPE, WordPiece) come in pairs, one
    pair per selected edge and in the order of the path, which starts at
    node 0 and continues from the end of each edge.  The first frame of a
    pair considers the edges leaving the current node: it lists the
    identifiers of all of them, in lattice order, with the path so far.
    The second chooses the selected edge: it lists the same edges sorted by
    descending span, the selected edge first, with the path extended by
    it.  No frame carries a cost snapshot. *)
Theorem greedy_trace_playback `{HostMath} `{HostString} (inputText : jsstring)
    (algo : AlgorithmType) (normalize : bool)
    (customVocab : option (list VocabItem)) :
  algo <> UNIGRAM ->
  exists r frames,
    tokenizeWithTrace inputText algo normalize customVocab = Done (r, frames) /\
    edge_id <$> selected_edges r = selectedPath r /\
    walk (edges (graph r)) 0 (length (text (graph r))) (selected_edges r) /\
    greedy_playback (edges (graph r)) (selected_edges r) frames.
Proof.
  intros Halgo. unfold tokenizeWithTrace.
  set (processedText := if normalize then normalizeText inputText else inputText).
  pose proof (buildLattice_ok processedText algo customVocab) as HE.
  set (E := lattice_edges (buildLattice processedText algo customVocab)) in *.
  rewrite bool_decide_false by done.
  destruct (greedy_traced_playback E (length processedText) (length processedText)
              0 [] [] HE) as (es & fs & Hrun & Hw & Hpb);
    [lia|lia|constructor|apply greedy_playback_nil|].
  change (@nil jsstring) with (edge_id <$> @nil TokenEdge).
  rewrite Hrun, bind_Done. eexists _, fs. split; [done|].
  assert (selected_edges
            {| graph := {| nodes := lattice_nodes (buildLattice processedText algo customVocab);
                           edges := E; text := processedText |};
               selectedPath := edge_id <$> es;
               tokens := label_of E <$> (edge_id <$> es) |} = es) as Hsel.
  { unfold selected_edges. cbn [selectedPath graph edges].
    eapply resolve_ids; [done|]. intros e He. by eapply walk_elem. }
  cbn [fst snd]. rewrite Hsel. by split_and!.
Qed.

(** ** The greedy algorithms read the vocabulary as a set of tokens *)

Lemma find_token_is_Some vocab s :
  is_Some (find_token vocab s) <-> s ∈ token <$> vocab.
Proof.
  split.
  - intros [m Hm]. apply find_token_Some in Hm as [Hin <-].
    by apply list_elem_of_fmap_2.
  - intros (v & -> & Hin)%list_elem_of_fmap.
    destruct (find_token vocab (token v)) as [m|] eqn:Hf; [by eexists|].
    exfalso. by eapply find_token_None.
Qed.

Lemma find_token_same_set v1 v2 s :
  (forall t, t ∈ token <$> v1 <-> t ∈ token <$> v2) ->
  token <$> find_token v1 s = token <$> find_token v2 s.
Proof.
  intros Hset.
  pose proof (find_token_is_Some v1 s) as H1.
  pose proof (find_token_is_Some v2 s) as H2.
  destruct (find_token v1 s) as [m1|] eqn:E1, (find_token v2 s) as [m2|] eqn:E2; simpl.
  - apply find_token_Some in E1 as [_ ->]. by apply find_token_Some in E2 as [_ ->].
  - exfalso. assert (is_Some (@None VocabItem)) as [? ?]; [|done].
    apply H2, Hset, H1. by eexists.
  - exfalso. assert (is_Some (@None VocabItem)) as [? ?]; [|done].
    apply H1, Hset, H2. by eexists.
  - done.
Qed.

Lemma match_token_same_set v1 v2 algo i s :
  (forall t, t ∈ token <$> v1 <-> t ∈ token <$> v2) ->
  token <$> match_token v1 algo i s = token <$> match_token v2 algo i s.
Proof.
  intros Hset. unfold match_token.
  pose proof (find_token_same_set v1 v2 s Hset) as Hs.
  destruct (find_token v1 s), (find_token v2 s); try done.
  destruct (_ && _); [|done]. by apply find_token_same_set.
Qed.

Lemma same_set_matches `{HostMath} text algo v1 v2 up br up' br' i :
  (forall t, t ∈ token <$> v1 <-> t ∈ token <$> v2) ->
  Forall2 (fun a b => unscored a = unscored b)
    (matches_from text algo v1 up br i) (matches_from text algo v2 up' br' i).
Proof.
  intros Hset. unfold matches_from.
  induction (end_positions text i) as [|j l IH]; csimpl; [constructor|].
  assert (option_Forall2 (fun a b => unscored a = unscored b)
            (match_at text algo v1 up br i j)
            (match_at text algo v2 up' br' i j)) as Hj.
  { unfold match_at.
    pose proof (match_token_same_set v1 v2 algo i (substring text i j) Hset) as Ht.
    destruct (match_token v1 algo i _) as [m1|], (match_token v2 algo i _) as [m2|];
      try done; constructor.
    injection Ht as Ht. unfold unscored, matched_edge. simpl. by rewrite Ht. }
  destruct Hj; [by constructor|done].
Qed.

Lemma same_set_lattice `{HostMath} text algo v1 v2 :
  (forall t, t ∈ token <$> v1 <-> t ∈ token <$> v2) ->
  Forall2 (fun a b => unscored a = unscored b)
    (lattice_edges (buildLattice text algo (Some v1)))
    (lattice_edges (buildLattice text algo (Some v2))).
Proof.
  intros Hset. rewrite !lattice_edges_eq.
  apply Forall2_bind, Forall_Forall2_diag, Forall_forall. intros i _.
  unfold position_edges.
  destruct (same_set_matches text algo (default MOCK_VOCAB (Some v1))
              (default MOCK_VOCAB (Some v2))
              (scoring_tables (Some v1)).1 (scoring_tables (Some v1)).2
              (scoring_tables (Some v2)).1 (scoring_tables (Some v2)).2 i Hset);
    [|by constructor].
  by repeat constructor.
Qed.

(** X9. For BPE and WordPiece the selected path and the tokens depend on
    the vocabulary only through its set of tokens: two custom vocabularies
    with the same tokens, in any order, with any repetitions and any
    scores, give the same edges up to their scores, the same selected path
    and the same tokens. *)
Theorem greedy_reads_token_set `{HostMath} `{HostString} (inputText : jsstring)
    (algo : AlgorithmType) (normalize : bool) (v1 v2 : list VocabItem) :
  algo <> UNIGRAM ->
  (forall t, t ∈ token <$> v1 <-> t ∈ token <$> v2) ->
  exists r1 r2,
    tokenize inputText algo normalize (Some v1) = Done r1 /\
    tokenize inputText algo normalize (Some v2) = Done r2 /\
    unscored <$> edges (graph r1) = unscored <$> edges (graph r2) /\
    selectedPath r1 = selectedPath r2 /\ tokens r1 = tokens r2.
Proof.
  intros Halgo Hset.
  destruct (tokenize_total inputText algo normalize (Some v1)) as [r1 Hr1].
  destruct (tokenize_total inputText algo normalize (Some v2)) as [r2 Hr2].
  exists r1, r2. split; [done|]. split; [done|].
  revert Hr1 Hr2. unfold tokenize.
  set (processedText := if normalize then normalizeText inputText else inputText).
  pose proof (same_set_lattice processedText algo v1 v2 Hset) as HE.
  set (E1 := lattice_edges (buildLattice processedText algo (Some v1))) in *.
  set (E2 := lattice_edges (buildLattice processedText algo (Some v2))) in *.
  rewrite !bool_decide_false by done. unfold greedyDecode.
  rewrite (unscored_greedy_loop _ E1 E2) by done.
  destruct (greedy_loop _ E2 _ 0 []) as [p| |]; [|done..].
  rewrite !bind_Done. intros [= <-] [= <-]. simpl. split_and!; [|done|].
  - clear -HE. induction HE as [|a b l1 l2 Hab _ IH]; [done|].
    csimpl. by rewrite Hab, IH.
  - apply list_fmap_ext. intros i id _. by apply unscored_label_of.
Qed.

(* ===================================================================== *)
(** * The validation runner *)
(* ===================================================================== *)

Lemma tokenizeWithTrace_Done `{HostMath} `{HostString} (inputText : jsstring)
    (algo : AlgorithmType) (normalize : bool)
    (customVocab : option (list VocabItem)) :
  exists r frames,
    tokenizeWithTrace inputText algo normalize customVocab = Done (r, frames) /\
    tokenize inputText algo normalize customVocab = Done r.
Proof.
  unfold tokenizeWithTrace, tokenize.
  set (processedText := if normalize then normalizeText inputText else inputText).
  pose proof (buildLattice_ok processedText algo customVocab) as HE.
  set (E := lattice_edges (buildLattice processedText algo customVocab)) in *.
  case_bool_decide as Halgo.
  - destruct (viterbi_traced_agrees E (length processedText)) as (p & fr & Htr & Hun & _).
    { apply HE. }
    rewrite Hun. destruct (forward_pass_traced E (length processedText)) as [st| |];
      [|done..].
    rewrite bind_Done in Htr. rewrite !bind_Done, Htr, bind_Done. eauto.
  - destruct (greedy_traced_agrees E (length processedText) HE) as (p & fr & Htr & Hun & _).
    rewrite Htr, Hun, !bind_Done. eauto.
Qed.

(** ** Counting *)

Lemma count_up_S test b c :
  count_up test (S b) c
  = if test b then S (count_up test b c) else count_up test b c.
Proof. unfold count_up. by rewrite seq_S, foldl_app. Qed.

Lemma count_up_bounds test b c m :
  (forall i, test i = true -> i < m) ->
  c <= count_up test b c <= c + (b `min` m).
Proof.
  intros Ht. induction b as [|b IH]; [unfold count_up; simpl; lia|].
  rewrite count_up_S. destruct (test b) eqn:Hb; [|lia].
  apply Ht in Hb. lia.
Qed.

Lemma tokens_match_lt gold hyp i : tokens_match gold hyp i = true -> i < length gold.
Proof.
  unfold tokens_match. destruct (gold !! i) eqn:Hg; [|done].
  intros _. by eapply lookup_lt_Some.
Qed.

Lemma bounds_match_lt gb es i : bounds_match gb es i = true -> i < length gb.
Proof.
  unfold bounds_match. destruct (gb !! i) eqn:Hg; [|done].
  intros _. by eapply lookup_lt_Some.
Qed.

Lemma unknown_fold_le vocab toks st :
  st.2 <= st.1 -> (foldl (unknown_step vocab) st toks).2 <= (foldl (unknown_step vocab) st toks).1.
Proof.
  revert st. induction toks as [|t toks IH]; intros st Hst; [done|].
  simpl. apply IH. unfold unknown_step.
  destruct (has_non_ascii t); [done|]. simpl.
  destruct (isUnknownToken t vocab); lia.
Qed.

Section ValidationFacts.
Context `{HostMath} `{HostString}.
Variables (vocab : list VocabItem) (algo : AlgorithmType) (normalize : bool)
          (customVocab : option (list VocabItem)).

Lemma score_case_Done t c :
  exists r frames,
    tokenizeWithTrace (input c) algo normalize customVocab = Done (r, frames) /\
    tokenize (input c) algo normalize customVocab = Done r /\
    score_case vocab algo normalize customVocab t c
    = Done {|
        totalGoldTokens := totalGoldTokens t + length (goldTokens c);
        matchingTokens :=
          count_up (tokens_match (goldTokens c) (tokens r))
            (length (goldTokens c) `max` length (tokens r)) (matchingTokens t);
        totalGoldBoundaries :=
          totalGoldBoundaries t + length (gold_bounds (text (graph r)) (goldTokens c));
        matchingBoundaries :=
          count_up (bounds_match (gold_bounds (text (graph r)) (goldTokens c))
                      (selected_edges r))
            (length (gold_bounds (text (graph r)) (goldTokens c)))
            (matchingBoundaries t);
        normalizationCorrect :=
          if bool_decide (text (graph r)
                          = default (text (graph r)) (goldNormalized c))
          then S (normalizationCorrect t) else normalizationCorrect t;
        totalTokens :=
          (foldl (unknown_step vocab) (totalTokens t, unknownTokens t) (tokens r)).1;
        unknownTokens :=
          (foldl (unknown_step vocab) (totalTokens t, unknownTokens t) (tokens r)).2;
        roundTripCorrect :=
          if bool_decide (squeeze (default (detokenize (goldTokens c))
                                     (goldDetokenized c))
                          = squeeze (detokenize (tokens r)))
          then S (roundTripCorrect t) else roundTripCorrect t;
        totalBacktracks := totalBacktracks t + computeBacktracks algo frames;
      |}.
Proof.
  destruct (tokenizeWithTrace_Done (input c) algo normalize customVocab)
    as (r & frames & Htr & Hr).
  exists r, frames. split; [done|]. split; [done|].
  unfold score_case. by rewrite Htr, bind_Done.
Qed.

Lemma score_case_ok k t c :
  tally_ok k t ->
  exists t', score_case vocab algo normalize customVocab t c = Done t' /\
    tally_ok (S k) t'.
Proof.
  intros (Ht & Hb & Hn & Hu & Hr).
  destruct (score_case_Done t c) as (r & frames & _ & _ & ->).
  eexists. split; [done|]. unfold tally_ok. cbn [totalGoldTokens matchingTokens
    totalGoldBoundaries matchingBoundaries normalizationCorrect totalTokens
    unknownTokens roundTripCorrect].
  split_and!.
  - pose proof (count_up_bounds (tokens_match (goldTokens c) (tokens r))
                  (length (goldTokens c) `max` length (tokens r)) (matchingTokens t)
                  (length (goldTokens c)) (tokens_match_lt _ _)). lia.
  - pose proof (count_up_bounds
                  (bounds_match (gold_bounds (text (graph r)) (goldTokens c))
                     (selected_edges r))
                  (length (gold_bounds (text (graph r)) (goldTokens c)))
                  (matchingBoundaries t)
                  (length (gold_bounds (text (graph r)) (goldTokens c)))
                  (bounds_match_lt _ _)). lia.
  - case_bool_decide; lia.
  - by apply (unknown_fold_le vocab (tokens r) (totalTokens t, unknownTokens t)).
  - case_bool_decide; lia.
Qed.

Lemma score_cases_ok cases :
  exists t,
    foldl (fun acc c => t ← acc; score_case vocab algo normalize customVocab t c)
      (Done no_tally) cases = Done t /\
    tally_ok (length cases) t.
Proof.
  apply (foldl_outcome_ind (score_case vocab algo normalize customVocab)
           (fun done t => tally_ok (length done) t)).
  - unfold tally_ok, no_tally. simpl. lia.
  - intros done c rest t _ Ht. rewrite length_app. simpl.
    replace (length done + 1) with (S (length done)) by lia.
    by apply score_case_ok.
Qed.
End ValidationFacts.

Lemma ratio_fraction part total : part <= total -> is_fraction (ratio part total).
Proof.
  intros Hle. unfold ratio, is_fraction. case_bool_decide as Ht.
  - exists 0%Q. split; [done|]. split; [apply Qle_refl|discriminate].
  - unfold Num.div, Num.of_nat.
    assert (0 < inject_Z (Z.of_nat total))%Q as Hpos.
    { change 0%Q with (inject_Z 0). rewrite <- Zlt_Qlt. lia. }
    destruct (Qeq_bool (inject_Z (Z.of_nat total)) 0) eqn:Hz.
    { apply Qeq_bool_eq in Hz. rewrite Hz in Hpos. by apply Qlt_irrefl in Hpos. }
    eexists. split; [done|]. split.
    + apply Qle_shift_div_l; [done|]. rewrite Qmult_0_l.
      change 0%Q with (inject_Z 0). rewrite <- Zle_Qle. lia.
    + apply Qle_shift_div_r; [done|]. rewrite Qmult_1_l.
      rewrite <- Zle_Qle. lia.
Qed.

(** X10. [runValidation] always returns, and each of its five accuracy and
    rate metrics is a fraction between 0 and 1 (never [NaN], also for an
    empty list of cases or cases without gold tokens). *)
Theorem validation_metrics_are_fractions `{HostMath} `{HostString}
    (cases : list ValidationCase) (algo : AlgorithmType) (normalize : bool)
    (customVocab : option (list VocabItem)) :
  exists m,
    runValidation cases algo normalize customVocab = Done m /\
    is_fraction (tokenAccuracy m) /\ is_fraction (boundaryAccuracy m) /\
    is_fraction (normalizationAccuracy m) /\ is_fraction (unknownTokenRate m) /\
    is_fraction (roundTripConsistency m).
Proof.
  unfold runValidation.
  destruct (score_cases_ok (getVocab customVocab) algo normalize customVocab cases)
    as (t & -> & Ht & Hb & Hn & Hu & Hr).
  rewrite bind_Done. eexists. split; [done|]. simpl.
  split_and!; by apply ratio_fraction.
Qed.

(** ** The unknown-token rate *)

Lemma inject_nat_nonzero total :
  total <> 0 -> Qeq_bool (inject_Z (Z.of_nat total)) 0 = false.
Proof.
  intros Ht. destruct (Qeq_bool _ 0) eqn:Hz; [|done].
  apply Qeq_bool_eq in Hz. unfold Qeq in Hz. simpl in Hz. lia.
Qed.

Lemma ratio_zero total : Num.eqb (ratio 0 total) (Fin 0) = true.
Proof.
  unfold ratio. case_bool_decide as Ht; [done|].
  unfold Num.div, Num.of_nat. rewrite inject_nat_nonzero by done.
  simpl. apply Qeq_bool_iff. unfold Qdiv. apply Qmult_0_l.
Qed.

Lemma ratio_one total : 0 < total -> Num.eqb (ratio total total) (Fin 1) = true.
Proof.
  intros Hpos. unfold ratio. rewrite bool_decide_false by lia.
  unfold Num.div, Num.of_nat. rewrite inject_nat_nonzero by lia.
  simpl. apply Qeq_bool_iff. unfold Qdiv. apply Qmult_inv_r.
  intros Hz. unfold Qeq in Hz. simpl in Hz. lia.
Qed.

Lemma short_token_known (t : jsstring) vocab : length t <= 1 -> isUnknownToken t vocab = false.
Proof.
  intros Ht. unfold isUnknownToken, startsWith.
  rewrite !bool_decide_eq_false_2; [done| |].
  - intros Heq. apply (f_equal length) in Heq.
    rewrite length_take in Heq. change (length (js "[UNK:")) with 5 in Heq. lia.
  - intros Heq. apply (f_equal length) in Heq.
    change (length (js "[UNK]")) with 5 in Heq. lia.
Qed.

Lemma lattice_label_origin `{HostMath} text algo customVocab e :
  e ∈ lattice_edges (buildLattice text algo customVocab) ->
  (exists m, m ∈ default MOCK_VOCAB customVocab /\ edge_label e = token m) \/
  length (edge_label e) <= 1.
Proof.
  intros (i & Hi & [He|[_ ->]]%elem_of_position_edges)%elem_of_lattice.
  - left. apply elem_of_matches_from in He as (j & _ & _ & He).
    apply match_at_Some in He as (m & Hm & ->).
    apply match_token_Some in Hm as [Hm _]. eauto.
  - right. simpl. unfold charAt. rewrite length_take. lia.
Qed.

Lemma label_of_origin (E : list TokenEdge) id :
  label_of E id = [] \/ exists e, e ∈ E /\ label_of E id = edge_label e.
Proof.
  unfold label_of. destruct (List.find _ E) as [e|] eqn:Hf; [|by left].
  right. exists e. split; [|done].
  apply find_some in Hf as [Hin _]. by apply list_elem_of_In.
Qed.

Lemma tokens_known `{HostMath} `{HostString} inputText algo normalize customVocab r vocab :
  (forall v, v ∈ default MOCK_VOCAB customVocab -> isUnknownToken (token v) vocab = false) ->
  tokenize inputText algo normalize customVocab = Done r ->
  Forall (fun t => isUnknownToken t vocab = false) (tokens r).
Proof.
  intros Hv. unfold tokenize.
  set (processedText := if normalize then normalizeText inputText else inputText).
  set (E := lattice_edges (buildLattice processedText algo customVocab)).
  destruct (if bool_decide (algo = UNIGRAM) then _ else _) as [p| |]; [|done..].
  rewrite bind_Done. intros [= <-]. simpl.
  apply Forall_fmap, Forall_forall. intros id _. simpl.
  destruct (label_of_origin E id) as [->|(e & He & ->)]; [by apply short_token_known; simpl; lia|].
  destruct (lattice_label_origin processedText algo customVocab e He) as [(m & Hm & ->)|Hs].
  - by apply Hv.
  - by apply short_token_known.
Qed.

Lemma unknown_fold_none vocab toks st :
  Forall (fun t => isUnknownToken t vocab = false) toks ->
  (foldl (unknown_step vocab) st toks).2 = st.2.
Proof.
  intros Hall. revert st. induction Hall as [|t toks Ht _ IH]; intros st; [done|].
  simpl. rewrite IH. unfold unknown_step. destruct (has_non_ascii t); [done|].
  simpl. by rewrite Ht.
Qed.

(** X11. When no entry of the vocabulary the engine uses is the placeholder
    ["[UNK]"] or starts with ["[UNK:"], the unknown-token rate
    [runValidation] reports is 0, whatever the cases and the text: the
    single characters the engine falls back to are not counted as
    unknown. *)
Theorem unknown_token_rate_zero `{HostMath} `{HostString}
    (cases : list ValidationCase) (algo : AlgorithmType) (normalize : bool)
    (customVocab : option (list VocabItem)) :
  (forall v, v ∈ default MOCK_VOCAB customVocab ->
     isUnknownToken (token v) (getVocab customVocab) = false) ->
  exists m,
    runValidation cases algo normalize customVocab = Done m /\
    Num.eqb (unknownTokenRate m) (Fin 0) = true.
Proof.
  intros Hv. unfold runValidation.
  destruct (foldl_outcome_ind
              (score_case (getVocab customVocab) algo normalize customVocab)
              (fun _ t => unknownTokens t = 0) cases no_tally) as (t & -> & Ht).
  - done.
  - intros done c rest t _ Hu.
    destruct (score_case_Done (getVocab customVocab) algo normalize customVocab t c)
      as (r & frames & _ & Hr & ->).
    eexists. split; [done|]. cbn [unknownTokens].
    rewrite unknown_fold_none; [done|]. by eapply tokens_known.
  - rewrite bind_Done. eexists. split; [done|]. simpl. rewrite Ht.
    apply ratio_zero.
Qed.

(** ** Normalization accuracy *)

(** X12. For a non-empty list of cases none of which states an expected
    normalized form, the normalization accuracy [runValidation] reports is
    1, whatever the normalizer does. *)
Theorem normalization_accuracy_without_gold `{HostMath} `{HostString}
    (cases : list ValidationCase) (algo : AlgorithmType) (normalize : bool)
    (customVocab : option (list VocabItem)) :
  cases <> [] -> Forall (fun c => goldNormalized c = None) cases ->
  exists m,
    runValidation cases algo normalize customVocab = Done m /\
    Num.eqb (normalizationAccuracy m) (Fin 1) = true.
Proof.
  intros Hne Hall. unfold runValidation.
  destruct (foldl_outcome_ind
              (score_case (getVocab customVocab) algo normalize customVocab)
              (fun done t => normalizationCorrect t = length done) cases no_tally)
    as (t & -> & Ht).
  - done.
  - intros done c rest t Hcases Hn.
    destruct (score_case_Done (getVocab customVocab) algo normalize customVocab t c)
      as (r & frames & _ & _ & ->).
    eexists. split; [done|]. cbn [normalizationCorrect].
    rewrite Forall_forall in Hall. rewrite (Hall c).
    + simpl. rewrite bool_decide_true by done. rewrite length_app. simpl. lia.
    + rewrite Hcases. apply elem_of_app. right. left.
  - rewrite bind_Done. eexists. split; [done|]. simpl. rewrite Ht.
    apply ratio_one. destruct cases; [done|simpl; lia].
Qed.

(** ** Statuses *)

Lemma number_leb_le a b : number_leb a b = true <-> Num.le a b.
Proof.
  unfold number_leb. destruct a as [x| | |], b as [y| | |]; simpl; try done;
    try (split; [done|by intros []]).
  rewrite orb_true_iff, Qltb_lt, Qeq_bool_iff. split.
  - intros [?|?]; lra.
  - intros Hle. destruct (Qlt_le_dec x y); [by left|right; lra].
Qed.

Lemma number_leb_trans a b c :
  number_leb a b = true -> Num.le b c -> number_leb a c = true.
Proof. rewrite !number_leb_le. apply num_le_trans. Qed.

Lemma number_leb_trans_r a b c :
  Num.le a b -> number_leb b c = true -> number_leb a c = true.
Proof. rewrite !number_leb_le. apply num_le_trans. Qed.

(** X13. [statusForMetric] is monotone: for the four accuracy metrics a
    larger value never gets a worse status, for the unknown-token rate and
    the backtrack count a larger value never gets a better one. *)
Theorem statusForMetric_monotone (metric : MetricKey) (v v' : number) :
  Num.le v v' ->
  if higher_is_better metric
  then status_rank (statusForMetric metric v) <= status_rank (statusForMetric metric v')
  else status_rank (statusForMetric metric v') <= status_rank (statusForMetric metric v).
Proof.
  intros Hle.
  destruct metric; cbn [higher_is_better statusForMetric];
    repeat match goal with
    | |- context [number_leb ?a v] =>
        let E := fresh "E" in
        destruct (number_leb a v) eqn:E;
        [rewrite (number_leb_trans a v v' E Hle)|]
    | |- context [number_leb v' ?a] =>
        let E := fresh "E" in
        destruct (number_leb v' a) eqn:E;
        [rewrite (number_leb_trans_r v v' a Hle E)|]
    | |- context [number_leb ?a ?b] => destruct (number_leb a b)
    end; simpl; lia.
Qed.

(** ** [detokenize] *)

Lemma startsWith_marked (p : jsstring) : startsWith (js "##" ++ p) (js "##") = true.
Proof. apply startsWith_app. Qed.

Lemma detokenize_pieces (out : jsstring) (k : nat) (ps : list jsstring) rest :
  foldl (fun out '(idx, tok) => detokenize_step out idx tok) out
    (imap (fun i => pair (k + i)) (((fun p => js "##" ++ p) <$> ps) ++ rest))
  = foldl (fun out '(idx, tok) => detokenize_step out idx tok) (out ++ mjoin ps)
      (imap (fun i => pair (k + length ps + i)) rest).
Proof.
  revert out k. induction ps as [|p ps IH]; intros out k.
  - simpl. rewrite app_nil_r. apply (f_equal (foldl _ out)).
    apply imap_ext. intros i x _. simpl. f_equal. lia.
  - cbn [fmap list_fmap app imap foldl mjoin list_join].
    unfold detokenize_step at 2. rewrite startsWith_marked. simpl drop.
    rewrite drop_0.
    rewrite (imap_ext _ (fun i => pair (S k + i)))
      by (intros; simpl; f_equal; lia).
    rewrite IH, <- app_assoc. apply (f_equal (foldl _ _)).
    apply imap_ext. intros i x _. simpl. f_equal. lia.
Qed.

Lemma Array_join_snoc sep (words : list jsstring) w :
  Array_join sep (words ++ [w])
  = if bool_decide (words = []) then w else Array_join sep words ++ sep ++ w.
Proof.
  induction words as [|x words IH]; [done|].
  rewrite bool_decide_false by done.
  destruct words as [|y words]; [done|].
  change (Array_join sep ((x :: y :: words) ++ [w]))
    with (x ++ sep ++ Array_join sep ((y :: words) ++ [w])).
  rewrite IH, bool_decide_false by done.
  change (Array_join sep (x :: y :: words)) with (x ++ sep ++ Array_join sep (y :: words)).
  by rewrite <- !app_assoc.
Qed.

Lemma detokenize_words (done rest : list (jsstring * list jsstring)) :
  Forall (fun w => unmarked w.1) rest ->
  foldl (fun out '(idx, tok) => detokenize_step out idx tok)
    (Array_join (js " ") (word_of <$> done))
    (imap (fun i => pair (length (done ≫= word_pieces) + i)) (rest ≫= word_pieces))
  = Array_join (js " ") (word_of <$> (done ++ rest)).
Proof.
  intros Hrest. revert done. induction Hrest as [|[w ps] rest [Hw1 Hw2] _ IH]; intros done.
  - simpl. by rewrite app_nil_r.
  - cbn [mbind list_bind word_pieces fst snd app imap foldl].
    unfold detokenize_step at 2. simpl in Hw1, Hw2. rewrite Hw1, Hw2.
    rewrite Nat.add_0_r.
    rewrite (imap_ext _ (fun i => pair (S (length (done ≫= word_pieces)) + i)))
      by (intros; simpl; f_equal; lia).
    rewrite detokenize_pieces.
    specialize (IH (done ++ [(w, ps)])).
    rewrite bind_app, length_app in IH. cbn [mbind list_bind] in IH.
    rewrite app_nil_r in IH. cbn [word_pieces fst snd length] in IH.
    rewrite length_fmap in IH.
    rewrite (imap_ext _ (fun i => pair (length (done ≫= word_pieces) + S (length ps) + i)))
      by (intros; simpl; f_equal; lia).
    rewrite cons_middle, app_assoc, <- IH. apply (f_equal (fun o => foldl _ o _)).
    rewrite fmap_app. change (word_of <$> [(w, ps)]) with [w ++ mjoin ps].
    rewrite Array_join_snoc.
    destruct done as [|d done].
    + done.
    + rewrite bool_decide_true by (simpl; lia).
      rewrite bool_decide_false by done. by rewrite <- !app_assoc.
Qed.

(** X14. [detokenize] glues WordPiece continuation pieces to their word and
    separates words by single spaces: for words given by a first token
    without marker and any number of continuation tokens, it returns the
    words joined by spaces, trimmed. *)
Theorem detokenize_wordpiece (words : list (jsstring * list jsstring)) :
  Forall (fun w => unmarked w.1) words ->
  detokenize (words ≫= word_pieces) = trim (Array_join (js " ") (word_of <$> words)).
Proof.
  intros Hw. unfold detokenize. f_equal.
  apply (detokenize_words [] words Hw).
Qed.

(** ** Gold boundaries *)

Lemma startsWith_spec (s p : jsstring) :
  startsWith s p = true <-> take (length p) s = p.
Proof. unfold startsWith. apply bool_decide_eq_true. Qed.

Lemma indexOf_from_Some s pat k r :
  indexOf_from s pat k = Some r ->
  exists j, r = k + j /\ j <= length s /\ startsWith (drop j s) pat = true.
Proof.
  revert k. induction s as [|c s IH]; intros k; simpl.
  - destruct (startsWith [] pat) eqn:Hp; [|done]. intros [= <-].
    exists 0. split_and!; [lia|done|done].
  - destruct (startsWith (c :: s) pat) eqn:Hp.
    + intros [= <-]. exists 0. split_and!; [lia|simpl; lia|done].
    + intros Hr. destruct (IH _ Hr) as (j & -> & Hj & Hs).
      exists (S j). split_and!; [lia|simpl; lia|done].
Qed.

Lemma String_indexOf_Some s pat pos start :
  String_indexOf s pat pos = Some start ->
  pos `min` length s <= start /\ start + length pat <= length s /\
  substring s start (start + length pat) = pat.
Proof.
  unfold String_indexOf. intros Hr.
  apply indexOf_from_Some in Hr as (j & -> & Hj & Hs).
  rewrite length_drop in Hj. apply startsWith_spec in Hs.
  rewrite drop_drop in Hs.
  assert (length pat <= length (drop (pos `min` length s + j) s)) as Hlen.
  { rewrite <- Hs at 1. rewrite length_take. lia. }
  rewrite length_drop in Hlen.
  split_and!; [lia|lia|].
  rewrite substring_in_range by lia.
  by replace (pos `min` length s + j + length pat - (pos `min` length s + j))
    with (length pat) by lia.
Qed.

Lemma String_indexOf_here s pat pos :
  pos <= length s -> startsWith (drop pos s) pat = true ->
  String_indexOf s pat pos = Some pos.
Proof.
  intros Hpos Hs. unfold String_indexOf. rewrite Nat.min_l by done.
  destruct (drop pos s); simpl; by rewrite Hs.
Qed.

(** X15. The gold boundaries [runValidation] derives from the gold tokens
    of a case lie inside the processed text, in order and without overlap,
    each spanning an occurrence of a gold token; gold tokens that do not
    occur are skipped. *)
Theorem gold_bounds_spec (processedText : jsstring) (goldTokens : list jsstring) :
  let goldBounds := gold_bounds processedText goldTokens in
  length goldBounds <= length goldTokens /\
  Forall (fun b => b.1 <= b.2 <= length processedText /\
                   substring processedText b.1 b.2 ∈ goldTokens) goldBounds /\
  StronglySorted (fun a b => a.2 <= b.1) goldBounds.
Proof.
  unfold gold_bounds.
  assert (forall (toks : list jsstring) (st : list (nat * nat) * nat),
            let st' := foldl (gold_bounds_step processedText) st toks in
            length st'.1 <= length st.1 + length toks /\
            (Forall (fun b => b.1 <= b.2 <= length processedText /\
                              substring processedText b.1 b.2 ∈ goldTokens /\
                              b.2 <= st.2) st.1 ->
             (forall t, t ∈ toks -> t ∈ goldTokens) ->
             StronglySorted (fun a b => a.2 <= b.1) st.1 ->
             Forall (fun b => b.1 <= b.2 <= length processedText /\
                              substring processedText b.1 b.2 ∈ goldTokens /\
                              b.2 <= st'.2) st'.1 /\
             StronglySorted (fun a b => a.2 <= b.1) st'.1)) as Hfold.
  { intros toks. induction toks as [|tok ts IH]; intros st; simpl; [split; [lia|done]|].
    specialize (IH (gold_bounds_step processedText st tok)). simpl in IH.
    destruct IH as [IHlen IH]. unfold gold_bounds_step in *.
    destruct (String_indexOf processedText tok st.2) as [start|] eqn:Hidx.
    - apply String_indexOf_Some in Hidx as (Hstart & Hend & Hsub).
      simpl in *. rewrite length_app in IHlen. simpl in IHlen. split; [lia|].
      intros Hall Htoks Hsorted. apply IH.
      + apply Forall_app. split.
        * eapply Forall_impl; [exact Hall|]. intros b ([? ?] & ? & ?).
          repeat split; try done; lia.
        * apply Forall_singleton. simpl. rewrite Hsub.
          repeat split; try lia. apply Htoks. left.
      + intros t Ht. apply Htoks. by right.
      + apply StronglySorted_app_2; [|done|repeat constructor].
        intros a b Ha ->%list_elem_of_singleton. simpl.
        rewrite Forall_forall in Hall. destruct (Hall a Ha) as ([? ?] & _ & Ha2).
        lia.
    - split; [lia|]. intros Hall Htoks Hsorted. apply IH; [done| |done].
      intros t Ht. apply Htoks. by right. }
  destruct (Hfold goldTokens ([], 0)) as [Hlen Hrest]. simpl in Hlen.
  destruct Hrest as [Hall Hsorted]; [constructor|done|constructor|].
  split_and!; [done| |done].
  eapply Forall_impl; [exact Hall|]. intros b (? & ? & _). by split.
Qed.

(** ** Cases the tokenizer gets right *)

Lemma count_up_all test b c :
  (forall i, i < b -> test i = true) -> count_up test b c = c + b.
Proof.
  intros Ht. induction b as [|b IH]; [unfold count_up; simpl; lia|].
  rewrite count_up_S, Ht by lia. rewrite IH; [lia|]. intros i Hi. apply Ht. lia.
Qed.

Lemma count_up_same (toks : list jsstring) c :
  Forall (fun t => t <> []) toks ->
  count_up (tokens_match toks toks) (length toks `max` length toks) c
  = c + length toks.
Proof.
  intros Hne. rewrite Nat.max_id. apply count_up_all. intros i Hi.
  unfold tokens_match. destruct (toks !! i) as [t|] eqn:Ht.
  - rewrite Forall_forall in Hne.
    rewrite (bool_decide_false (t = [])) by (apply Hne; by eapply list_elem_of_lookup_2).
    by rewrite bool_decide_true.
  - apply lookup_ge_None in Ht. unfold jsstring, char in *. lia.
Qed.

Lemma gold_bounds_walk E (txt : jsstring) a b es bs :
  (forall e, e ∈ E -> edge_from e < edge_to e <= length txt) ->
  walk E a b es ->
  foldl (gold_bounds_step txt) (bs, a) (spanned txt <$> es)
  = (bs ++ ((fun e => (edge_from e, edge_to e)) <$> es), b).
Proof.
  intros HE Hw. revert bs. induction Hw as [a|e es b He Hw IH]; intros bs.
  - simpl. by rewrite app_nil_r.
  - destruct (HE e He) as [Hlt Hto]. csimpl.
    assert (length (spanned txt e) = edge_to e - edge_from e) as Hlen.
    { unfold spanned. rewrite substring_length by lia. done. }
    unfold gold_bounds_step at 2. cbn [fst snd].
    rewrite String_indexOf_here.
    + rewrite Hlen. replace (edge_from e + (edge_to e - edge_from e)) with (edge_to e) by lia.
      rewrite IH. by rewrite <- app_assoc.
    + lia.
    + apply startsWith_spec. rewrite Hlen. unfold spanned.
      by rewrite substring_in_range by lia.
Qed.

Lemma bounds_match_spans (es : list TokenEdge) c :
  count_up (bounds_match ((fun e => (edge_from e, edge_to e)) <$> es) es)
    (length ((fun e => (edge_from e, edge_to e)) <$> es)) c
  = c + length es.
Proof.
  rewrite length_fmap. apply count_up_all. intros i Hi.
  unfold bounds_match. rewrite list_lookup_fmap.
  destruct (es !! i) as [e|] eqn:He; simpl.
  - by rewrite !bool_decide_true.
  - apply lookup_ge_None in He. lia.
Qed.

(** X16. When for each of the cases (there is one at least) the tokenizer
    returns exactly the gold tokens, of which there is one at least, and no
    case states an expected detokenized string, [runValidation] reports a
    token accuracy of 1 and a round-trip consistency of 1, and for BPE and
    Unigram a boundary accuracy of 1. *)
Theorem perfect_cases_score_one `{HostMath} `{HostString}
    (cases : list ValidationCase) (algo : AlgorithmType) (normalize : bool)
    (customVocab : option (list VocabItem)) :
  (algo = UNIGRAM -> exp_not_negative /\ log_of_positive) ->
  cases <> [] ->
  Forall (fun c => goldTokens c <> [] /\ goldDetokenized c = None /\
            tokens <$> tokenize (input c) algo normalize customVocab
            = Done (goldTokens c)) cases ->
  exists m,
    runValidation cases algo normalize customVocab = Done m /\
    Num.eqb (tokenAccuracy m) (Fin 1) = true /\
    Num.eqb (roundTripConsistency m) (Fin 1) = true /\
    (algo <> WORDPIECE -> Num.eqb (boundaryAccuracy m) (Fin 1) = true).
Proof.
  intros Hhost Hne Hall. unfold runValidation.
  destruct (foldl_outcome_ind
              (score_case (getVocab customVocab) algo normalize customVocab)
              (fun done t =>
                 matchingTokens t = totalGoldTokens t /\
                 roundTripCorrect t = length done /\
                 (algo <> WORDPIECE -> matchingBoundaries t = totalGoldBoundaries t) /\
                 (done <> [] -> 0 < totalGoldTokens t /\
                    (algo <> WORDPIECE -> 0 < totalGoldBoundaries t)))
              cases no_tally) as (t & -> & Ht & Hr & Hb & Hpos).
  - done.
  - intros done c rest t Hcases (Ht & Hr & Hb & Hpos).
    destruct (score_case_Done (getVocab customVocab) algo normalize customVocab t c)
      as (r & frames & _ & Hrun & ->).
    eexists. split; [done|].
    cbn [matchingTokens totalGoldTokens roundTripCorrect matchingBoundaries
         totalGoldBoundaries].
    rewrite Forall_forall in Hall.
    destruct (Hall c) as (Hgold & Hdetok & Htoks).
    { rewrite Hcases. apply elem_of_app. right. left. }
    rewrite Hrun in Htoks. injection Htoks as Htoks.
    destruct (tokenize_walk (input c) algo normalize customVocab)
      as (r' & es & Hrun' & Htext & Hedges & Hsel & _ & Hlab & Hw0 & _).
    rewrite Hrun in Hrun'. injection Hrun' as <-.
    set (txt := if normalize then normalizeText (input c) else input c) in *.
    set (E := lattice_edges (buildLattice txt algo customVocab)) in *.
    pose proof (lattice_forward txt algo customVocab) as Hfw. fold E in Hfw.
    assert (walk E 0 (length txt) es) as Hw.
    { destruct Hw0 as [?|[_ ->]]; [done|].
      rewrite Hlab in Htoks. by rewrite <- Htoks in Hgold. }
    assert (forall e, e ∈ es -> e ∈ E) as Hes by (intros e; by eapply walk_elem).
    assert (Forall (fun t => t <> []) (tokens r)) as Hnonempty.
    { rewrite Hlab. apply Forall_fmap, Forall_forall. intros e He. simpl.
      destruct (lattice_label txt algo customVocab e (Hes e He)) as [->|(_ & _ & ->)].
      - by apply spanned_nonempty, Hfw, Hes.
      - done. }
    assert (0 < length es) as Hlen.
    { destruct es; [|simpl; lia]. rewrite Hlab in Htoks. by rewrite <- Htoks in Hgold. }
    rewrite <- Htoks, Hdetok. cbn [default from_option id].
    rewrite count_up_same by done. rewrite bool_decide_true by done.
    rewrite length_app. cbn [length]. split_and!; [lia|lia| |].
    + intros Halgo. rewrite Htext, Hsel.
      assert (tokens r = spanned txt <$> es) as ->.
      { rewrite Hlab. apply list_fmap_ext. intros i e Hi.
        apply list_elem_of_lookup_2 in Hi.
        destruct (lattice_label txt algo customVocab e (Hes e Hi)) as [->|(-> & _)]; done. }
      unfold gold_bounds. rewrite (gold_bounds_walk E txt _ _ es [] Hfw Hw).
      cbn [fst app]. rewrite bounds_match_spans, length_fmap. rewrite Hb by done. lia.
    + intros _. rewrite Hlab, length_fmap. split; [lia|].
      intros Halgo. rewrite Htext.
      assert (tokens r = spanned txt <$> es) as Heq.
      { rewrite Hlab. apply list_fmap_ext. intros i e Hi.
        apply list_elem_of_lookup_2 in Hi.
        destruct (lattice_label txt algo customVocab e (Hes e Hi)) as [->|(-> & _)]; done. }
      rewrite <- Hlab, Heq.
      unfold gold_bounds. rewrite (gold_bounds_walk E txt _ _ es [] Hfw Hw).
      cbn [fst app]. rewrite length_fmap. lia.
  - rewrite bind_Done. eexists. split; [done|]. simpl.
    destruct (Hpos Hne) as [Hp1 Hp2].
    rewrite Ht, Hr. split_and!.
    + by apply ratio_one.
    + apply ratio_one. destruct cases; [done|simpl; lia].
    + intros Halgo. rewrite Hb by done. apply ratio_one. by apply Hp2.
Qed.

(* ===================================================================== *)
(** * The Unigram trace *)
(* ===================================================================== *)

(** ** The frames of a Unigram trace *)

Lemma snapshot_nodes mc : snap_node <$> snapshot mc = seq 0 (length mc).
Proof.
  unfold snapshot. apply list_eq. intros j.
  rewrite list_lookup_fmap, list_lookup_imap.
  destruct (mc !! j) as [ent|] eqn:Hj; simpl.
  - symmetry. apply lookup_seq. split; [done|]. by eapply lookup_lt_Some.
  - symmetry. apply lookup_seq_ge. by apply lookup_ge_None.
Qed.

Lemma snapshot_of_costs E n i mc f :
  costs_inv E n i mc -> viterbiSnapshot f = Some (snapshot mc) -> snapshot_of n f.
Proof.
  intros Hinv Hf. exists (snapshot mc). split; [done|].
  rewrite snapshot_nodes. by rewrite (inv_length _ _ _ _ Hinv).
Qed.

Lemma update_frame_is_update i e mc : is_update_frame (update_frame i e mc) = true.
Proof. unfold is_update_frame, update_frame. cbn [frame_id]. apply startsWith_app. Qed.

Lemma relax_traced_spec i mc frames e here there :
  mc !! i = Some here -> mc !! edge_to e = Some there ->
  relax_traced i (mc, frames) e
  = Done (if Num.ltb (cost_plus (cost here) (edge_score e)) (cost there)
          then
            let mc' := <[edge_to e :=
                          {| cost := cost_plus (cost here) (edge_score e);
                             edgeId := Some (edge_id e);
                             prevNode := Z.of_nat i |}]> mc in
            (mc', frames ++ [update_frame i e mc'])
          else (mc, frames)).
Proof. intros Hh Ht. unfold relax_traced. rewrite Hh, Ht. by destruct (Num.ltb _ _). Qed.

Section UnigramTrace.
Variables (E : list TokenEdge) (n : nat).
Hypothesis Hforward : forall e, e ∈ E -> edge_from e < edge_to e <= n.

Lemma relax_traced_inv i st e c :
  costs_inv E n i st.1 -> Forall (forward_frame n) st.2 -> ids_framed st ->
  length (List.filter is_update_frame st.2) <= c ->
  e ∈ E -> edge_from e = i ->
  exists st', relax_traced i st e = Done st' /\
    costs_inv E n i st'.1 /\ Forall (forward_frame n) st'.2 /\ ids_framed st' /\
    length (List.filter is_update_frame st'.2) <= S c.
Proof.
  destruct st as [mc frames]. cbn [fst snd]. intros Hinv Hfr Hids Hc He Hfrom.
  pose proof (Hforward e He) as Hfw.
  destruct (costs_inv_lookup E n i mc i Hinv) as [here Hhere]; [lia|].
  destruct (costs_inv_lookup E n i mc (edge_to e) Hinv) as [there Hthere]; [lia|].
  destruct (relax_inv E n Hforward i mc e Hinv He Hfrom) as (mc' & Hrun & Hinv' & _).
  rewrite (relax_spec _ _ _ _ _ Hhere Hthere) in Hrun.
  rewrite (relax_traced_spec _ _ _ _ _ _ Hhere Hthere).
  destruct (Num.ltb _ _).
  - injection Hrun as Hmc. eexists. split; [done|]. cbn [fst snd]. rewrite Hmc.
    split_and!; [done| | |].
    + apply Forall_app. split; [done|]. apply Forall_singleton. split; [done|].
      by eapply snapshot_of_costs.
    + intros k ent id Hk Hid. cbn [fst snd] in *. rewrite <- Hmc in Hk.
      destruct (decide (k = edge_to e)) as [->|Hne].
      * rewrite list_lookup_insert_eq in Hk
          by (rewrite (inv_length _ _ _ _ Hinv); lia).
        injection Hk as <-. simpl in Hid. injection Hid as <-.
        exists (update_frame i e mc'). split_and!; [|apply update_frame_is_update|done].
        apply elem_of_app. right. left.
      * rewrite list_lookup_insert_ne in Hk by done.
        destruct (Hids k ent id Hk Hid) as (f & Hf & ? & ?).
        exists f. split_and!; [|done..]. apply elem_of_app. by left.
    + rewrite List.filter_app, length_app. cbn [List.filter].
      rewrite update_frame_is_update. cbn [length]. lia.
  - injection Hrun as <-. eexists. split; [done|]. simpl. split_and!; [done..|lia].
Qed.

Lemma visit_traced_inv i st c :
  i < n -> costs_inv E n i st.1 -> Forall (forward_frame n) st.2 -> ids_framed st ->
  length (List.filter is_update_frame st.2) <= c ->
  exists st', visit_traced E st i = Done st' /\
    costs_inv E n (S i) st'.1 /\ Forall (forward_frame n) st'.2 /\ ids_framed st' /\
    length (List.filter is_update_frame st'.2)
    <= c + length (filter (fun e => edge_from e = i) E).
Proof.
  destruct st as [mc frames]. cbn [fst snd]. intros Hi Hinv Hfr Hids Hc.
  destruct (costs_inv_lookup E n i mc i Hinv) as [here Hhere]; [lia|].
  unfold visit_traced. rewrite Hhere. destruct (Num.eqb (cost here) PInf).
  { exists (mc, frames). split; [done|]. simpl. split_and!; [|done..|lia].
    eapply costs_inv_mono; [|done]. lia. }
  set (outgoing := filter (fun e => edge_from e = i) E).
  match goal with
  | |- context [foldl _ (Done (mc, ?fr)) outgoing] => set (frames' := fr)
  end.
  destruct (foldl_outcome_ind (relax_traced i)
              (fun done st' =>
                 costs_inv E n i st'.1 /\ Forall (forward_frame n) st'.2 /\
                 ids_framed st' /\
                 length (List.filter is_update_frame st'.2) <= c + length done)
              outgoing (mc, frames')) as (st' & Hrun & Hinv' & Hfr' & Hids' & Hc').
  - simpl. split_and!; [done| | |].
    + apply Forall_app. split; [done|]. apply Forall_singleton. split; [done|].
      by eapply snapshot_of_costs.
    + intros k ent id Hk Hid. destruct (Hids k ent id Hk Hid) as (f & Hf & ? & ?).
      exists f. split_and!; [|done..]. apply elem_of_app. by left.
    + unfold frames'. rewrite List.filter_app, length_app. cbn [List.filter].
      replace (is_update_frame _) with false by (symmetry; reflexivity).
      cbn [length]. lia.
  - intros done e rest st1 Hsplit (Hinv1 & Hfr1 & Hids1 & Hc1).
    assert (e ∈ E /\ edge_from e = i) as [He Hfrom].
    { assert (e ∈ outgoing) as Hin by (rewrite Hsplit; apply elem_of_app; right; left).
      by apply list_elem_of_filter in Hin as [? ?]. }
    destruct (relax_traced_inv i st1 e _ Hinv1 Hfr1 Hids1 Hc1 He Hfrom)
      as (st2 & -> & ? & ? & ? & ?).
    exists st2. split; [done|]. rewrite length_app. simpl. split_and!; [done..|lia].
  - exists st'. split; [done|]. split_and!; [|done..].
    eapply costs_inv_mono; [|done]. lia.
Qed.

Lemma forward_pass_traced_inv :
  exists st, forward_pass_traced E n = Done st /\
    costs_inv E n n st.1 /\ Forall (forward_frame n) st.2 /\ ids_framed st /\
    length (List.filter is_update_frame st.2)
    <= length (seq 0 n ≫= (fun i => filter (fun e => edge_from e = i) E)).
Proof.
  unfold forward_pass_traced.
  destruct (foldl_outcome_ind (visit_traced E)
              (fun done st =>
                 costs_inv E n (length done) st.1 /\ Forall (forward_frame n) st.2 /\
                 ids_framed st /\
                 length (List.filter is_update_frame st.2)
                 <= length (done ≫= (fun i => filter (fun e => edge_from e = i) E)))
              (seq 0 n) (initial_costs n, [])) as (st & Hrun & Hinv & Hfr & Hids & Hc).
  - simpl. split_and!; [apply initial_costs_inv|constructor| |done].
    intros k ent id Hk Hid. simpl in Hk. unfold initial_costs in Hk.
    destruct (decide (k = 0)) as [->|Hne].
    + rewrite list_lookup_insert_eq in Hk by (rewrite length_replicate; lia).
      by injection Hk as <-.
    + rewrite list_lookup_insert_ne in Hk by done.
      apply lookup_replicate in Hk as [-> _]. done.
  - intros done i rest st Hsplit (Hinv & Hfr & Hids & Hc).
    assert (i = length done /\ i < n) as [-> Hi].
    { assert (seq 0 n !! length done = Some i) as Hl.
      { rewrite Hsplit. by rewrite list_lookup_middle. }
      apply lookup_seq in Hl. lia. }
    destruct (visit_traced_inv _ st _ Hi Hinv Hfr Hids Hc) as (st' & -> & ? & ? & ? & ?).
    exists st'. split; [done|]. rewrite length_app, bind_app, length_app. simpl.
    rewrite Nat.add_1_r, app_nil_r. done.
  - exists st. split; [done|]. rewrite length_seq in Hinv. done.
Qed.
End UnigramTrace.

Section UnigramBacktrack.
Variables (E : list TokenEdge) (n : nat).
Hypothesis HE : lattice_ok E n.

Lemma backtracked_nil mc k acc frames : backtracked E n mc k acc frames (acc, frames).
Proof.
  exists [], []. rewrite app_nil_r.
  split_and!; [done|constructor|constructor|constructor|done|].
  intros j id Hj. done.
Qed.

Lemma backtrack_traced_playback i mc fuel (k : nat) acc frames :
  costs_inv E n i mc -> k <= n -> k <= fuel ->
  exists res,
    backtrack_traced fuel mc (Z.of_nat k) acc frames = Done res /\
    backtracked E n mc k acc frames res.
Proof.
  intros Hinv. revert k acc frames.
  induction fuel as [|fuel IH]; intros k acc frames Hk Hfuel.
  - assert (k = 0) as -> by lia. eexists. split; [done|]. apply backtracked_nil.
  - cbn [backtrack_traced]. case_bool_decide as Hpos.
    2:{ eexists. split; [done|]. apply backtracked_nil. }
    rewrite Nat2Z.id.
    destruct (costs_inv_lookup E n i mc k Hinv Hk) as [ent Hent]. rewrite Hent.
    destruct (inv_entry _ _ _ _ Hinv k ent Hent)
      as [->|(e & src & He & _ & Hto & _ & Heq)]; [lia| |].
    { eexists. split; [done|]. apply backtracked_nil. }
    pose proof (ok_forward _ _ HE e He) as Hfw.
    pose proof (ok_id_nonempty _ _ HE e He) as Hid.
    assert (no_edge ent = false) as ->.
    { rewrite Heq. unfold no_edge. simpl. by destruct (edge_id e). }
    assert (default [] (edgeId ent) = edge_id e) as Hdef by (by rewrite Heq).
    assert (prevNode ent = Z.of_nat (edge_from e)) as Hprev by (by rewrite Heq).
    rewrite Hdef, Hprev.
    match goal with
    | |- context [backtrack_traced fuel mc _ _ (frames ++ [?f])] => set (f0 := f)
    end.
    destruct (IH (edge_from e) (edge_id e :: acc) (frames ++ [f0]))
      as (res & Hrun & es & new & -> & Hes & Hsorted & Hnew & Hlen & Hplay); [lia..|].
    assert (is_update_frame f0 = false) as Hf0 by reflexivity.
    eexists. split; [done|].
    exists (es ++ [e]), (f0 :: new). split_and!.
    + rewrite fmap_app. simpl. by rewrite <- !app_assoc.
    + apply Forall_app. split.
      * eapply Forall_impl; [done|]. intros e' (? & ? & ?). split_and!; [done|lia|done].
      * apply Forall_singleton. split_and!; [done|lia|].
        exists ent. rewrite Hto. split; [done|]. by rewrite Heq.
    + apply StronglySorted_app_2; [|done|repeat constructor].
      intros e1 e2 He1 ->%list_elem_of_singleton.
      rewrite Forall_forall in Hes. destruct (Hes e1 He1) as (_ & ? & _). lia.
    + by constructor.
    + rewrite length_app. simpl. lia.
    + intros j id Hj. rewrite fmap_app in Hj |- *. rewrite length_app. simpl length.
      destruct (decide (j < length es)) as [Hlt|Hge].
      * rewrite lookup_app_l in Hj by (by rewrite length_fmap).
        destruct (Hplay j id Hj) as (f & Hf & ? & Hpp & ? & ? & ?).
        exists f. split_and!; try done.
        -- replace (length es + 1 - 1 - j) with (S (length es - 1 - j)) by lia. done.
        -- rewrite Hpp. simpl. by rewrite <- app_assoc.
      * assert (j = length es) as ->.
        { apply lookup_lt_Some in Hj. rewrite length_app, length_fmap in Hj.
          simpl in Hj. lia. }
        rewrite lookup_app_r in Hj by (by rewrite length_fmap).
        rewrite length_fmap, Nat.sub_diag in Hj. injection Hj as <-.
        exists f0. replace (length es + 1 - 1 - length es) with 0 by lia.
        split_and!; try done.
        -- simpl. rewrite <- app_assoc. simpl.
           by rewrite drop_app_length' by (by rewrite length_fmap).
        -- by eapply snapshot_of_costs.
Qed.
End UnigramBacktrack.

Lemma unigram_trace `{HostMath} `{HostString} (inputText : jsstring)
    (normalize : bool) (customVocab : option (list VocabItem)) :
  let processedText := if normalize then normalizeText inputText else inputText in
  let E := lattice_edges (buildLattice processedText UNIGRAM customVocab) in
  let n := length processedText in
  exists st res,
    forward_pass_traced E n = Done st /\
    costs_inv E n n st.1 /\ Forall (forward_frame n) st.2 /\ ids_framed st /\
    length (List.filter is_update_frame st.2) <= length E /\
    backtracked E n st.1 n [] st.2 res /\
    tokenizeWithTrace inputText UNIGRAM normalize customVocab
    = Done ({| graph := {| nodes := lattice_nodes
                                      (buildLattice processedText UNIGRAM customVocab);
                           edges := E; text := processedText |};
               selectedPath := res.1;
               tokens := label_of E <$> res.1 |}, res.2).
Proof.
  intros processedText E n.
  pose proof (buildLattice_ok processedText UNIGRAM customVocab) as HE.
  fold E n in HE.
  destruct (forward_pass_traced_inv E n (ok_forward _ _ HE))
    as (st & Hfwd & Hinv & Hfr & Hids & Hc).
  destruct (backtrack_traced_playback E n HE n st.1 n n [] st.2 Hinv)
    as (res & Hback & Hres); [lia..|].
  exists st, res. split_and!; try done.
  - etrans; [exact Hc|]. apply Nat.eq_le_incl. f_equal.
    unfold E at 2. rewrite lattice_edges_eq.
    apply Forall_bind_ext, Forall_forall. intros i Hi%elem_of_seq.
    apply lattice_outgoing. unfold n in Hi. lia.
  - unfold tokenizeWithTrace. fold processedText. fold E. fold n.
    rewrite bool_decide_true by done.
    rewrite Hfwd, bind_Done, Hback, bind_Done. done.
Qed.

(** X17. The frames of a Unigram trace are the frames of the forward pass,
    which carry no partial path, followed by one frame per selected edge,
    last edge first, each with the part of the selected path from its edge
    on; every frame carries a snapshot with one cost entry per node. *)
Theorem unigram_trace_playback `{HostMath} `{HostString} (inputText : jsstring)
    (normalize : bool) (customVocab : option (list VocabItem)) :
  exists r forward backward,
    tokenizeWithTrace inputText UNIGRAM normalize customVocab
    = Done (r, forward ++ backward) /\
    Forall (forward_frame (length (text (graph r)))) forward /\
    backtrack_playback (length (text (graph r))) (selectedPath r) backward.
Proof.
  destruct (unigram_trace inputText normalize customVocab)
    as (st & res & _ & _ & Hfr & _ & _ & Hres & ->).
  destruct Hres as (es & new & -> & _ & _ & _ & Hlen & Hplay).
  eexists _, st.2, new. split; [done|]. cbn [graph text selectedPath fst snd].
  split; [done|]. rewrite app_nil_r in *. split.
  - by rewrite length_fmap.
  - intros k id Hk. rewrite length_fmap. apply Hplay, Hk.
Qed.

Lemma sorted_by_end_NoDup (es : list TokenEdge) :
  StronglySorted (fun e e' => edge_to e < edge_to e') es -> NoDup es.
Proof.
  induction 1 as [|e l _ IH Hall]; constructor; [|done].
  intros He. rewrite Forall_forall in Hall. specialize (Hall e He). lia.
Qed.

(** X18. The number [computeBacktracks] reports for a trace is 0 for BPE
    and WordPiece; for the trace of Unigram it is at least the number of
    selected edges (the first cost a node gets counts as an update) and at
    most the number of edges of the lattice. *)
Theorem backtracks_count `{HostMath} `{HostString} (inputText : jsstring)
    (algo : AlgorithmType) (normalize : bool)
    (customVocab : option (list VocabItem)) :
  exists r frames,
    tokenizeWithTrace inputText algo normalize customVocab = Done (r, frames) /\
    if bool_decide (algo = UNIGRAM)
    then length (selectedPath r) <= computeBacktracks algo frames
         /\ computeBacktracks algo frames <= length (edges (graph r))
    else computeBacktracks algo frames = 0.
Proof.
  unfold computeBacktracks. case_bool_decide as Halgo.
  2:{ destruct (tokenizeWithTrace_Done inputText algo normalize customVocab)
        as (r & frames & -> & _). eauto. }
  subst algo.
  destruct (unigram_trace inputText normalize customVocab)
    as (st & res & _ & _ & _ & Hids & Hc & Hres & ->).
  set (processedText := if normalize then normalizeText inputText else inputText) in *.
  pose proof (buildLattice_ok processedText UNIGRAM customVocab) as HE.
  set (E := lattice_edges (buildLattice processedText UNIGRAM customVocab)) in *.
  destruct Hres as (es & new & -> & Hes & Hsorted & Hnew & _ & _).
  eexists _, _. split; [done|]. cbn [graph edges selectedPath fst snd].
  rewrite List.filter_app, length_app.
  assert (List.filter is_update_frame new = []) as ->.
  { clear -Hnew. induction Hnew as [|f new Hf _ IH]; [done|]. simpl. by rewrite Hf. }
  simpl. rewrite Nat.add_0_r, app_nil_r, length_fmap. split; [|done].
  rewrite <- (length_fmap edge_id es).
  etrans; [|apply (length_omap_le chosen)].
  apply submseteq_length, NoDup_submseteq.
  - apply NoDup_fmap_2_strong; [|by apply sorted_by_end_NoDup].
    rewrite Forall_forall in Hes. intros e e' He He'.
    apply (ok_ids _ _ HE); by apply Hes.
  - intros id (e & -> & He)%list_elem_of_fmap.
    rewrite Forall_forall in Hes. destruct (Hes e He) as (_ & _ & ent & Hent & Hid).
    destruct (Hids _ _ _ Hent Hid) as (f & Hf & Hupd & Hch).
    apply list_elem_of_omap. exists f. split; [|done].
    apply list_elem_of_In, filter_In. split; [by apply list_elem_of_In|done].
Qed.

(* ===================================================================== *)
(** * The vocabulary generators *)
(* ===================================================================== *)

(** ** Sorting by descending score *)

Lemma sub_pos_asym a b :
  Num.ltb (Fin 0) (Num.sub b a) = true -> Num.ltb (Fin 0) (Num.sub a b) = false.
Proof.
  destruct a as [x| | |], b as [y| | |]; simpl; try done.
  rewrite Qltb_lt. intros Hlt. apply Qltb_ge. lra.
Qed.

Lemma descending_cons a l :
  descending (a :: l) <->
  match l with
  | [] => True
  | b :: _ => Num.ltb (Fin 0) (Num.sub (score b) (score a)) = false
  end /\ descending l.
Proof.
  unfold descending. split.
  - intros Hd. split.
    + destruct l as [|b l]; [done|]. by apply (Hd 0).
    + intros i x y Hx Hy. by apply (Hd (S i)).
  - intros [Hh Ht] [|i] x y Hx Hy; simpl in *.
    + injection Hx as <-. destruct l as [|b l]; [done|]. by injection Hy as <-.
    + by apply (Ht i).
Qed.

Lemma descending_nil : descending [].
Proof. intros i a b Ha. done. Qed.

Lemma sort_insert_descending x l :
  descending l -> descending (sort_insert (fun a b => Num.sub (score b) (score a)) x l).
Proof.
  induction l as [|y l IH]; intros Hd.
  - cbn [sort_insert]. apply descending_cons. split; [done|apply descending_nil].
  - cbn [sort_insert]. destruct (Num.ltb (Fin 0) (Num.sub (score y) (score x))) eqn:Hxy.
    + apply descending_cons in Hd as [Hh Hd]. apply descending_cons. split; [|by apply IH].
      destruct l as [|z l]; cbn [sort_insert].
      * by apply sub_pos_asym.
      * destruct (Num.ltb (Fin 0) (Num.sub (score z) (score x))); [done|].
        by apply sub_pos_asym.
    + apply descending_cons. by split.
Qed.

Lemma Array_sort_is_descending l :
  descending (Array_sort (fun a b => Num.sub (score b) (score a)) l).
Proof.
  unfold Array_sort. induction l as [|x l IH]; cbn [foldr]; [apply descending_nil|].
  by apply sort_insert_descending.
Qed.

(** ** [augmentVocabWithAffixes] *)

Lemma augmented_eq (S : gset jsstring) (vocab affixes : list VocabItem) :
  foldl (fun augmented affix =>
           if bool_decide (token affix ∈ S) then augmented else augmented ++ [affix])
    vocab affixes
  = vocab ++ filter (fun a => token a ∉ S) affixes.
Proof.
  revert vocab. induction affixes as [|a affixes IH]; intros vocab; simpl.
  - by rewrite app_nil_r.
  - rewrite IH, filter_cons. case_bool_decide as Ha.
    + by rewrite decide_False by (by intros []).
    + rewrite decide_True by done. by rewrite <- app_assoc.
Qed.

Lemma augment_perm vocab :
  augmentVocabWithAffixes vocab
  ≡ₚ vocab ++ filter (fun a => token a ∉ token <$> vocab) commonAffixes.
Proof.
  unfold augmentVocabWithAffixes. rewrite Array_sort_perm, augmented_eq.
  apply Permutation_app_head.
  rewrite (list_filter_iff _ (fun a => token a ∉ token <$> vocab)); [done|].
  intros a. by rewrite elem_of_list_to_set.
Qed.

(** X19. [augmentVocabWithAffixes] returns the entries of the vocabulary
    together with those of the ten common affixes whose token the
    vocabulary lacks, and nothing else: afterwards every affix token is in
    the vocabulary, and no entry of the input is lost or duplicated. *)
Theorem augment_adds_missing_affixes (vocab : list VocabItem) :
  augmentVocabWithAffixes vocab
  ≡ₚ vocab ++ filter (fun a => token a ∉ token <$> vocab) commonAffixes /\
  Forall (fun a => token a ∈ token <$> augmentVocabWithAffixes vocab) commonAffixes.
Proof.
  split; [apply augment_perm|].
  apply Forall_forall. intros a Ha. rewrite augment_perm, fmap_app.
  apply elem_of_app. destruct (decide (token a ∈ token <$> vocab)); [by left|right].
  apply list_elem_of_fmap_2. by apply list_elem_of_filter.
Qed.

(** X20. For a vocabulary whose scores are numbers, the result of
    [augmentVocabWithAffixes] is in descending order of score, and
    augmenting it again changes nothing. *)
Theorem augment_sorted_idempotent (vocab : list VocabItem) :
  Forall (fun v => score v <> NaN) vocab ->
  descending (augmentVocabWithAffixes vocab) /\
  augmentVocabWithAffixes (augmentVocabWithAffixes vocab)
  = augmentVocabWithAffixes vocab.
Proof.
  intros _. split; [apply Array_sort_is_descending|].
  unfold augmentVocabWithAffixes at 1. rewrite augmented_eq.
  rewrite (filter_none _ commonAffixes).
  - rewrite app_nil_r. apply Array_sort_descending, Array_sort_is_descending.
  - intros a Ha Hnot. apply Hnot. apply elem_of_list_to_set.
    rewrite augment_perm, fmap_app. apply elem_of_app.
    destruct (decide (token a ∈ token <$> vocab)); [by left|right].
    apply list_elem_of_fmap_2. by apply list_elem_of_filter.
Qed.

(** ** Counting in a [Map] *)

Lemma Map_get_set {V} (m : list (jsstring * V)) k k' (v : V) :
  Map_get (Map_set m k v) k' = if bool_decide (k = k') then Some v else Map_get m k'.
Proof.
  unfold Map_get. induction m as [|[k0 v0] m IH]; simpl.
  - by case_bool_decide.
  - destruct (decide (k0 = k)) as [->|Hne].
    + rewrite bool_decide_true by done. simpl. by case_bool_decide.
    + rewrite (bool_decide_false (k0 = k)) by done. simpl.
      destruct (decide (k0 = k')) as [->|Hne'].
      * rewrite !bool_decide_true by done. simpl.
        by rewrite bool_decide_false by done.
      * rewrite (bool_decide_false (k0 = k')) by done. apply IH.
Qed.

Lemma Map_set_keys {V} (m : list (jsstring * V)) k (v : V) :
  fst <$> Map_set m k v
  = if bool_decide (k ∈ fst <$> m) then fst <$> m else (fst <$> m) ++ [k].
Proof.
  induction m as [|[k0 v0] m IH]; [done|]. csimpl.
  destruct (decide (k0 = k)) as [->|Hne].
  - rewrite !bool_decide_true; [done|left|done].
  - rewrite (bool_decide_false (k0 = k)) by done. csimpl. rewrite IH.
    destruct (decide (k ∈ fst <$> m)).
    + rewrite !bool_decide_true; [done|by right|done].
    + rewrite !bool_decide_false; [done| |done].
      intros [?|?]%elem_of_cons; done.
Qed.

Lemma Map_get_None {V} (m : list (jsstring * V)) k :
  Map_get m k = None <-> k ∉ fst <$> m.
Proof.
  unfold Map_get. induction m as [|[k0 v0] m IH]; simpl.
  - split; [|done]. intros _ ?%elem_of_nil. done.
  - case_bool_decide as Hk; simpl in *.
    + subst. split; [done|]. intros Hn. exfalso. apply Hn. left.
    + rewrite IH. rewrite not_elem_of_cons. split; [by intros ?|by intros [_ ?]].
Qed.

Lemma Map_get_elem {V} (m : list (jsstring * V)) k (v : V) :
  NoDup (fst <$> m) -> (k, v) ∈ m <-> Map_get m k = Some v.
Proof.
  unfold Map_get. induction m as [|[k0 v0] m IH]; simpl; intros Hnd.
  - split; [by intros ?%elem_of_nil|done].
  - apply NoDup_cons in Hnd as [Hk0 Hnd]. case_bool_decide as Hk; simpl in *.
    + subst k0. split.
      * intros [[= ->]|Hin]%elem_of_cons; [done|].
        exfalso. apply Hk0. by apply (list_elem_of_fmap_2 fst _ (k, v)).
      * intros [= ->]. left.
    + rewrite <- IH by done. rewrite elem_of_cons. split; [|by right].
      intros [[= -> _]|?]; done.
Qed.

Lemma times_snoc k keys x :
  times k (keys ++ [x]) = times k keys + (if bool_decide (x = k) then 1 else 0).
Proof.
  unfold times. rewrite filter_app, length_app, filter_cons, filter_nil.
  case_bool_decide; [by rewrite decide_True|by rewrite decide_False].
Qed.

Lemma times_app k l1 l2 : times k (l1 ++ l2) = times k l1 + times k l2.
Proof. unfold times. by rewrite filter_app, length_app. Qed.

Lemma times_zero k keys : k ∉ keys -> times k keys = 0.
Proof.
  intros Hk. unfold times. rewrite filter_none; [done|].
  intros x Hx ->. done.
Qed.

Lemma counted (keys : list jsstring) :
  let m := foldl Map_count [] keys in
  NoDup (fst <$> m) /\
  forall k, Map_get m k = if bool_decide (times k keys = 0) then None
                          else Some (times k keys).
Proof.
  induction keys as [|x keys IH] using rev_ind; simpl.
  - split; [constructor|done].
  - rewrite foldl_app. simpl. destruct IH as [Hnd Hget]. split.
    + unfold Map_count. rewrite Map_set_keys. case_bool_decide as Hx; [done|].
      apply NoDup_app. split_and!; [done| |apply NoDup_singleton].
      intros y Hy ->%list_elem_of_singleton. done.
    + intros k. unfold Map_count. rewrite Map_get_set, times_snoc.
      case_bool_decide as Hxk.
      * subst x. rewrite bool_decide_false by lia. rewrite Hget.
        case_bool_decide as Hz; simpl; f_equal; lia.
      * rewrite Nat.add_0_r. apply Hget.
Qed.

(** ** [generateVocabFromNgrams] *)

Lemma ngram_fold normalized n m :
  foldl (ngram_step normalized n) m (ngram_positions normalized n)
  = foldl Map_count m (ngram_keys normalized n).
Proof.
  unfold ngram_keys. revert m.
  induction (ngram_positions normalized n) as [|i l IH]; intros m; [done|].
  csimpl. rewrite filter_cons. unfold ngram_step at 2.
  destruct (existsb is_white_space (substring normalized i (i + n))) eqn:Hw.
  - rewrite decide_False by done. apply IH.
  - rewrite decide_True by done. simpl. apply IH.
Qed.

Lemma ngrams_fold normalized (ns : list nat) m :
  foldl (fun vocab n =>
           foldl (ngram_step normalized n) vocab (ngram_positions normalized n))
    m ns
  = foldl Map_count m (ns ≫= ngram_keys normalized).
Proof.
  revert m. induction ns as [|n ns IH]; intros m; [done|].
  csimpl. rewrite foldl_app, IH. by rewrite ngram_fold.
Qed.

Lemma ngram_key_spec normalized n g :
  g ∈ ngram_keys normalized n <->
  length g = n /\ existsb is_white_space g = false /\
  exists i, i + n <= length normalized /\ g = substring normalized i (i + n).
Proof.
  unfold ngram_keys, ngram_positions. rewrite list_elem_of_filter, list_elem_of_fmap.
  split.
  - intros (Hw & i & -> & Hi). case_bool_decide; [|by apply elem_of_nil in Hi].
    apply elem_of_seq in Hi. split_and!; [|done|].
    + rewrite substring_length by lia. lia.
    + exists i. split; [lia|done].
  - intros (Hlen & Hw & i & Hi & ->). split; [done|]. exists i. split; [done|].
    rewrite bool_decide_true by lia. apply elem_of_seq. lia.
Qed.

Lemma times_filter_fmap {A} (P : jsstring -> Prop) `{forall x, Decision (P x)}
    (f : A -> jsstring) (l : list A) (t : jsstring) :
  times t (filter P (f <$> l))
  = if decide (P t) then length (filter (fun i => f i = t) l) else 0.
Proof.
  unfold times. destruct (decide (P t)) as [Ht|Ht].
  - induction l as [|a l IH]; [done|]. csimpl. rewrite !filter_cons.
    destruct (decide (f a = t)) as [Heq|Hne].
    + rewrite Heq, decide_True by done. rewrite filter_cons, decide_True by done.
      simpl. by rewrite IH.
    + destruct (decide (P (f a))); [|done].
      by rewrite filter_cons, decide_False by done.
  - apply length_zero_iff_nil, filter_none.
    intros x [Hx _]%list_elem_of_filter ->. done.
Qed.

Lemma times_ngram_keys normalized t :
  times t (ngram_keys normalized (length t))
  = if existsb is_white_space t then 0 else length (occurrences normalized t).
Proof.
  unfold ngram_keys, occurrences. rewrite times_filter_fmap.
  destruct (existsb is_white_space t).
  - by rewrite decide_False.
  - by rewrite decide_True.
Qed.

Lemma times_bind (t : jsstring) (f : nat -> list jsstring) (ns : list nat) :
  NoDup ns -> (forall n g, g ∈ f n -> length g = n) ->
  times t (ns ≫= f) = if bool_decide (length t ∈ ns) then times t (f (length t)) else 0.
Proof.
  intros Hnd Hf. induction Hnd as [|n ns Hn Hnd IH]; [done|]. csimpl.
  rewrite times_app, IH. destruct (decide (n = length t)) as [->|Hne].
  - rewrite (bool_decide_true (length t ∈ length t :: ns)) by left.
    rewrite (bool_decide_false (length t ∈ ns)) by done. lia.
  - rewrite (times_zero t (f n)).
    2:{ intros Hin. apply Hf in Hin. done. }
    simpl. destruct (decide (length t ∈ ns)) as [Hin|Hin].
    + rewrite !bool_decide_true; [done|by right|done].
    + rewrite !bool_decide_false; [done| |done]. intros [?|?]%elem_of_cons; done.
Qed.

Lemma descending_take k l : descending l -> descending (take k l).
Proof.
  intros Hd i a b Ha Hb. apply lookup_take_Some in Ha as [Ha _].
  apply lookup_take_Some in Hb as [Hb _]. by apply (Hd i).
Qed.

(** X21. The vocabulary [generateVocabFromNgrams] returns (for natural
    numbers as parameters) has at most 500 entries, with pairwise distinct
    tokens, in descending order of score; every token is an n-gram of the
    lower-cased and trimmed text without white space, of a length between
    [minN] and [maxN], and its score is the number of its occurrences in
    that text, which is at least [minFreq]; and every such n-gram is in the
    vocabulary unless the limit of 500 entries is reached. *)
Theorem ngram_vocabulary `{HostString} (text : jsstring)
    (minN maxN minFreq : option nat) :
  let normalized := trim (String_toLowerCase text) in
  let vocab := generateVocabFromNgrams text minN maxN minFreq in
  let listed (t : jsstring) :=
    default 1 minN <= length t <= default 4 maxN /\
    existsb is_white_space t = false /\
    1 <= length (occurrences normalized t) /\
    default 1 minFreq <= length (occurrences normalized t) in
  length vocab <= 500 /\ NoDup (token <$> vocab) /\ descending vocab /\
  (forall v, v ∈ vocab ->
     listed (token v) /\
     score v = Num.of_nat (length (occurrences normalized (token v)))) /\
  (forall t, listed t -> normalized <> [] ->
     t ∈ token <$> vocab \/ length vocab = 500).
Proof.
  intros normalized vocab listed. unfold vocab, generateVocabFromNgrams.
  fold normalized. case_bool_decide as Hnz.
  { split_and!; [simpl; lia|constructor|apply descending_nil| |].
    - intros v Hv. by apply elem_of_nil in Hv.
    - intros t _ Hn. done. }
  set (lo := default 1 minN). set (hi := default 4 maxN). set (mf := default 1 minFreq).
  rewrite ngrams_fold.
  set (keys := seq lo (hi + 1 - lo) ≫= ngram_keys normalized).
  destruct (counted keys) as [Hnd Hget].
  set (m := foldl Map_count [] keys) in *.
  set (entries := filter (fun entry : jsstring * nat => mf <= entry.2) m).
  set (sorted := Array_sort (fun a b => Num.sub (score b) (score a)) (item_of <$> entries)).
  assert (forall t, times t keys
            = if bool_decide (lo <= length t <= hi)
              then (if existsb is_white_space t then 0
                    else length (occurrences normalized t))
              else 0) as Htimes.
  { intros t. unfold keys. rewrite times_bind.
    - rewrite times_ngram_keys.
      destruct (decide (lo <= length t <= hi)) as [Hin|Hout].
      + rewrite !bool_decide_true; [done..|]. apply elem_of_seq. lia.
      + rewrite !bool_decide_false; [done..|]. intros Hin%elem_of_seq. lia.
    - apply NoDup_seq.
    - intros n g Hg. by apply ngram_key_spec in Hg as [? _]. }
  assert (forall t c, (t, c) ∈ entries <->
            listed t /\ c = length (occurrences normalized t)) as Hentries.
  { intros t c. unfold entries. rewrite list_elem_of_filter, (Map_get_elem m t c Hnd).
    rewrite Hget, Htimes. unfold listed. fold lo hi mf. simpl.
    destruct (decide (lo <= length t <= hi)) as [Hin|Hout].
    - rewrite (bool_decide_true (lo <= length t <= hi)) by done.
      destruct (existsb is_white_space t).
      + rewrite bool_decide_true by done. split; [by intros [_ ?]|].
        intros [(_ & ? & _) _]. done.
      + case_bool_decide as Hz.
        * split; [by intros [_ ?]|]. intros [(_ & _ & ? & _) _]. lia.
        * split.
          -- intros [Hmf [= <-]]. repeat split; try done; lia.
          -- intros [(_ & _ & _ & ?) ->]. done.
    - rewrite (bool_decide_false (lo <= length t <= hi)) by done.
      rewrite bool_decide_true by done. split; [by intros [_ ?]|].
      intros [(? & _) _]. done. }
  assert (NoDup (fst <$> entries)) as Hnd_entries.
  { unfold entries. apply (sublist_NoDup _ (fst <$> m)); [exact Hnd|].
    apply fmap_sublist, sublist_filter. }
  assert (token <$> (item_of <$> entries) = fst <$> entries) as Htok.
  { rewrite <- list_fmap_compose. by apply list_fmap_ext. }
  assert (sublist (take 500 sorted) sorted) as Hsub by apply sublist_take.
  split_and!.
  - rewrite length_take. lia.
  - apply (sublist_NoDup _ (token <$> sorted)); [|by apply fmap_sublist].
    unfold sorted. rewrite Array_sort_perm, Htok. done.
  - apply descending_take, Array_sort_is_descending.
  - intros v Hv. eapply elem_of_sublist in Hv; [|exact Hsub].
    unfold sorted in Hv. rewrite Array_sort_perm in Hv.
    apply list_elem_of_fmap in Hv as ([t c] & -> & Hin).
    apply Hentries in Hin as [Hl ->]. done.
  - intros t Ht _. destruct (decide (length sorted <= 500)) as [Hle|Hgt].
    + left. rewrite take_ge by done. unfold sorted. rewrite Array_sort_perm, Htok.
      apply (list_elem_of_fmap_2 fst _ (t, length (occurrences normalized t))).
      by apply Hentries.
    + right. rewrite length_take. lia.
Qed.

(** ** [generateVocabFromText] *)

Lemma part_of_refl s : part_of s s.
Proof. exists [], []. by rewrite app_nil_r. Qed.

Lemma part_of_trans a b c : part_of a b -> part_of b c -> part_of a c.
Proof.
  intros (x & y & ->) (x' & y' & ->). exists (x' ++ x), (y ++ y').
  by rewrite <- !app_assoc.
Qed.

Lemma part_of_cons t c s : part_of t s -> part_of t (c :: s).
Proof. intros (a & b & ->). by exists (c :: a), b. Qed.

Lemma part_of_app_l a b s : part_of (a ++ b) s -> part_of a s.
Proof. intros (x & y & ->). exists x, (b ++ y). by rewrite <- app_assoc. Qed.

Lemma part_of_app_r a b s : part_of (a ++ b) s -> part_of b s.
Proof. intros (x & y & ->). exists (x ++ a), y. by rewrite <- !app_assoc. Qed.

Lemma part_of_elem t s c : part_of t s -> c ∈ t -> c ∈ s.
Proof. intros (a & b & ->) Hc. rewrite !elem_of_app. auto. Qed.

Lemma part_of_substring (s : jsstring) i j :
  i <= j <= length s -> part_of (substring s i j) s.
Proof.
  intros Hij. exists (take i s), (drop j s).
  rewrite substring_in_range by done.
  rewrite <- (take_drop i s) at 1. f_equal.
  rewrite <- (take_drop (j - i) (drop i s)) at 1. f_equal.
  rewrite drop_drop. f_equal. lia.
Qed.

Lemma code_points_parts s cp : cp ∈ code_points s -> cp <> [] /\ part_of cp s.
Proof.
  revert cp. induction s as [s IH] using (induction_ltof1 _ (@length char)).
  unfold ltof in IH. intros cp. destruct s as [|c [|d s]]; simpl.
  - by intros ?%elem_of_nil.
  - intros ->%list_elem_of_singleton. split; [done|apply part_of_refl].
  - destruct (_ && _).
    + intros [->|Hin]%elem_of_cons.
      * split; [done|]. by exists [], s.
      * destruct (IH s ltac:(simpl; lia) cp Hin) as [? ?].
        split; [done|]. by do 2 apply part_of_cons.
    + intros [->|Hin]%elem_of_cons.
      * split; [done|]. by exists [], (d :: s).
      * destruct (IH (d :: s) ltac:(simpl; lia) cp Hin) as [? ?].
        split; [done|]. by apply part_of_cons.
Qed.

Lemma code_points_units s :
  Forall (fun c => is_lead_surrogate c = false) s ->
  code_points s = (fun c => [c]) <$> s.
Proof.
  induction s as [|c s IH]; [done|]. intros [Hc Hs]%Forall_cons.
  specialize (IH Hs). destruct s as [|d s]; [done|].
  change (code_points (c :: d :: s))
    with (if is_lead_surrogate c && is_trail_surrogate d
          then [c; d] :: code_points s else [c] :: code_points (d :: s)).
  rewrite Hc. simpl andb. cbv iota. by rewrite IH.
Qed.

Lemma split_spaces_parts piece in_space s w :
  w ∈ split_spaces piece in_space s ->
  (exists b, piece ++ s = w ++ b) \/ part_of w s.
Proof.
  revert piece in_space. induction s as [|c s IH]; intros piece in_space; simpl.
  - intros ->%list_elem_of_singleton. left. by exists [].
  - destruct (is_white_space c).
    + assert (w ∈ split_spaces [] true s -> part_of w (c :: s)) as Hrest.
      { intros [[b Hb]|Hp]%IH; apply part_of_cons; [|done].
        exists [], b. by rewrite <- Hb. }
      destruct in_space; [by right; apply Hrest|].
      intros [->|Hin]%elem_of_cons; [|by right; apply Hrest].
      left. by exists (c :: s).
    + intros [[b Hb]|Hp]%IH.
      * left. exists b. by rewrite <- Hb, <- app_assoc.
      * right. by apply part_of_cons.
Qed.

Lemma split_spaces_part s w : w ∈ String_split_spaces s -> part_of w s.
Proof.
  intros [[b Hb]|Hp]%split_spaces_parts; [|done].
  exists [], b. by rewrite <- Hb.
Qed.

Lemma String_split_none sep s : sep ∉ s -> String_split sep s = [s].
Proof.
  induction s as [|c s IH]; [done|]. intros [Hc Hs]%not_elem_of_cons. simpl.
  rewrite bool_decide_false by done. by rewrite IH.
Qed.

Lemma String_split_pair sep a b :
  sep ∉ a -> sep ∉ b -> String_split sep (a ++ sep :: b) = [a; b].
Proof.
  intros Ha Hb. induction a as [|c a IH]; simpl.
  - rewrite bool_decide_true by done. by rewrite String_split_none.
  - apply not_elem_of_cons in Ha as [Hc Ha].
    rewrite bool_decide_false by done. by rewrite IH.
Qed.

Lemma Map_set_Forall {V} (P : jsstring * V -> Prop) m k v :
  Forall P m -> P (k, v) -> Forall P (Map_set m k v).
Proof.
  intros Hm Hkv. induction Hm as [|kv m Hx Hm IH]; simpl.
  - by constructor.
  - case_bool_decide; by constructor.
Qed.

Lemma Map_set_NoDup {V} (m : list (jsstring * V)) k v :
  NoDup m.*1 -> NoDup (Map_set m k v).*1.
Proof.
  intros Hnd. rewrite Map_set_keys. case_bool_decide as Hk; [done|].
  apply NoDup_app. split_and!; [done| |apply NoDup_singleton].
  by intros x Hx ->%list_elem_of_singleton.
Qed.

Lemma Map_set_length {V} (m : list (jsstring * V)) k v :
  length (Map_set m k v) <= S (length m).
Proof.
  rewrite <- (length_fmap fst (Map_set m k v)), Map_set_keys.
  case_bool_decide; rewrite ?length_app, length_fmap; simpl; lia.
Qed.

Lemma Map_set_key {V} (m : list (jsstring * V)) k v k' :
  k' ∈ (Map_set m k v).*1 <-> k' ∈ m.*1 \/ k' = k.
Proof.
  rewrite Map_set_keys. case_bool_decide as Hk.
  - split; [by left|]. by intros [?| ->].
  - by rewrite elem_of_app, list_elem_of_singleton.
Qed.

Lemma Map_get_value {V} (P : jsstring * V -> Prop) m k v :
  Forall P m -> Map_get m k = Some v -> P (k, v).
Proof.
  unfold Map_get. intros Hm Hg.
  destruct (List.find _ m) as [[k0 v0]|] eqn:Hf; [|done].
  injection Hg as ->. apply find_some in Hf as [Hin%list_elem_of_In Hb].
  apply bool_decide_eq_true in Hb. simpl in Hb. subst k0.
  by apply (proj1 (Forall_forall P m) Hm).
Qed.

Lemma Map_increment_positive m k :
  Forall (fun kv => (1 <= kv.2)%Z) m ->
  (1 <= default 0 (Map_get m k) + 1)%Z.
Proof.
  intros Hm. destruct (Map_get m k) as [v|] eqn:Hg; simpl; [|lia].
  pose proof (Map_get_value _ m k v Hm Hg) as Hv. simpl in Hv. lia.
Qed.

(** The counts of the code points. *)
Lemma code_point_counts (keys : list jsstring) :
  let m := foldl Map_increment [] keys in
  NoDup m.*1 /\ (forall k, k ∈ m.*1 <-> k ∈ keys) /\
  Forall (fun kv => (1 <= kv.2)%Z) m.
Proof.
  induction keys as [|k keys IH] using rev_ind; simpl.
  - split_and!; [constructor|done|constructor].
  - rewrite foldl_app. simpl. destruct IH as (Hnd & Hk & Hv).
    split_and!.
    + by apply Map_set_NoDup.
    + intros k'. unfold Map_increment.
      rewrite Map_set_key, elem_of_app, list_elem_of_singleton, Hk. done.
    + apply Map_set_Forall; [done|]. by apply Map_increment_positive.
Qed.

Lemma known_length_Some vocab word i len :
  known_length vocab word i = Some len ->
  1 <= len /\ len <= length word - i.
Proof.
  unfold known_length. intros [Hin%list_elem_of_In _]%find_some.
  apply elem_of_reverse, elem_of_seq in Hin. lia.
Qed.

Lemma count_pairs_inv normalized vocab word fuel i pairCounts :
  part_of word normalized ->
  length word <= fuel + i ->
  Forall (pair_entry normalized) pairCounts ->
  exists pairCounts',
    count_pairs fuel vocab word i pairCounts = Done pairCounts' /\
    Forall (pair_entry normalized) pairCounts'.
Proof.
  intros Hword. revert i pairCounts.
  induction fuel as [|fuel IH]; intros i pairCounts Hfuel Hinv; simpl.
  - rewrite bool_decide_false by lia. eauto.
  - case_bool_decide as Hi; [|eauto].
    destruct (known_length vocab word i) as [len|] eqn:Hlen; [|apply IH; [lia|done]].
    apply known_length_Some in Hlen as [Hlen1 Hlen2].
    apply IH; [lia|]. case_bool_decide as Hnext; [|done].
    destruct (known_length vocab word (i + len)) as [nextLen|] eqn:Hlen'; [|done].
    apply known_length_Some in Hlen' as [Hn1 Hn2].
    apply Map_set_Forall; [done|]. split.
    + simpl. apply Map_increment_positive.
      eapply Forall_impl; [done|]. by intros kv [? _].
    + exists (substring word i (i + len)),
        (substring word (i + len) (i + len + nextLen)).
      split_and!; [done| | |].
      * intros Hnil%(f_equal length). rewrite substring_length in Hnil by lia.
        simpl in Hnil. lia.
      * intros Hnil%(f_equal length). rewrite substring_length in Hnil by lia.
        simpl in Hnil. lia.
      * rewrite substring_app by lia. eapply part_of_trans; [|done].
        apply part_of_substring. lia.
Qed.

Lemma pair_counts_inv vocab normalized :
  exists pairCounts,
    pair_counts vocab normalized = Done pairCounts /\
    Forall (pair_entry normalized) pairCounts.
Proof.
  unfold pair_counts.
  destruct (foldl_outcome_ind
              (fun pairCounts word =>
                 if bool_decide (word = []) then Done pairCounts
                 else count_pairs (length word) vocab word 0 pairCounts)
              (fun _ pairCounts => Forall (pair_entry normalized) pairCounts)
              (String_split_spaces normalized) []) as (pc & Hpc & Hinv).
  - constructor.
  - intros done word rest pc Heq Hinv. case_bool_decide; [eauto|].
    apply count_pairs_inv; [|lia|done].
    apply split_spaces_part. rewrite Heq, elem_of_app. right. left.
  - eauto.
Qed.

Lemma best_pair_spec minFreq pairCounts :
  best_pair minFreq pairCounts = ([], (minFreq - 1)%Z) \/
  (best_pair minFreq pairCounts ∈ pairCounts /\
   (minFreq <= (best_pair minFreq pairCounts).2)%Z).
Proof.
  induction pairCounts as [|entry l IH] using rev_ind; [by left|].
  assert (best_pair minFreq (l ++ [entry])
          = if ((best_pair minFreq l).2 <? entry.2)%Z then entry
            else best_pair minFreq l) as ->.
  { unfold best_pair. by rewrite foldl_app. }
  set (best := best_pair minFreq l) in *.
  destruct (Z.ltb_spec best.2 entry.2) as [Hlt|Hge].
  - right. split; [apply elem_of_app; right; left|].
    destruct IH as [Heq|[_ Hmin]]; [rewrite Heq in Hlt; simpl in Hlt|]; lia.
  - destruct IH as [Heq|[Hin Hmin]]; [by left|right].
    split; [|done]. apply elem_of_app. by left.
Qed.

Lemma merged_pair_parts (a b : jsstring) :
  124%N ∉ a -> 124%N ∉ b -> merged_pair (a ++ 124%N :: b) = a ++ b.
Proof. intros Ha Hb. unfold merged_pair. by rewrite String_split_pair. Qed.

Lemma merge_loop_inv remaining normalized minFreq maxVocabSize size vocab :
  text_vocab normalized minFreq size vocab ->
  exists vocab',
    merge_loop remaining normalized minFreq maxVocabSize vocab = Done vocab' /\
    text_vocab normalized minFreq (size + remaining) vocab'.
Proof.
  revert size vocab. induction remaining as [|remaining IH]; intros size vocab Hv; simpl.
  - exists vocab. by rewrite Nat.add_0_r.
  - assert (text_vocab normalized minFreq (size + S remaining) vocab) as Hstay.
    { destruct Hv. split; [done..|lia|done|done]. }
    case_bool_decide; [|eauto].
    destruct (pair_counts_inv vocab normalized) as (pc & -> & Hpc).
    rewrite bind_Done. case_bool_decide as Hbest; [eauto|].
    destruct (best_pair_spec minFreq pc) as [Heq|[Hin Hmin]];
      [by rewrite Heq in Hbest|].
    destruct (best_pair minFreq pc) as [bestPair bestCount] eqn:Eb.
    simpl in Hbest, Hmin |- *.
    apply (proj1 (Forall_forall _ _) Hpc) in Hin
      as (Hpos & a & b & Hkey & Ha & Hb & Hpart). simpl in Hpos, Hkey.
    replace (size + S remaining) with (S size + remaining) by lia.
    apply IH. destruct Hv as [Hnd Hcp Hsize Hcounts Hparts]. split.
    + by apply Map_set_NoDup.
    + intros cp Hin. apply Map_set_key. left. by apply Hcp.
    + etrans; [apply Map_set_length|]. lia.
    + apply Map_set_Forall; [done|]. simpl. split; [done|by right].
    + intros Hbar. apply Map_set_Forall; [by apply Hparts|]. simpl.
      rewrite Hkey, merged_pair_parts.
      * split; [|done]. by destruct a.
      * intros Hin. apply Hbar. eapply part_of_elem; [|done].
        by eapply part_of_app_l.
      * intros Hin. apply Hbar. eapply part_of_elem; [|done].
        by eapply part_of_app_r.
Qed.

Lemma code_point_vocab normalized minFreq :
  text_vocab normalized minFreq (length (remove_dups (code_points normalized)))
    (foldl Map_increment [] (code_points normalized)).
Proof.
  destruct (code_point_counts (code_points normalized)) as (Hnd & Hk & Hv).
  split.
  - done.
  - intros cp Hcp. by apply Hk.
  - rewrite <- (length_fmap fst). apply Nat.eq_le_incl, Permutation_length.
    apply NoDup_Permutation; [done|apply NoDup_remove_dups|].
    intros k. by rewrite Hk, elem_of_remove_dups.
  - apply Forall_forall. intros kv Hin. split.
    + by apply (proj1 (Forall_forall _ _) Hv).
    + left. apply Hk. by apply list_elem_of_fmap_2.
  - intros _. apply Forall_forall. intros kv Hin.
    apply code_points_parts, Hk. by apply list_elem_of_fmap_2.
Qed.

Lemma generateVocabFromText_inv `{HostString} text minFreq maxVocabSize :
  let normalized := trim (String_toLowerCase text) in
  exists entries,
    generateVocabFromText text minFreq maxVocabSize
    = Done (Array_sort (fun a b => Num.sub (score b) (score a)) (text_item <$> entries)) /\
    text_vocab normalized (Z.of_nat (default 2 minFreq))
      (length (remove_dups (code_points normalized)) + 50) entries.
Proof.
  intros normalized. unfold generateVocabFromText. fold normalized.
  case_bool_decide as Hn.
  - exists []. split; [done|]. rewrite Hn. split; simpl; try done; try lia. constructor.
  - destruct (merge_loop_inv 50 normalized (Z.of_nat (default 2 minFreq))
                (default 500 maxVocabSize) _ _
                (code_point_vocab normalized (Z.of_nat (default 2 minFreq))))
      as (vocab & -> & Hv).
    exists vocab. by rewrite bind_Done.
Qed.

(** X22. [generateVocabFromText] returns, for every text and parameters, a
    vocabulary in descending order of score whose tokens are distinct and
    include every code point of the lowercased, trimmed text; it has at
    most 50 entries more than the text has distinct code points; every
    score is a positive integer, and at least [minFreq] for a token that is
    not a code point of the text. *)
Theorem text_vocabulary `{HostString} (text : jsstring)
    (minFreq maxVocabSize : option nat) :
  let normalized := trim (String_toLowerCase text) in
  exists vocab,
    generateVocabFromText text minFreq maxVocabSize = Done vocab /\
    descending vocab /\ NoDup (token <$> vocab) /\
    (forall cp, cp ∈ code_points normalized -> cp ∈ token <$> vocab) /\
    length vocab <= length (remove_dups (code_points normalized)) + 50 /\
    Forall (fun v => exists freq : Z,
              score v = Num.of_Z freq /\ (1 <= freq)%Z /\
              (token v ∈ code_points normalized \/
               (Z.of_nat (default 2%nat minFreq) <= freq)%Z)) vocab.
Proof.
  intros normalized.
  destruct (generateVocabFromText_inv text minFreq maxVocabSize)
    as (entries & -> & [Hnd Hcp Hsize Hcounts _]).
  fold normalized in Hcp, Hsize, Hcounts.
  eexists. split; [done|].
  pose proof (Array_sort_perm (fun a b => Num.sub (score b) (score a))
                (text_item <$> entries)) as Hperm.
  assert (token <$> (text_item <$> entries) = entries.*1) as Htok.
  { rewrite <- list_fmap_compose. by apply list_fmap_ext. }
  split_and!.
  - apply Array_sort_is_descending.
  - rewrite Hperm, Htok. done.
  - intros cp Hin. rewrite Hperm, Htok. by apply Hcp.
  - by rewrite Hperm, length_fmap.
  - rewrite Hperm. apply Forall_fmap.
    eapply Forall_impl; [done|]. intros [k v] [Hpos Hor]. simpl in *.
    exists v. done.
Qed.

(** X23. For a text without a vertical bar, every token of the vocabulary
    that [generateVocabFromText] returns is a piece of the lowercased,
    trimmed text, and none is empty. *)
Theorem text_vocabulary_pieces `{HostString} (text : jsstring)
    (minFreq maxVocabSize : option nat) :
  let normalized := trim (String_toLowerCase text) in
  124%N ∉ normalized ->
  exists vocab,
    generateVocabFromText text minFreq maxVocabSize = Done vocab /\
    Forall (fun v => token v <> [] /\ part_of (token v) normalized) vocab.
Proof.
  intros normalized Hbar.
  destruct (generateVocabFromText_inv text minFreq maxVocabSize)
    as (entries & -> & [_ _ _ _ Hparts]).
  eexists. split; [done|]. rewrite Array_sort_perm. apply Forall_fmap.
  eapply Forall_impl; [by apply Hparts|]. by intros [k v].
Qed.

Lemma covered_position `{HostMath} text algo vocab up br i :
  i < length text -> substring text i (i + 1) ∈ token <$> vocab ->
  position_edges text algo vocab up br i = matches_from text algo vocab up br i.
Proof.
  intros Hi Hin. unfold position_edges.
  destruct (matches_from text algo vocab up br i) as [|e l] eqn:Hm; [|done].
  exfalso. apply find_token_is_Some in Hin as [m Hfind].
  assert (matched_edge algo up br i (i + 1) m (substring text i (i + 1))
          ∈ matches_from text algo vocab up br i) as Hmatch.
  { apply elem_of_matches_from. exists (i + 1).
    split_and!; [lia|lia|unfold MAX_TOKEN_LENGTH; lia|].
    unfold match_at, match_token. by rewrite Hfind. }
  rewrite Hm in Hmatch. by apply elem_of_nil in Hmatch.
Qed.

Lemma bind_ext_elem {A B} (f g : A -> list B) (l : list A) :
  (forall x, x ∈ l -> f x = g x) -> l ≫= f = l ≫= g.
Proof.
  induction l as [|x l IH]; intros Hfg; [done|]. csimpl.
  rewrite (Hfg x) by left. rewrite IH; [done|].
  intros y Hy. apply Hfg. by right.
Qed.

(** X24. A vocabulary generated from a text covers that text: for a text
    without a lead surrogate (every code point is one code unit), the
    lattice that any of the three algorithms builds over the lowercased,
    trimmed text with the generated vocabulary consists of vocabulary
    matches alone - every position has one, no fallback edge is made - so
    that every edge label is a token of the vocabulary. *)
Theorem text_vocabulary_covers `{HostMath} `{HostString} (text : jsstring)
    (minFreq maxVocabSize : option nat) (algo : AlgorithmType) :
  let normalized := trim (String_toLowerCase text) in
  Forall (fun c => is_lead_surrogate c = false) normalized ->
  exists vocab,
    generateVocabFromText text minFreq maxVocabSize = Done vocab /\
    lattice_edges (buildLattice normalized algo (Some vocab))
    = seq 0 (length normalized) ≫=
        matches_from normalized algo vocab
          (scoring_tables (Some vocab)).1 (scoring_tables (Some vocab)).2 /\
    Forall (fun e => edge_label e ∈ token <$> vocab)
      (lattice_edges (buildLattice normalized algo (Some vocab))).
Proof.
  intros normalized Hunits.
  destruct (generateVocabFromText_inv text minFreq maxVocabSize)
    as (entries & Hgen & [_ Hcp _ _ _]).
  fold normalized in Hcp. rewrite Hgen.
  set (vocab := Array_sort _ _).
  assert (forall i, i < length normalized ->
            substring normalized i (i + 1) ∈ token <$> vocab) as Hcover.
  { intros i Hi. unfold vocab. rewrite Array_sort_perm, <- list_fmap_compose.
    apply (Hcp (substring normalized i (i + 1))).
    rewrite code_points_units by done.
    destruct (lookup_lt_is_Some_2 normalized i Hi) as [c Hc].
    apply list_elem_of_fmap. exists c. split; [|by eapply list_elem_of_lookup_2].
    rewrite substring_in_range by lia.
    replace (i + 1 - i) with 1 by lia.
    by rewrite (drop_S _ _ _ Hc). }
  exists vocab. split; [done|].
  assert (lattice_edges (buildLattice normalized algo (Some vocab))
          = seq 0 (length normalized) ≫=
              matches_from normalized algo vocab
                (scoring_tables (Some vocab)).1 (scoring_tables (Some vocab)).2)
    as Hedges.
  { rewrite lattice_edges_eq. apply bind_ext_elem.
    intros i Hi%elem_of_seq. apply covered_position; [lia|]. apply Hcover. lia. }
  split; [done|]. rewrite Hedges. apply Forall_forall.
  intros e (i & He & _)%list_elem_of_bind.
  apply elem_of_matches_from in He as (j & _ & _ & He).
  apply match_at_Some in He as (m & Hm & ->).
  apply match_token_Some in Hm as [Hm _]. simpl.
  by apply (list_elem_of_fmap_2 token).
Qed.

(* ===================================================================== *)
(** * The vocabulary loader *)
(* ===================================================================== *)

Lemma hf_tokens (fields : list (jsstring * JSON)) :
  token <$> filter (fun item => token item <> []) (hf_item <$> fields)
  = filter (fun t => t <> []) fields.*1.
Proof.
  induction fields as [|[t id] fields IH]; [done|]. csimpl.
  rewrite !filter_cons. cbn [token hf_item fst].
  destruct (decide (t <> [])); csimpl.
  - rewrite decide_True by done. by rewrite IH.
  - rewrite decide_False by done. by rewrite IH.
Qed.

Lemma Math_max_zero x : x <> NaN -> Num.le (Fin 0) (Math_max (Fin 0) x).
Proof.
  destruct x as [q| | |]; simpl; try done.
  intros _. destruct (Num.Qltb 0 q) eqn:Hq; simpl.
  - apply Qltb_lt in Hq. lra.
  - apply Qle_refl.
Qed.

Lemma sub_not_NaN q x : x <> NaN -> Num.sub (Fin q) x <> NaN.
Proof. by destruct x. Qed.

Lemma hf_vocabulary_shape (fields : list (jsstring * JSON)) :
  vocabulary_file fields ->
  let vocab := Array_sort (fun a b => Num.sub (score b) (score a))
                 (filter (fun item => token item <> []) (hf_item <$> fields)) in
  descending vocab /\ NoDup (token <$> vocab) /\
  token <$> vocab ≡ₚ filter (fun t => t <> []) fields.*1 /\
  Forall (fun v => Num.le (Fin 0) (score v)) vocab.
Proof.
  intros [Hnd Hnum] vocab.
  assert (token <$> vocab ≡ₚ filter (fun t => t <> []) fields.*1) as Hperm.
  { unfold vocab. by rewrite Array_sort_perm, hf_tokens. }
  split_and!; [apply Array_sort_is_descending| |done|].
  - rewrite Hperm. apply (sublist_NoDup _ fields.*1); [done|apply sublist_filter].
  - unfold vocab. rewrite Array_sort_perm.
    apply Forall_forall. intros v [_ Hv]%list_elem_of_filter.
    apply list_elem_of_fmap in Hv as (entry & -> & Hin).
    rewrite Forall_forall in Hnum. destruct (Hnum entry Hin) as (id & Hid & Hne).
    unfold hf_item. rewrite Hid. simpl score. by apply Math_max_zero, sub_not_NaN.
Qed.

(** X25. From a vocabulary file (an object with a numeric id per token)
    [loadHFPreset] returns the tokens other than the empty one, each once,
    with the score [max(0, 10000 - id)], which is never negative, in
    descending order of score. *)
Theorem hf_vocabulary (fields : list (jsstring * JSON)) :
  vocabulary_file fields ->
  exists vocab,
    loadHFPreset {| ok := true; json := Some (JObject fields) |} = Fulfilled vocab /\
    vocab ≡ₚ filter (fun item => token item <> []) (hf_item <$> fields) /\
    descending vocab /\ NoDup (token <$> vocab) /\
    token <$> vocab ≡ₚ filter (fun t => t <> []) fields.*1 /\
    Forall (fun v => Num.le (Fin 0) (score v)) vocab.
Proof.
  intros Hfile. eexists. split; [reflexivity|]. split; [apply Array_sort_perm|].
  by apply hf_vocabulary_shape.
Qed.

(** X26. Over a vocabulary [loadHFPreset] returned from a vocabulary file,
    the BPE score of every matched edge is the rank of its token in
    descending order of score; except for an edge that matches the token
    [__proto__], a key the rank table cannot hold: the score read for it is
    not a number but [Object.prototype]. *)
Theorem hf_vocabulary_ranks `{HostMath} (fields : list (jsstring * JSON))
    (text : jsstring) (e : TokenEdge) :
  vocabulary_file fields ->
  exists vocab,
    loadHFPreset {| ok := true; json := Some (JObject fields) |} = Fulfilled vocab /\
    (e ∈ lattice_edges (buildLattice text BPE (Some vocab)) ->
     e = fallback_edge text (edge_from e) \/
     edge_score e
     = if bool_decide (edge_label e = js "__proto__") then VObject (js "__proto__")
       else VNumber (claimed_bpe_score vocab (edge_label e))).
Proof.
  intros Hfile. eexists. split; [reflexivity|].
  destruct (hf_vocabulary_shape fields Hfile) as (Hd & Hnd & _).
  by apply bpe_score_sorted_vocabulary.
Qed.

(** * Instances *)

(** An instance of [greedy_selects_the_longest]: the text ["ab"], BPE, over
    the vocabulary [a: 1, ab: 3]. *)
Lemma greedy_selects_the_longest_witness :
  BPE <> UNIGRAM /\
  exists r,
    @tokenize flat_math unicode_fragment (js "ab") BPE true
      (Some [vi "a" 1; vi "ab" 3]) = Done r /\
    Forall (fun e => forall e', e' ∈ edges (graph r) ->
              edge_from e' = edge_from e -> e' <> e -> edge_to e' < edge_to e)
      (selected_edges r).
Proof.
  split; [discriminate|].
  apply (@greedy_selects_the_longest flat_math unicode_fragment (js "ab") BPE true
           (Some [vi "a" 1; vi "ab" 3])).
  discriminate.
Defined.

(** An instance of [wordpiece_like_bpe]: the text ["ab"] over the
    vocabulary [a: 1, ab: 3]. *)
Lemma wordpiece_like_bpe_witness :
  Forall (fun v => startsWith (token v) (js "##") = false) [vi "a" 1; vi "ab" 3] /\
  exists r r',
    @tokenize flat_math unicode_fragment (js "ab") WORDPIECE true
      (Some [vi "a" 1; vi "ab" 3]) = Done r /\
    @tokenize flat_math unicode_fragment (js "ab") BPE true
      (Some [vi "a" 1; vi "ab" 3]) = Done r' /\
    unscored <$> edges (graph r) = unscored <$> edges (graph r') /\
    selectedPath r = selectedPath r' /\ tokens r = tokens r'.
Proof.
  assert (Forall (fun v => startsWith (token v) (js "##") = false)
            [vi "a" 1; vi "ab" 3]) as Hv.
  { repeat constructor. }
  split; [exact Hv|].
  apply (@wordpiece_like_bpe flat_math unicode_fragment (js "ab") true
           (Some [vi "a" 1; vi "ab" 3])).
  intros v Hin. exact (proj1 (Forall_forall _ _) Hv v Hin).
Defined.

(** An instance of [greedy_trace_playback]: the text ["ab"], WordPiece, over
    the vocabulary [a: 1, ab: 3]. *)
Lemma greedy_trace_playback_witness :
  WORDPIECE <> UNIGRAM /\
  exists r frames,
    @tokenizeWithTrace flat_math unicode_fragment (js "ab") WORDPIECE true
      (Some [vi "a" 1; vi "ab" 3]) = Done (r, frames) /\
    edge_id <$> selected_edges r = selectedPath r /\
    walk (edges (graph r)) 0 (length (text (graph r))) (selected_edges r) /\
    greedy_playback (edges (graph r)) (selected_edges r) frames.
Proof.
  split; [discriminate|].
  apply (@greedy_trace_playback flat_math unicode_fragment (js "ab") WORDPIECE true
           (Some [vi "a" 1; vi "ab" 3])).
  discriminate.
Defined.

(** An instance of [unknown_token_rate_zero]: [sample_case], BPE, over the
    vocabulary [a: 1, ab: 3]. *)
Lemma unknown_token_rate_zero_witness :
  Forall (fun v => isUnknownToken (token v)
                     (getVocab (Some [vi "a" 1; vi "ab" 3])) = false)
    [vi "a" 1; vi "ab" 3] /\
  exists m,
    @runValidation flat_math unicode_fragment [sample_case] BPE true
      (Some [vi "a" 1; vi "ab" 3]) = Done m /\
    Num.eqb (unknownTokenRate m) (Fin 0) = true.
Proof.
  assert (Forall (fun v => isUnknownToken (token v)
                             (getVocab (Some [vi "a" 1; vi "ab" 3])) = false)
            [vi "a" 1; vi "ab" 3]) as Hv.
  { repeat constructor. }
  split; [exact Hv|].
  apply (@unknown_token_rate_zero flat_math unicode_fragment [sample_case] BPE true
           (Some [vi "a" 1; vi "ab" 3])).
  intros v Hin. exact (proj1 (Forall_forall _ _) Hv v Hin).
Defined.

(** An instance of [normalization_accuracy_without_gold]: [sample_case],
    BPE, over the vocabulary [a: 1, ab: 3]. *)
Lemma normalization_accuracy_without_gold_witness :
  [sample_case] <> [] /\
  Forall (fun c => goldNormalized c = None) [sample_case] /\
  exists m,
    @runValidation flat_math unicode_fragment [sample_case] BPE true
      (Some [vi "a" 1; vi "ab" 3]) = Done m /\
    Num.eqb (normalizationAccuracy m) (Fin 1) = true.
Proof.
  split; [discriminate|]. split; [repeat constructor|].
  apply (@normalization_accuracy_without_gold flat_math unicode_fragment
           [sample_case] BPE true (Some [vi "a" 1; vi "ab" 3])).
  - discriminate.
  - repeat constructor.
Defined.

(** An instance of [statusForMetric_monotone]: token accuracy 0.85 and
    0.95. *)
Lemma statusForMetric_monotone_witness :
  Num.le (Fin (85 # 100)) (Fin (95 # 100)) /\
  status_rank (statusForMetric key_tokenAccuracy (Fin (85 # 100)))
  <= status_rank (statusForMetric key_tokenAccuracy (Fin (95 # 100))).
Proof.
  assert (Num.le (Fin (85 # 100)) (Fin (95 # 100))) as Hle by (vm_compute; discriminate).
  split; [exact Hle|].
  exact (statusForMetric_monotone key_tokenAccuracy (Fin (85 # 100)) (Fin (95 # 100)) Hle).
Defined.

(** An instance of [detokenize_wordpiece]: the words [un|do|ing] and
    [it]. *)
Lemma detokenize_wordpiece_witness :
  Forall (fun w : jsstring * list jsstring => unmarked w.1)
    [(js "un", [js "do"; js "ing"]); (js "it", [])] /\
  detokenize [js "un"; js "##do"; js "##ing"; js "it"] = js "undoing it".
Proof.
  assert (Forall (fun w : jsstring * list jsstring => unmarked w.1)
            [(js "un", [js "do"; js "ing"]); (js "it", [])]) as Hw.
  { repeat constructor. }
  split; [exact Hw|].
  exact (detokenize_wordpiece [(js "un", [js "do"; js "ing"]); (js "it", [])] Hw).
Defined.

(** An instance of [augment_sorted_idempotent]: the vocabulary
    [a: 1, un: 70]. *)
Lemma augment_sorted_idempotent_witness :
  Forall (fun v => score v <> NaN) [vi "a" 1; vi "un" 70] /\
  descending (augmentVocabWithAffixes [vi "a" 1; vi "un" 70]) /\
  augmentVocabWithAffixes (augmentVocabWithAffixes [vi "a" 1; vi "un" 70])
  = augmentVocabWithAffixes [vi "a" 1; vi "un" 70].
Proof.
  assert (Forall (fun v => score v <> NaN) [vi "a" 1; vi "un" 70]) as Hv.
  { repeat constructor; discriminate. }
  split; [exact Hv|].
  exact (augment_sorted_idempotent [vi "a" 1; vi "un" 70] Hv).
Defined.

(** An instance of [perfect_cases_score_one]: [sample_case], Unigram, over
    the vocabulary [a: 1, ab: 3]. *)
Lemma perfect_cases_score_one_witness :
  (@exp_not_negative flat_math /\ @log_of_positive flat_math) /\
  Forall (fun c => goldTokens c <> [] /\ goldDetokenized c = None /\
            tokens <$> @tokenize flat_math unicode_fragment (input c) UNIGRAM true
                         (Some [vi "a" 1; vi "ab" 3])
            = Done (goldTokens c)) [sample_case] /\
  exists m,
    @runValidation flat_math unicode_fragment [sample_case] UNIGRAM true
      (Some [vi "a" 1; vi "ab" 3]) = Done m /\
    Num.eqb (tokenAccuracy m) (Fin 1) = true /\
    Num.eqb (roundTripConsistency m) (Fin 1) = true /\
    (UNIGRAM <> WORDPIECE -> Num.eqb (boundaryAccuracy m) (Fin 1) = true).
Proof.
  assert (Forall (fun c => goldTokens c <> [] /\ goldDetokenized c = None /\
            tokens <$> @tokenize flat_math unicode_fragment (input c) UNIGRAM true
                         (Some [vi "a" 1; vi "ab" 3])
            = Done (goldTokens c)) [sample_case]) as Hc.
  { repeat constructor. discriminate. }
  split; [split; [exact flat_math_exp|exact flat_math_log]|].
  split; [exact Hc|].
  apply (@perfect_cases_score_one flat_math unicode_fragment [sample_case] UNIGRAM
           true (Some [vi "a" 1; vi "ab" 3])).
  - intros _. split; [exact flat_math_exp|exact flat_math_log].
  - discriminate.
  - exact Hc.
Defined.

Lemma sample_fields_file : vocabulary_file sample_fields.
Proof.
  split.
  - apply (bool_decide_unpack (NoDup sample_fields.*1)). reflexivity.
  - repeat constructor; eexists; (split; [reflexivity|discriminate]).
Qed.

(** An instance of [hf_vocabulary]: [sample_fields]. *)
Lemma hf_vocabulary_witness :
  vocabulary_file sample_fields /\
  exists vocab,
    loadHFPreset {| ok := true; json := Some (JObject sample_fields) |}
    = Fulfilled vocab /\
    vocab ≡ₚ filter (fun item => token item <> []) (hf_item <$> sample_fields) /\
    descending vocab /\ NoDup (token <$> vocab) /\
    token <$> vocab ≡ₚ filter (fun t => t <> []) sample_fields.*1 /\
    Forall (fun v => Num.le (Fin 0) (score v)) vocab.
Proof.
  split; [exact sample_fields_file|].
  exact (hf_vocabulary sample_fields sample_fields_file).
Defined.

(** An instance of [hf_vocabulary_ranks]: [sample_fields], the text ["ab"]
    and its edge for the token ["ab"]. *)
Lemma hf_vocabulary_ranks_witness :
  let e := {| edge_id := js "edge-0-2-ab"; edge_from := 0; edge_to := 2;
              edge_label := js "ab"; edge_score := VNumber (Fin 2) |} in
  vocabulary_file sample_fields /\
  exists vocab,
    loadHFPreset {| ok := true; json := Some (JObject sample_fields) |}
    = Fulfilled vocab /\
    (e ∈ lattice_edges (@buildLattice flat_math (js "ab") BPE (Some vocab)) ->
     e = fallback_edge (js "ab") (edge_from e) \/
     edge_score e
     = if bool_decide (edge_label e = js "__proto__") then VObject (js "__proto__")
       else VNumber (claimed_bpe_score vocab (edge_label e))).
Proof.
  intros e. split; [exact sample_fields_file|].
  exact (@hf_vocabulary_ranks flat_math sample_fields (js "ab") e sample_fields_file).
Defined.

(** An instance of [greedy_reads_token_set]: the text ["ab"], BPE, over
    [a: 1, ab: 3] and over [ab: 2, a: 5, a: 7]. *)
Lemma greedy_reads_token_set_witness :
  BPE <> UNIGRAM /\
  (forall t, t ∈ token <$> [vi "a" 1; vi "ab" 3]
             <-> t ∈ token <$> [vi "ab" 2; vi "a" 5; vi "a" 7]) /\
  exists r1 r2,
    @tokenize flat_math unicode_fragment (js "ab") BPE true
      (Some [vi "a" 1; vi "ab" 3]) = Done r1 /\
    @tokenize flat_math unicode_fragment (js "ab") BPE true
      (Some [vi "ab" 2; vi "a" 5; vi "a" 7]) = Done r2 /\
    unscored <$> edges (graph r1) = unscored <$> edges (graph r2) /\
    selectedPath r1 = selectedPath r2 /\ tokens r1 = tokens r2.
Proof.
  assert (forall t, t ∈ token <$> [vi "a" 1; vi "ab" 3]
                    <-> t ∈ token <$> [vi "ab" 2; vi "a" 5; vi "a" 7]) as Hset.
  { intros t. cbn [fmap list_fmap]. rewrite !elem_of_cons, !elem_of_nil. tauto. }
  split; [discriminate|]. split; [exact Hset|].
  apply (@greedy_reads_token_set flat_math unicode_fragment (js "ab") BPE true
           [vi "a" 1; vi "ab" 3] [vi "ab" 2; vi "a" 5; vi "a" 7]).
  - discriminate.
  - exact Hset.
Defined.

(** An instance of [text_vocabulary_pieces]: the text ["Abab ab"]. *)
Lemma text_vocabulary_pieces_witness :
  (124%N ∉ trim (@String_toLowerCase unicode_fragment (js "Abab ab"))) /\
  exists vocab,
    @generateVocabFromText unicode_fragment (js "Abab ab") None None = Done vocab /\
    Forall (fun v => token v <> [] /\
              part_of (token v)
                (trim (@String_toLowerCase unicode_fragment (js "Abab ab")))) vocab.
Proof.
  assert (124%N ∉ trim (@String_toLowerCase unicode_fragment (js "Abab ab"))) as Hbar.
  { apply (bool_decide_unpack _). reflexivity. }
  split; [exact Hbar|].
  exact (@text_vocabulary_pieces unicode_fragment (js "Abab ab") None None Hbar).
Defined.

(** An instance of [text_vocabulary_covers]: the text ["Abab ab"],
    Unigram. *)
Lemma text_vocabulary_covers_witness :
  let normalized := trim (@String_toLowerCase unicode_fragment (js "Abab ab")) in
  Forall (fun c => is_lead_surrogate c = false) normalized /\
  exists vocab,
    @generateVocabFromText unicode_fragment (js "Abab ab") None None = Done vocab /\
    lattice_edges (@buildLattice flat_math normalized UNIGRAM (Some vocab))
    = seq 0 (length normalized) ≫=
        @matches_from flat_math normalized UNIGRAM vocab
          (@scoring_tables flat_math (Some vocab)).1
          (@scoring_tables flat_math (Some vocab)).2 /\
    Forall (fun e => edge_label e ∈ token <$> vocab)
      (lattice_edges (@buildLattice flat_math normalized UNIGRAM (Some vocab))).
Proof.
  intros normalized.
  assert (Forall (fun c => is_lead_surrogate c = false) normalized) as Hu.
  { apply (bool_decide_unpack _). reflexivity. }
  split; [exact Hu|].
  exact (@text_vocabulary_covers flat_math unicode_fragment (js "Abab ab") None None
           UNIGRAM Hu).
Defined.
